(** * Telegram-Post-Reactor: the reaction-dispatch engine of [main.py]

    A shallow embedding of [TelegramAccountManager] (src/main.py) and the
    properties of its dispatcher, backlog pass, live handlers and
    shutdown.

    The coroutines of the source are written as programs over the
    operations they perform on the outside world (the shared set of
    processed ids, the random generator, the messaging client, sleeps and
    prints).  Two readings of a program are given: [exec] runs one
    coroutine to its end, and [resume] runs it from one suspension point
    (an [await]) to the next, which is what the event loop does when
    several coroutines are in flight. *)

From Stdlib Require Import ZArith Lia List String.
From stdpp Require Import base decidable option list sets gmap strings pretty.

Local Open Scope Z_scope.

(** * The model *)

(** ** Data *)

(** An account session; its identity is the session name. *)
Definition client := string.

(** Errors: the subclasses of Python's [Exception] that the code meets.
    [ValueError] is what [random.sample] raises on a sample larger than
    the population, [IndexError] what [self.clients[0]] raises on an empty
    list, [RPCError] stands for the errors of the messaging library. *)
Inductive error :=
| ValueError
| IndexError
| RPCError (code : Z).

(** What can be raised.  [KeyboardInterrupt] and [CancelledError] derive
    from [BaseException], not from [Exception]: [except Exception] lets
    them through. *)
Inductive exn :=
| Error (e : error)
| KeyboardInterrupt
| CancelledError.

(** The argument of [asyncio.sleep]: a fixed number of seconds, or the
    value of [random.uniform(lo, hi)]. *)
Inductive duration :=
| Seconds (n : Z)
| Uniform (lo hi : Z).

(** The lines the code prints. *)
Inductive log :=
| LogRetry (retries max : Z) (message_id : Z)
| LogFailed (message_id : Z) (max : Z)
| LogProcessingOld
| LogErrorOld (e : error)
| LogFinishedOld
| LogNoAccounts
| LogRunning
| LogPressCtrlC
| LogStopping.

(** One step of the async generator [client.get_chat_history]. *)
Inductive fetch :=
| Yield (message_id : Z)
| Exhausted
| FetchFails (e : error).

(** What [initialize_clients] leaves behind: the sessions it started and
    appended to [self.clients], the resolved [self.channel_id], and its
    own outcome ([inl b] for [return b], [inr e] when it raises). *)
Record init_outcome := {
  init_clients : list client;
  init_channel_id : option Z;
  init_return : bool + exn
}.

(** The observable actions, in the order they happen. *)
Inductive event :=
| EvMark (message_id : Z)
| EvSend (c : client) (chat_id : option Z) (message_id : Z)
         (emoji : string) (failure : option error)
| EvSleep (d : duration)
| EvPrint (l : log)
| EvGetChatHistory (c : client) (chat_id : option Z) (limit : nat)
| EvOnMessage (c : client) (chat_id : option Z)
| EvStop (c : client) (failure : option exn).

(** Equality of events is decidable. *)
#[global] Instance error_eq_dec : EqDecision error.
Proof. solve_decision. Defined.
#[global] Instance exn_eq_dec : EqDecision exn.
Proof. solve_decision. Defined.
#[global] Instance duration_eq_dec : EqDecision duration.
Proof. solve_decision. Defined.
#[global] Instance log_eq_dec : EqDecision log.
Proof. solve_decision. Defined.
#[global] Instance event_eq_dec : EqDecision event.
Proof. solve_decision. Defined.

(** ** Operations and programs *)

(** The operations of the code on its surroundings, indexed by the type
    of their answer. *)
Inductive op : Type -> Type :=
| Contains (message_id : Z) : op bool
| Add (message_id : Z) : op unit
| Randbelow (n : nat) : op nat
| SendReaction (c : client) (chat_id : option Z) (message_id : Z)
               (emoji : string) : op (option error)
| Sleep (d : duration) : op unit
| Say (l : log) : op unit
| GetChatHistory (c : client) (chat_id : option Z) (limit : nat) : op unit
| Anext (c : client) (i : nat) : op fetch
| OnMessage (c : client) (chat_id : option Z) : op unit
| StopClient (c : client) : op (option exn)
| InitializeClients : op init_outcome
| WaitForever : op exn.

(** A program: it returns, raises, or performs an operation and goes on
    with the answer. *)
Inductive prog (R : Type) : Type :=
| Ret (r : R)
| Raise (e : exn)
| Vis {A : Type} (o : op A) (k : A -> prog R).

Arguments Ret {R} r.
Arguments Raise {R} e.
Arguments Vis {R A} o k.

Fixpoint bind {R S : Type} (p : prog R) (f : R -> prog S) : prog S :=
  match p with
  | Ret r => f r
  | Raise e => Raise e
  | Vis o k => Vis o (fun a => bind (k a) f)
  end.

Notation "x <- p ;; q" := (bind p (fun x => q))
  (at level 100, p at next level, right associativity).
Notation "p ;; q" := (bind p (fun _ => q))
  (at level 100, right associativity).

Definition call {A : Type} (o : op A) : prog A := Vis o Ret.

(** [try: p  except Exception as e: h e] *)
Fixpoint try_except {R : Type} (p : prog R) (h : error -> prog R) : prog R :=
  match p with
  | Ret r => Ret r
  | Raise (Error e) => h e
  | Raise x => Raise x
  | Vis o k => Vis o (fun a => try_except (k a) h)
  end.

(** [try: p  except KeyboardInterrupt: h] *)
Fixpoint try_except_interrupt {R : Type} (p : prog R) (h : prog R) : prog R :=
  match p with
  | Ret r => Ret r
  | Raise KeyboardInterrupt => h
  | Raise x => Raise x
  | Vis o k => Vis o (fun a => try_except_interrupt (k a) h)
  end.

(** [try: p  finally: f] *)
Fixpoint try_finally {R : Type} (p : prog R) (f : prog unit) : prog R :=
  match p with
  | Ret r => f ;; Ret r
  | Raise e => f ;; Raise e
  | Vis o k => Vis o (fun a => try_finally (k a) f)
  end.

(** [for x in xs: body x] *)
Fixpoint for_each {A : Type} (xs : list A) (body : A -> prog unit) : prog unit :=
  match xs with
  | [] => Ret tt
  | x :: xs' => body x ;; for_each xs' body
  end.

(** ** The surroundings *)

(** Everything the code does not decide: the raw output of the random
    generator at each draw, the outcome of each call of the messaging
    library ([None] when the call returns, else the error it raises, an
    [Exception] of the library), what [initialize_clients] set up, and the
    interrupt that ends the final wait.  Interrupts are delivered at that
    wait only: a dispatch meets errors, not interrupts. *)
Record env := {
  rand : nat -> nat;
  send_reaction_result : nat -> client -> Z -> string -> option error;
  chat_history : client -> nat -> fetch;
  stop_result : client -> option exn;
  initialize_result : init_outcome;
  wait_result : exn
}.

(** The mutable state: [self.processed_messages], the number of draws
    and of [send_reaction] calls made so far, and the clients a handler
    was registered on. *)
Record world := {
  processed_messages : gset Z;
  draws : nat;
  sends : nat;
  handlers : list client
}.

Definition perform (E : env) {A : Type} (o : op A) (w : world)
  : A * world * list event :=
  match o in op T return T * world * list event with
  | Contains m => (bool_decide (m ∈ processed_messages w), w, [])
  | Add m =>
      (tt,
       {| processed_messages := {[ m ]} ∪ processed_messages w;
          draws := draws w; sends := sends w; handlers := handlers w |},
       [EvMark m])
  | Randbelow n =>
      ((rand E (draws w) mod n)%nat,
       {| processed_messages := processed_messages w;
          draws := S (draws w); sends := sends w; handlers := handlers w |},
       [])
  | SendReaction c chat m emoji =>
      let r := send_reaction_result E (sends w) c m emoji in
      (r,
       {| processed_messages := processed_messages w;
          draws := draws w; sends := S (sends w); handlers := handlers w |},
       [EvSend c chat m emoji r])
  | Sleep d => (tt, w, [EvSleep d])
  | Say l => (tt, w, [EvPrint l])
  | GetChatHistory c chat limit => (tt, w, [EvGetChatHistory c chat limit])
  | Anext c i => (chat_history E c i, w, [])
  | OnMessage c chat =>
      (tt,
       {| processed_messages := processed_messages w;
          draws := draws w; sends := sends w; handlers := handlers w ++ [c] |},
       [EvOnMessage c chat])
  | StopClient c => (stop_result E c, w, [EvStop c (stop_result E c)])
  | InitializeClients => (initialize_result E, w, [])
  | WaitForever => (wait_result E, w, [])
  end.

(** How a coroutine ends. *)
Inductive result (R : Type) :=
| Normal (r : R)
| Raised (e : exn).

Arguments Normal {R} r.
Arguments Raised {R} e.

(** Running one coroutine to its end. *)
Fixpoint exec (E : env) {R : Type} (p : prog R) (w : world)
  : result R * world * list event :=
  match p with
  | Ret r => (Normal r, w, [])
  | Raise e => (Raised e, w, [])
  | Vis o k =>
      let '(a, w1, t1) := perform E o w in
      let '(r, w2, t2) := exec E (k a) w1 in
      (r, w2, t1 ++ t2)
  end.

(** ** The manager *)

(** The fields of [TelegramAccountManager] that the coroutines read. *)
Record manager := {
  clients : list client;
  reactions : list string;
  channel_id : option Z
}.

Definition max_retries : nat := 3.
Definition retry_delay : Z := 5.

(** [random.randint(a, b)] for [a <= b] given as [a] and [b - a]. *)
Definition randint (a width : nat) : prog nat :=
  j <- call (Randbelow (S width)) ;; Ret (a + j)%nat.

(** [random.sample(population, k)], after CPython's pool algorithm: draw
    a position among the entries still in the pool, take the entry, move
    the last entry of the pool into the vacancy.  (For a population of
    more than 21 entries CPython tracks the chosen positions in a set
    instead; the possible results are the same.) *)
Fixpoint sample_pool {A : Type} (pool : list A) (k : nat) : prog (list A) :=
  match k with
  | O => Ret []
  | S k' =>
      j <- call (Randbelow (length pool)) ;;
      match pool !! j, last pool with
      | Some x, Some y =>
          rest <- sample_pool (removelast (<[ j := y ]> pool)) k' ;;
          Ret (x :: rest)
      | _, _ => Ret []
      end
  end.

Definition sample {A : Type} (population : list A) (k : nat) : prog (list A) :=
  if (length population <? k)%nat then Raise (Error ValueError)
  else sample_pool population k.

Definition send_reaction (c : client) (chat_id : option Z) (message_id : Z)
    (emoji : string) : prog unit :=
  r <- call (SendReaction c chat_id message_id emoji) ;;
  match r with
  | None => Ret tt
  | Some e => Raise (Error e)
  end.

Definition sleep (d : duration) : prog unit := call (Sleep d).
Definition say (l : log) : prog unit := call (Say l).

(** Lines 100-101: the reactions chosen for one try. *)
Definition select_reactions (M : manager) : prog (list string) :=
  num_reactions <- randint 1 1 ;;
  sample (reactions M) num_reactions.

(** Lines 103-109: the reactions are sent one after the other. *)
Definition send_selected (M : manager) (c : client) (message_id : Z)
    (selected_reactions : list string) : prog unit :=
  for_each selected_reactions (fun reaction =>
    send_reaction c (channel_id M) message_id reaction ;;
    sleep (Uniform 2 4)).

(** Lines 100-111: the body of the [try]. *)
Definition attempt (M : manager) (c : client) (message_id : Z) : prog unit :=
  selected_reactions <- select_reactions M ;;
  send_selected M c message_id selected_reactions.

(** Lines 113-119: the [except Exception] handler; it returns the new
    value of [retries]. *)
Definition on_failure (message_id : Z) (retries : nat) : prog nat :=
  let retries := S retries in
  (if (retries <? max_retries)%nat
   then say (LogRetry (Z.of_nat retries) (Z.of_nat max_retries) message_id) ;;
        sleep (Seconds (retry_delay * Z.of_nat retries))
   else say (LogFailed message_id (Z.of_nat max_retries))) ;;
  Ret retries.

(** Lines 98-119: [while retries < self.max_retries].  [fuel] bounds the
    number of iterations; [max_retries - retries] is enough
    ([retry_loop_fuel]).  The body answers [None] for [break]. *)
Fixpoint retry_loop (M : manager) (c : client) (message_id : Z)
    (fuel retries : nat) : prog unit :=
  match fuel with
  | O => Ret tt
  | S fuel' =>
      if (retries <? max_retries)%nat then
        next <- try_except (attempt M c message_id ;; Ret None)
                           (fun _ => retries' <- on_failure message_id retries ;;
                                     Ret (Some retries')) ;;
        match next with
        | None => Ret tt
        | Some retries' => retry_loop M c message_id fuel' retries'
        end
      else Ret tt
  end.

(** Lines 97-121: the body of [for client in self.clients]. *)
Definition react_with (M : manager) (message_id : Z) (c : client) : prog unit :=
  retry_loop M c message_id max_retries 0 ;;
  sleep (Uniform 4 7).

(** Lines 96-121. *)
Definition react_all (M : manager) (message_id : Z) : prog unit :=
  for_each (clients M) (react_with M message_id).

(** Lines 91-121: [react_to_message]. *)
Definition react_to_message (M : manager) (message_id : Z) : prog unit :=
  seen <- call (Contains message_id) ;;
  if (seen : bool) then Ret tt
  else call (Add message_id) ;; react_all M message_id.

(** [client.get_chat_history(self.channel_id, limit=100)]: the generator
    yields at most [limit] messages, so the [async for] asks for the next
    one at most [limit] times before the generator is exhausted. *)
Definition history_limit : nat := 100.

(** Lines 127-129: the [async for] loop; [i] counts the messages already
    received, [remaining] those the generator may still yield. *)
Fixpoint history_loop (M : manager) (c : client) (remaining i : nat) : prog unit :=
  match remaining with
  | O => Ret tt
  | S remaining' =>
      item <- call (Anext c i) ;;
      match item with
      | Yield message_id =>
          react_to_message M message_id ;;
          sleep (Uniform 5 8) ;;
          history_loop M c remaining' (S i)
      | Exhausted => Ret tt
      | FetchFails e => Raise (Error e)
      end
  end.

(** Lines 123-132: [process_old_messages]. *)
Definition process_old_messages (M : manager) : prog unit :=
  say LogProcessingOld ;;
  try_except
    (match clients M with
     | [] => Raise (Error IndexError)
     | c :: _ =>
         call (GetChatHistory c (channel_id M) history_limit) ;;
         history_loop M c history_limit 0
     end)
    (fun e => say (LogErrorOld e)) ;;
  say LogFinishedOld.

(** Lines 134-136: [handle_new_message]. *)
Definition handle_new_message (M : manager) (c : client) (message_id : Z)
  : prog unit :=
  sleep (Uniform 1 3) ;;
  react_to_message M message_id.

Definition stop (c : client) : prog unit :=
  r <- call (StopClient c) ;;
  match r with
  | None => Ret tt
  | Some e => Raise e
  end.

(** Lines 162-163: the [finally] block. *)
Definition stop_all (M : manager) : prog unit :=
  for_each (clients M) stop.

(** Lines 149-152: one handler per client. *)
Definition register_handlers (M : manager) : prog unit :=
  for_each (clients M) (fun c => call (OnMessage c (channel_id M))).

(** Lines 147-157: what [run] does once the accounts are there. *)
Definition serve (M : manager) : prog unit :=
  process_old_messages M ;;
  register_handlers M ;;
  say LogRunning ;;
  say LogPressCtrlC ;;
  e <- call WaitForever ;;
  Raise e.

(** Lines 138-163: [run].  [initialize_clients] is the account bootstrap
    (session files, prompts, logins); it is taken as one operation whose
    answer tells what it left in [self.clients] and [self.channel_id] and
    how it ended, and that ending takes effect inside the [try]. *)
Definition run (configured_reactions : list string) : prog unit :=
  init <- call InitializeClients ;;
  let M := {| clients := init_clients init;
              reactions := configured_reactions;
              channel_id := init_channel_id init |} in
  try_finally
    (try_except_interrupt
       (match init_return init with
        | inr e => Raise e
        | inl false => Ret tt
        | inl true =>
            match clients M with
            | [] => say LogNoAccounts
            | _ :: _ => serve M
            end
        end)
       (say LogStopping))
    (stop_all M).

(** ** The parts of a run *)

Definition outcome_of {R : Type} (x : result R * world * list event) : result R := x.1.1.
Definition world_of {R : Type} (x : result R * world * list event) : world := x.1.2.
Definition trace_of {R : Type} (x : result R * world * list event) : list event := x.2.

(** ** Choosing the reactions of one try *)

(** The world after [n] more draws. *)
Definition after_draws (n : nat) (w : world) : world :=
  {| processed_messages := processed_messages w;
     draws := (draws w + n)%nat; sends := sends w; handlers := handlers w |}.

(** The size [random.randint(1, 2)] asks for at the next draw. *)
Definition requested (E : env) (w : world) : nat :=
  (1 + rand E (draws w) mod 2)%nat.

(** ** Sending the chosen reactions *)

Definition after_sends (n : nat) (w : world) : world :=
  {| processed_messages := processed_messages w;
     draws := draws w; sends := (sends w + n)%nat; handlers := handlers w |}.

(** What accepted submissions look like in the trace: each one is
    followed by its sleep. *)
Definition paced (M : manager) (c : client) (m : Z) (sel : list string)
  : list event :=
  flat_map (fun emoji => [EvSend c (channel_id M) m emoji None;
                          EvSleep (Uniform 2 4)]) sel.

(** The reaction symbols submitted in a trace, accepted or not. *)
Definition sent_emojis (t : list event) : list string :=
  omap (fun ev => match ev with
                  | EvSend _ _ _ emoji _ => Some emoji
                  | _ => None
                  end) t.

(** The subset the specification promises for a vocabulary [V]. *)
Definition subset_as_claimed (V sel : list string) : Prop :=
  (1 <= length sel <= Nat.min 2 (length V))%nat
  /\ NoDup sel
  /\ forall x, x ∈ sel -> x ∈ V.

(** A network that accepts everything, a generator that always gives
    [draw], an empty history and no account: a quiet environment. *)
Definition quiet_env (draw : nat) : env :=
  {| rand := fun _ => draw;
     send_reaction_result := fun _ _ _ _ => None;
     chat_history := fun _ _ => Exhausted;
     stop_result := fun _ => None;
     initialize_result :=
       {| init_clients := []; init_channel_id := None; init_return := inl true |};
     wait_result := KeyboardInterrupt |}.

Definition fresh_world : world :=
  {| processed_messages := ∅; draws := 0; sends := 0; handlers := [] |}.

Definition manager_of (cs : list client) (V : list string) : manager :=
  {| clients := cs; reactions := V; channel_id := Some (-100) |}.

(** ** Pacing inside a try *)

(** The number of sleeps of 2 to 4 seconds in a trace. *)
Definition pacing_sleeps (t : list event) : nat :=
  length (filter (fun ev => ev = EvSleep (Uniform 2 4)) t).

(** ** The retry loop *)

(** What the handler prints and sleeps once [retries] has become [k]. *)
Definition backoff (m : Z) (k : nat) : list event :=
  if (k <? max_retries)%nat
  then [EvPrint (LogRetry (Z.of_nat k) (Z.of_nat max_retries) m);
        EvSleep (Seconds (retry_delay * Z.of_nat k))]
  else [EvPrint (LogFailed m (Z.of_nat max_retries))].




(** ** The full sequence of a session *)

(** How a try ends: every submission was accepted, or the try was cut
    short by an error. *)
Inductive try_end :=
| Accepted
| Refused (e : error).

Definition raises_of (how : try_end) : result unit :=
  match how with
  | Accepted => Normal tt
  | Refused e => Raised (Error e)
  end.

(** One try, from the state [w] to the state [w']: the size is drawn;
    when it exceeds the vocabulary the try fails with nothing submitted;
    otherwise a selection [sel] of that size is drawn from the vocabulary
    and its reactions are submitted in turn, each accepted one followed by
    its sleep, up to the end of [sel] or to the first refusal. *)
Definition one_try (E : env) (M : manager) (c : client) (m : Z)
    (w : world) (how : try_end) (w' : world) (t : list event) : Prop :=
  ((length (reactions M) < requested E w)%nat
   /\ how = Refused ValueError /\ w' = after_draws 1 w /\ t = [])
  \/ exists sel,
       (requested E w <= length (reactions M))%nat
       /\ length sel = requested E w /\ sel ⊆+ reactions M
       /\ ((how = Accepted
            /\ w' = after_sends (length sel) (after_draws (1 + requested E w) w)
            /\ t = paced M c m sel)
           \/ exists n emoji err,
                sel !! n = Some emoji
                /\ how = Refused err
                /\ w' = after_sends (S n) (after_draws (1 + requested E w) w)
                /\ t = paced M c m (take n sel)
                       ++ [EvSend c (channel_id M) m emoji (Some err)]).

(** The tries of one session once [k] of them have failed: a try that is
    accepted ends them; a try that is refused is followed by the retry
    line, the backoff and the next try, as long as fewer than
    [max_retries] have failed; the refusal that makes [max_retries] is
    followed by the failure line, and no further try. *)
Inductive session_tries (E : env) (M : manager) (c : client) (m : Z)
  : nat -> world -> world -> list event -> Prop :=
| tries_accepted (k : nat) (w w' : world) (t : list event) :
    (k < max_retries)%nat ->
    one_try E M c m w Accepted w' t ->
    session_tries E M c m k w w' t
| tries_again (k : nat) (w w1 w' : world) (e : error) (t t' : list event) :
    (S k < max_retries)%nat ->
    one_try E M c m w (Refused e) w1 t ->
    session_tries E M c m (S k) w1 w' t' ->
    session_tries E M c m k w w'
      (t ++ [EvPrint (LogRetry (Z.of_nat (S k)) (Z.of_nat max_retries) m);
             EvSleep (Seconds (retry_delay * Z.of_nat (S k)))] ++ t')
| tries_exhausted (k : nat) (w w' : world) (e : error) (t : list event) :
    S k = max_retries ->
    one_try E M c m w (Refused e) w' t ->
    session_tries E M c m k w w'
      (t ++ [EvPrint (LogFailed m (Z.of_nat max_retries))]).

(** The sessions [cs] served one after the other: each makes its tries
    from the state the one before left, then comes its pause of 4 to 7
    seconds. *)
Inductive sessions_served (E : env) (M : manager) (m : Z)
  : list client -> world -> world -> list event -> Prop :=
| served_nil (w : world) : sessions_served E M m [] w w []
| served_cons (c : client) (cs : list client) (w w1 w' : world)
      (tc t : list event) :
    session_tries E M c m 0 w w1 tc ->
    sessions_served E M m cs w1 w' t ->
    sessions_served E M m (c :: cs) w w' (tc ++ [EvSleep (Uniform 4 7)] ++ t).

(** The state once [m] is marked. *)
Definition marked_world (m : Z) (w : world) : world :=
  {| processed_messages := {[ m ]} ∪ processed_messages w;
     draws := draws w; sends := sends w; handlers := handlers w |}.

(** ** A vocabulary of one reaction *)


(** ** Which operations a program uses *)

(** [uses P p]: every operation [p] can come to perform satisfies [P]. *)
Fixpoint uses (P : forall A : Type, op A -> bool) {R : Type} (p : prog R) : Prop :=
  match p with
  | Ret _ => True
  | Raise _ => True
  | Vis o k => P _ o = true /\ forall a, uses P (k a)
  end.

(** The operations of the dispatcher and of the backlog pass: all but
    the registration of a handler and the release of a session. *)
Definition dispatching {A : Type} (o : op A) : bool :=
  match o with
  | OnMessage _ _ => false
  | StopClient _ => false
  | _ => true
  end.

(** The operations of the tries: draws, submissions, sleeps, prints. *)
Definition sending {A : Type} (o : op A) : bool :=
  match o with
  | Randbelow _ => true
  | SendReaction _ _ _ _ => true
  | Sleep _ => true
  | Say _ => true
  | _ => false
  end.

Definition not_registering {A : Type} (o : op A) : bool :=
  match o with
  | OnMessage _ _ => false
  | _ => true
  end.

Definition not_stopping {A : Type} (o : op A) : bool :=
  match o with
  | StopClient _ => false
  | _ => true
  end.

Definition is_stop (ev : event) : bool :=
  match ev with
  | EvStop _ _ => true
  | _ => false
  end.

Definition is_register (ev : event) : bool :=
  match ev with
  | EvOnMessage _ _ => true
  | _ => false
  end.

(** ** The backlog pass *)

(** The ids the generator of client [c] yields from position [i] on, at
    most [remaining] of them, until it is exhausted or fails. *)
Fixpoint retrieved (E : env) (c : client) (remaining i : nat) : list Z :=
  match remaining with
  | O => []
  | S remaining' =>
      match chat_history E c i with
      | Yield message_id => message_id :: retrieved E c remaining' (S i)
      | _ => []
      end
  end.

(** The error that cut the retrieval short, if one did. *)
Fixpoint retrieval_error (E : env) (c : client) (remaining i : nat)
  : option error :=
  match remaining with
  | O => None
  | S remaining' =>
      match chat_history E c i with
      | Yield _ => retrieval_error E c remaining' (S i)
      | Exhausted => None
      | FetchFails e => Some e
      end
  end.

(** The backlog pass as the specification words it: each message in
    turn is dispatched, then comes a sleep of 5 to 8 seconds. *)
Definition dispatch_each (M : manager) (ids : list Z) : prog unit :=
  for_each ids (fun message_id =>
    react_to_message M message_id ;; sleep (Uniform 5 8)).

(** ** Shutdown *)

(** The sessions the [finally] block gets to: all of them up to and
    including the first whose release fails. *)
Fixpoint released (E : env) (cs : list client) : list client :=
  match cs with
  | [] => []
  | c :: cs' =>
      c :: match stop_result E c with
           | None => released E cs'
           | Some _ => []
           end
  end.

(** The failure that ends the [finally] block, if one does. *)
Fixpoint release_failure (E : env) (cs : list client) : option exn :=
  match cs with
  | [] => None
  | c :: cs' =>
      match stop_result E c with
      | None => release_failure E cs'
      | Some e => Some e
      end
  end.

Definition stop_events (E : env) (cs : list client) : list event :=
  map (fun c => EvStop c (stop_result E c)) cs.

(** What comes before the [finally] block in [run]. *)
Definition run_body (M : manager) (init : init_outcome) : prog unit :=
  try_except_interrupt
    (match init_return init with
     | inr e => Raise e
     | inl false => Ret tt
     | inl true =>
         match clients M with
         | [] => say LogNoAccounts
         | _ :: _ => serve M
         end
     end)
    (say LogStopping).

(** A network on which the release of account A fails; two accounts A
    and B are set up, and an interrupt ends the wait. *)
Definition failing_stop_env : env :=
  {| rand := fun _ => 0%nat;
     send_reaction_result := fun _ _ _ _ => None;
     chat_history := fun _ _ => Exhausted;
     stop_result := fun c => if String.eqb c "A"
                             then Some (Error (RPCError 500)) else None;
     initialize_result :=
       {| init_clients := ["A"; "B"]; init_channel_id := Some (-100);
          init_return := inl true |};
     wait_result := KeyboardInterrupt |}.

(** ** Coroutines in flight *)

(** The operations at which a coroutine may be suspended: the [await]s.
    Everything between two of them runs without interruption, as the
    event loop is single-threaded. *)
Definition suspends {A : Type} (o : op A) : bool :=
  match o with
  | SendReaction _ _ _ _ => true
  | Sleep _ => true
  | Anext _ _ => true
  | StopClient _ => true
  | InitializeClients => true
  | WaitForever => true
  | _ => false
  end.

(** Run on to the next suspension point. *)
Fixpoint advance (E : env) {R : Type} (p : prog R) (w : world)
  : prog R * world * list event :=
  match p with
  | Vis o k =>
      if suspends o then (p, w, [])
      else
        let '(a, w1, t1) := perform E o w in
        let '(p', w2, t2) := advance E (k a) w1 in
        (p', w2, t1 ++ t2)
  | _ => (p, w, [])
  end.

(** The event loop resumes a coroutine: the operation it stands at
    completes, and the coroutine runs on to its next suspension point. *)
Definition resume (E : env) {R : Type} (p : prog R) (w : world)
  : prog R * world * list event :=
  match p with
  | Vis o k =>
      let '(a, w1, t1) := perform E o w in
      let '(p', w2, t2) := advance E (k a) w1 in
      (p', w2, t1 ++ t2)
  | _ => (p, w, [])
  end.

(** Who acts: the coroutine of [run], or the [i]-th invocation of a
    message handler. *)
Inductive actor :=
| Main
| Handler (i : nat).

(** An invocation of [message_handler]: the client it was registered on,
    the id of the message, and what is left of its coroutine. *)
Record task := {
  task_client : client;
  task_message : Z;
  task_prog : prog unit
}.

Record system := {
  shared : world;
  main : prog unit;
  tasks : list task;
  journal : list (actor * event)
}.

(** What the event loop can do next: resume [run], resume an invocation,
    or take in a new message of the channel seen by client [c]. *)
Inductive step :=
| RunMain
| RunTask (i : nat)
| Deliver (c : client) (message_id : Z).

Definition tag (a : actor) (t : list event) : list (actor * event) :=
  map (pair a) t.

Definition new_task (M : manager) (c : client) (message_id : Z) : task :=
  {| task_client := c; task_message := message_id;
     task_prog := handle_new_message M c message_id |}.

(** A new message reaches every handler registered on the client that
    sees it; a client without handler drops it. *)
Definition spawned (M : manager) (c : client) (message_id : Z) (w : world)
  : list task :=
  map (fun _ => new_task M c message_id)
      (filter (fun c' => c' = c) (handlers w)).

Definition sys_step (E : env) (M : manager) (s : system) (st : step) : system :=
  match st with
  | RunMain =>
      let '(p', w', t) := resume E (main s) (shared s) in
      {| shared := w'; main := p'; tasks := tasks s;
         journal := journal s ++ tag Main t |}
  | RunTask i =>
      match tasks s !! i with
      | None => s
      | Some tk =>
          let '(p', w', t) := resume E (task_prog tk) (shared s) in
          {| shared := w'; main := main s;
             tasks := <[ i := {| task_client := task_client tk;
                                 task_message := task_message tk;
                                 task_prog := p' |} ]> (tasks s);
             journal := journal s ++ tag (Handler i) t |}
      end
  | Deliver c m =>
      {| shared := shared s; main := main s;
         tasks := tasks s ++ spawned M c m (shared s);
         journal := journal s |}
  end.

Definition run_schedule (E : env) (M : manager) (sched : list step) (s : system)
  : system :=
  fold_left (sys_step E M) sched s.

(** The system when the process starts. *)
Definition boot (p : prog unit) (w : world) : system :=
  {| shared := w; main := p; tasks := []; journal := [] |}.

(** Invocation [i] has done something besides its initial jitter. *)
Definition worked (s : system) (i : nat) : Prop :=
  exists ev, (Handler i, ev) ∈ journal s /\ ev <> EvSleep (Uniform 1 3).

Definition marked (J : list (actor * event)) (i : nat) (m : Z) : Prop :=
  (Handler i, EvMark m) ∈ J.

(** ** The ledger under concurrent invocations *)

Definition is_mark (ev : event) : bool :=
  match ev with
  | EvMark _ => true
  | _ => false
  end.

Definition fresh_task (M : manager) (J : list (actor * event)) (i : nat)
    (tk : task) : Prop :=
  task_prog tk = handle_new_message M (task_client tk) (task_message tk)
  /\ forall ev, (Handler i, ev) ∉ J.

Definition skipped_task (J : list (actor * event)) (i : nat) (tk : task) : Prop :=
  task_prog tk = Ret tt
  /\ forall ev, (Handler i, ev) ∈ J -> ev = EvSleep (Uniform 1 3).

Definition working_task (J : list (actor * event)) (i : nat) (tk : task) : Prop :=
  uses (@sending) (task_prog tk)
  /\ forall m, marked J i m <-> m = task_message tk.

Definition task_status (M : manager) (J : list (actor * event)) (i : nat)
    (tk : task) : Prop :=
  fresh_task M J i tk \/ skipped_task J i tk \/ working_task J i tk.

(** What holds of the invocations and the set at every moment. *)
Record ledger_inv (M : manager) (s : system) : Prop := {
  inv_tasks : forall i tk, tasks s !! i = Some tk ->
    task_status M (journal s) i tk;
  inv_bound : forall i ev, (Handler i, ev) ∈ journal s -> (i < length (tasks s))%nat;
  inv_marked : forall i m, marked (journal s) i m ->
    m ∈ processed_messages (shared s);
  inv_unique : forall i j m,
    marked (journal s) i m -> marked (journal s) j m -> i = j
}.

(** Two accounts A and B, a network that accepts everything. *)
Definition two_accounts_env : env :=
  {| rand := fun _ => 0%nat;
     send_reaction_result := fun _ _ _ _ => None;
     chat_history := fun _ _ => Exhausted;
     stop_result := fun _ => None;
     initialize_result :=
       {| init_clients := ["A"; "B"]; init_channel_id := Some (-100);
          init_return := inl true |};
     wait_result := KeyboardInterrupt |}.

(** [run] goes through the (empty) backlog and registers its handlers;
    message 101 is then seen by both accounts, and the two invocations are
    resumed in turn. *)
Definition same_message_twice : list step :=
  [RunMain; RunMain; Deliver "A" 101; Deliver "B" 101;
   RunTask 0; RunTask 1; RunTask 0].

(** ** The backlog pass comes first *)

(** What an operation means for the order of the phases: it prints the
    closing line of the backlog pass, it registers a handler, or
    neither. *)
Inductive phase_mark :=
| Finishes
| Registers
| Neither.

Definition phase_of {A : Type} (o : op A) : phase_mark :=
  match o with
  | Say LogFinishedOld => Finishes
  | OnMessage _ _ => Registers
  | _ => Neither
  end.

(** [guarded p]: [p] registers no handler before it has printed the
    closing line of the backlog pass. *)
Fixpoint guarded {R : Type} (p : prog R) : Prop :=
  match p with
  | Vis o k =>
      match phase_of o with
      | Finishes => True
      | Registers => False
      | Neither => forall a, guarded (k a)
      end
  | _ => True
  end.

(** [finishing p]: moreover [p] does not return before it has printed
    that line. *)
Fixpoint finishing {R : Type} (p : prog R) : Prop :=
  match p with
  | Ret _ => False
  | Raise _ => True
  | Vis o k =>
      match phase_of o with
      | Finishes => True
      | Registers => False
      | Neither => forall a, finishing (k a)
      end
  end.

Definition is_finished (x : actor * event) : bool :=
  match x with
  | (Main, EvPrint LogFinishedOld) => true
  | _ => false
  end.

(** The events of the live phase: a handler is registered, or an
    invocation of a handler does something. *)
Definition is_live (x : actor * event) : bool :=
  match x with
  | (Handler _, _) => true
  | (Main, ev) => is_register ev
  end.

(** Every live event of the journal comes after the closing line of the
    backlog pass; [seen] tells whether the line was printed before the
    journal starts. *)
Fixpoint ordered_from (seen : bool) (J : list (actor * event)) : Prop :=
  match J with
  | [] => True
  | x :: J' =>
      (is_live x = true -> seen = true)
      /\ ordered_from (seen || is_finished x) J'
  end.

Definition finished (J : list (actor * event)) : bool := existsb is_finished J.

Record backlog_inv (s : system) : Prop := {
  inv_ordered : ordered_from false (journal s);
  inv_phase :
    finished (journal s) = true
    \/ (guarded (main s) /\ handlers (shared s) = [] /\ tasks s = [])
}.

Definition closes (ev : event) : bool :=
  match ev with
  | EvPrint LogFinishedOld => true
  | _ => false
  end.

(** An event of the backlog phase: no registration, not the closing
    line. *)
Definition early (ev : event) : Prop :=
  is_register ev = false /\ closes ev = false.

(** What one stretch of a guarded program can be: it stays in the
    backlog phase, or it prints the closing line before any
    registration. *)
Definition phase_step (w : world) {R : Type} (p' : prog R) (w' : world)
    (t : list event) : Prop :=
  (Forall early t /\ handlers w' = handlers w /\ guarded p')
  \/ exists t1 t2, t = t1 ++ EvPrint LogFinishedOld :: t2 /\ Forall early t1.

(** ** Account bootstrap: [get_channel_id] and [initialize_clients] *)

(** [self.channel], the value of the configuration under the key
    [channel]: a string, or anything else. *)
Inductive channel_value :=
| ChanStr (s : string)
| ChanNonStr.

(** What [input()] gives: a line, or an exception. *)
Inductive input_outcome :=
| InputLine (s : string)
| InputFails (e : exn).

(** What the bootstrap depends on: the configured channel and what
    [int(self.channel)] makes of it, the file system ([os.makedirs],
    [os.path.exists], [os.listdir]), the logins ([client.start], by the
    number of earlier logins and the session path), the lookup of a chat,
    the lines typed at the prompt, and the error [input()] raises once
    they are used up. *)
Record bootstrap := {
  channel : channel_value;
  int_of_channel : Z + error;
  makedirs_result : option exn;
  sessions_exists : bool;
  listdir_result : list string + exn;
  start_result : nat -> client -> option exn;
  get_chat_result : client -> string -> Z + exn;
  answers : list input_outcome;
  end_of_input : error
}.

(** The lines the bootstrap prints. *)
Inductive boot_log :=
| BLogResolveError (e : error)
| BLogLoaded (session_name : string)
| BLogFailedResolve
| BLogNoAccounts
| BLogAdded (next_num : nat)
| BLogFailedAdd (e : error)
| BLogTotal (n : nat).

(** What the bootstrap does, in order. *)
Inductive boot_event :=
| BMakedirs (failure : option exn)
| BListdir (failure : option exn)
| BStart (c : client) (failure : option exn)
| BGetChat (c : client) (handle : string) (failure : option exn)
| BChannel (c : client) (resolved : option Z)
| BInput (r : input_outcome)
| BPrint (l : boot_log).

(** [self.clients], [self.channel_id], the number of logins made and the
    lines not yet read. *)
Record boot_state := {
  bs_clients : list client;
  bs_channel_id : option Z;
  bs_starts : nat;
  bs_answers : list input_outcome
}.

(** A step of the bootstrap: from a state to an outcome, a state and
    what was done. *)
Definition setup (R : Type) : Type :=
  boot_state -> result R * boot_state * list boot_event.

Definition bret {R : Type} (r : R) : setup R := fun s => (Normal r, s, []).

Definition braise {R : Type} (e : exn) : setup R := fun s => (Raised e, s, []).

Definition bbind {R S : Type} (p : setup R) (f : R -> setup S) : setup S :=
  fun s =>
    match p s with
    | (Normal r, s1, t1) => let '(r2, s2, t2) := f r s1 in (r2, s2, t1 ++ t2)
    | (Raised e, s1, t1) => (Raised e, s1, t1)
    end.

Notation "x <~ p ;; q" := (bbind p (fun x => q))
  (at level 100, p at next level, right associativity).
Notation "p ;;; q" := (bbind p (fun _ => q))
  (at level 100, right associativity).

Definition bprint (l : boot_log) : setup unit :=
  fun s => (Normal tt, s, [BPrint l]).

(** [try: p  except Exception as e: h e] *)
Definition btry_except {R : Type} (p : setup R) (h : error -> setup R) : setup R :=
  fun s =>
    match p s with
    | (Raised (Error e), s1, t1) =>
        let '(r2, s2, t2) := h e s1 in (r2, s2, t1 ++ t2)
    | x => x
    end.

(** [try: p  except KeyboardInterrupt: h] *)
Definition btry_interrupt {R : Type} (p : setup R) (h : setup R) : setup R :=
  fun s =>
    match p s with
    | (Raised KeyboardInterrupt, s1, t1) =>
        let '(r2, s2, t2) := h s1 in (r2, s2, t1 ++ t2)
    | x => x
    end.

(** [await client.get_chat(self.channel)], then [chat.id]. *)
Definition get_chat (B : bootstrap) (c : client) (handle : string) : setup Z :=
  fun s =>
    match get_chat_result B c handle with
    | inl chat_id => (Normal chat_id, s, [BGetChat c handle None])
    | inr e => (Raised e, s, [BGetChat c handle (Some e)])
    end.

(** [int(self.channel)] *)
Definition int_channel (B : bootstrap) : setup Z :=
  match int_of_channel B with
  | inl z => bret z
  | inr e => braise (Error e)
  end.

(** Lines 24-32: [get_channel_id]. *)
Definition get_channel_id (B : bootstrap) (c : client) : setup (option Z) :=
  btry_except
    (match channel B with
     | ChanStr s =>
         if String.prefix "@" s
         then chat_id <~ get_chat B c s ;; bret (Some chat_id)
         else z <~ int_channel B ;; bret (Some z)
     | ChanNonStr => z <~ int_channel B ;; bret (Some z)
     end)
    (fun e => bprint (BLogResolveError e) ;;; bret None).

(** [s.endswith(suffix)] *)
Definition endswith (s suffix : string) : bool :=
  (String.length suffix <=? String.length s)%nat
  && String.eqb (substring (String.length s - String.length suffix)
                           (String.length suffix) s) suffix.

(** [session_file[:-8]] *)
Definition session_name_of (session_file : string) : string :=
  substring 0 (String.length session_file - 8) session_file.

(** [Client(f"sessions/{session_name}", ...)]: a client is known by its
    session path. *)
Definition session_client (session_name : string) : client :=
  ("sessions/" ++ session_name)%string.

Definition lower_ascii (a : Ascii.ascii) : Ascii.ascii :=
  let n := Ascii.nat_of_ascii a in
  if ((65 <=? n) && (n <=? 90))%nat then Ascii.ascii_of_nat (n + 32) else a.

(** [s.lower()], on the letters A to Z.  (Python also lowers letters
    outside ASCII; none of them becomes a [y].) *)
Fixpoint lower (s : string) : string :=
  match s with
  | EmptyString => EmptyString
  | String a s' => String (lower_ascii a) (lower s')
  end.

(** [await client.start()] then [self.clients.append(client)]. *)
Definition start_and_append (B : bootstrap) (c : client) : setup unit :=
  fun s =>
    match start_result B (bs_starts s) c with
    | Some e =>
        (Raised e,
         {| bs_clients := bs_clients s; bs_channel_id := bs_channel_id s;
            bs_starts := S (bs_starts s); bs_answers := bs_answers s |},
         [BStart c (Some e)])
    | None =>
        (Normal tt,
         {| bs_clients := bs_clients s ++ [c]; bs_channel_id := bs_channel_id s;
            bs_starts := S (bs_starts s); bs_answers := bs_answers s |},
         [BStart c None])
    end.

(** [self.channel_id = await self.get_channel_id(client)] *)
Definition resolve_channel (B : bootstrap) (c : client) : setup (option Z) :=
  fun s =>
    match get_channel_id B c s with
    | (Normal r, s1, t1) =>
        (Normal r,
         {| bs_clients := bs_clients s1; bs_channel_id := r;
            bs_starts := bs_starts s1; bs_answers := bs_answers s1 |},
         t1 ++ [BChannel c r])
    | x => x
    end.

(** How the body of a loop ends: it goes on, it breaks out of the loop,
    or it returns from the function. *)
Inductive control :=
| Continue
| Break
| Return (b : bool).

(** Lines 50-54 and 77-80: [if self.channel_id is None: ...]; the first
    loop prints a line before it returns, the second does not. *)
Definition ensure_channel (B : bootstrap) (c : client) (announce : bool)
  : setup control :=
  fun s =>
    match bs_channel_id s with
    | Some _ => (Normal Continue, s, [])
    | None =>
        (r <~ resolve_channel B c ;;
         match r with
         | Some _ => bret Continue
         | None =>
             (if announce then bprint BLogFailedResolve else bret tt) ;;;
             bret (Return false)
         end) s
    end.

(** Lines 39-54: the body of [for session_file in os.listdir('sessions')]. *)
Definition load_session (B : bootstrap) (session_file : string) : setup control :=
  if endswith session_file ".session" then
    let session_name := session_name_of session_file in
    let c := session_client session_name in
    start_and_append B c ;;;
    bprint (BLogLoaded session_name) ;;;
    ensure_channel B c true
  else bret Continue.

(** Lines 38-54: the loop over the session files. *)
Fixpoint load_sessions (B : bootstrap) (files : list string) : setup control :=
  match files with
  | [] => bret Continue
  | session_file :: files' =>
      ctl <~ load_session B session_file ;;
      match ctl with
      | Continue => load_sessions B files'
      | other => bret other
      end
  end.

(** [input(...)]: the next line typed, or the end of the input. *)
Definition input (B : bootstrap) : setup string :=
  fun s =>
    match bs_answers s with
    | [] => (Raised (Error (end_of_input B)), s,
             [BInput (InputFails (Error (end_of_input B)))])
    | r :: rest =>
        let s' := {| bs_clients := bs_clients s; bs_channel_id := bs_channel_id s;
                     bs_starts := bs_starts s; bs_answers := rest |} in
        match r with
        | InputLine line => (Normal line, s', [BInput r])
        | InputFails e => (Raised e, s', [BInput r])
        end
    end.

(** Lines 58-80: the body of the [try] in the [while True] loop. *)
Definition add_account_body (B : bootstrap) : setup control :=
  fun s =>
    (add_account <~
       (match bs_clients s with
        | [] => bprint BLogNoAccounts ;;; bret "y"%string
        | _ :: _ => line <~ input B ;; bret (lower line)
        end) ;;
     if negb (String.eqb add_account "y") then bret Break
     else
       fun s1 =>
         let next_num := S (length (bs_clients s1)) in
         let c := session_client ("account_" ++ pretty next_num)%string in
         (start_and_append B c ;;;
          bprint (BLogAdded next_num) ;;;
          ensure_channel B c false) s1) s.

(** Lines 57-86: one turn of the loop, with its two handlers. *)
Definition add_account_turn (B : bootstrap) : setup control :=
  btry_except
    (btry_interrupt (add_account_body B) (bret Break))
    (fun e => bprint (BLogFailedAdd e) ;;; bret Break).

(** Lines 56-86: [while True].  Every turn but the first reads a line or
    ends the loop, so [S (S (length answers))] turns are enough
    ([add_accounts_fuel]); [None] is what is left when the fuel runs
    out. *)
Fixpoint add_accounts (B : bootstrap) (fuel : nat) : setup (option control) :=
  match fuel with
  | O => bret None
  | S fuel' =>
      ctl <~ add_account_turn B ;;
      match ctl with
      | Continue => add_accounts B fuel'
      | other => bret (Some other)
      end
  end.

(** Lines 34-89: [initialize_clients]. *)
Definition initialize_clients_from (B : bootstrap) : setup (option bool) :=
  (fun s => match makedirs_result B with
            | Some e => (Raised e, s, [BMakedirs (Some e)])
            | None => (Normal tt, s, [BMakedirs None])
            end) ;;;
  ctl <~ (if sessions_exists B then
            files <~ (fun s => match listdir_result B with
                               | inl files => (Normal files, s, [BListdir None])
                               | inr e => (Raised e, s, [BListdir (Some e)])
                               end) ;;
            load_sessions B files
          else bret Continue) ;;
  match ctl with
  | Return b => bret (Some b)
  | _ =>
      fun s =>
        (exit <~ add_accounts B (S (S (length (bs_answers s)))) ;;
         match exit with
         | None => bret None
         | Some (Return b) => bret (Some b)
         | Some _ =>
             fun s1 => (bprint (BLogTotal (length (bs_clients s1))) ;;;
                        bret (Some true)) s1
         end) s
  end.

(** The manager as [__init__] leaves it: no client, no channel id. *)
Definition boot_start (B : bootstrap) : boot_state :=
  {| bs_clients := []; bs_channel_id := None; bs_starts := 0;
     bs_answers := answers B |}.

Definition initialize_clients (B : bootstrap)
  : result (option bool) * boot_state * list boot_event :=
  initialize_clients_from B (boot_start B).

(** What [run] sees of the bootstrap: the answer of the operation
    [InitializeClients].  A loop that ran out of fuel has no outcome. *)
Definition init_outcome_of (B : bootstrap) : option init_outcome :=
  let '(r, s, _) := initialize_clients B in
  match r with
  | Normal None => None
  | Normal (Some b) =>
      Some {| init_clients := bs_clients s; init_channel_id := bs_channel_id s;
              init_return := inl b |}
  | Raised e =>
      Some {| init_clients := bs_clients s; init_channel_id := bs_channel_id s;
              init_return := inr e |}
  end.

(** The surroundings of [run] when the bootstrap ended with [init]. *)
Definition with_init (init : init_outcome) (E : env) : env :=
  {| rand := rand E;
     send_reaction_result := send_reaction_result E;
     chat_history := chat_history E;
     stop_result := stop_result E;
     initialize_result := init;
     wait_result := wait_result E |}.

(** ** Reasoning about the bootstrap *)

(** [triple P p Q]: started in a state and after a trace that satisfy
    [P], the step [p] ends with an outcome, a state and a trace (the old
    one, extended) that satisfy [Q]. *)
Definition triple {R : Type} (P : boot_state -> list boot_event -> Prop)
    (p : setup R) (Q : result R -> boot_state -> list boot_event -> Prop) : Prop :=
  forall s T, P s T -> let '(r, s', t) := p s in Q r s' (T ++ t).

(** The sessions logged in, in order. *)
Definition started (T : list boot_event) : list client :=
  omap (fun ev => match ev with
                  | BStart c None => Some c
                  | _ => None
                  end) T.

(** The logins attempted, in order. *)
Definition logins (T : list boot_event) : list client :=
  omap (fun ev => match ev with
                  | BStart c _ => Some c
                  | _ => None
                  end) T.

(** The exceptions raised by a login or at the prompt, in order. *)
Definition failures (T : list boot_event) : list exn :=
  omap (fun ev => match ev with
                  | BStart _ (Some e) => Some e
                  | BInput (InputFails e) => Some e
                  | _ => None
                  end) T.

(** The resolutions of the channel, in order. *)
Definition channels (T : list boot_event) : list (client * option Z) :=
  omap (fun ev => match ev with
                  | BChannel c r => Some (c, r)
                  | _ => None
                  end) T.

(** Between two sessions: the sessions kept are those logged in, and
    either no session is open and the channel was not looked for, or the
    channel was resolved, once, by the first session. *)
Definition boot_inv (s : boot_state) (T : list boot_event) : Prop :=
  bs_clients s = started T /\
  match bs_channel_id s with
  | None => bs_clients s = [] /\ channels T = []
  | Some z => exists c rest, bs_clients s = c :: rest /\ channels T = [(c, Some z)]
  end.

(** After a session [c] was logged in and before the channel is looked
    at. *)
Definition boot_mid (c : client) (s : boot_state) (T : list boot_event) : Prop :=
  bs_clients s = started T /\
  match bs_channel_id s with
  | None => bs_clients s = [c] /\ channels T = []
  | Some z => exists c0 rest, bs_clients s = c0 :: rest /\ channels T = [(c0, Some z)]
  end.

(** After a resolution that failed: one session is open, the one that
    tried. *)
Definition boot_failed (s : boot_state) (T : list boot_event) : Prop :=
  exists c, bs_clients s = [c] /\ started T = [c]
            /\ bs_channel_id s = None /\ channels T = [(c, None)].

(** After an exception [e], not an [Exception], raised while the first
    session was looking the chat up: the session is open and the channel
    is not resolved. *)
Definition boot_cut (e : exn) (s : boot_state) (T : list boot_event) : Prop :=
  (forall x, e <> Error x)
  /\ exists c h, bs_clients s = [c] /\ started T = [c]
                 /\ bs_channel_id s = None /\ channels T = []
                 /\ BGetChat c h (Some e) ∈ T.

(** After an exception [e]. *)
Definition boot_raised (e : exn) (s : boot_state) (T : list boot_event) : Prop :=
  boot_inv s T \/ boot_cut e s T.

(** What holds when the body of a loop ends. *)
Definition boot_post (r : result control) (s : boot_state) (T : list boot_event)
  : Prop :=
  match r with
  | Normal (Return false) => boot_failed s T
  | Normal (Return true) => False
  | Normal Continue => boot_inv s T
  | Normal Break => False
  | Raised e => boot_raised e s T
  end.

(** What holds when the [try] body of the [while True] loop ends. *)
Definition boot_body (r : result control) (s : boot_state) (T : list boot_event)
  : Prop :=
  match r with
  | Normal Break => boot_inv s T
  | _ => boot_post r s T
  end.

(** What holds when a turn of the [while True] loop ends. *)
Definition boot_turn (r : result control) (s : boot_state) (T : list boot_event)
  : Prop :=
  match r with
  | Normal Break => boot_raised KeyboardInterrupt s T
  | Normal ctl => boot_post (Normal ctl) s T
  | Raised e => e = CancelledError /\ boot_raised e s T
  end.

(** What holds when the [while True] loop ends. *)
Definition boot_loop (r : result (option control)) (s : boot_state)
    (T : list boot_event) : Prop :=
  match r with
  | Normal None => boot_inv s T
  | Normal (Some Continue) => False
  | Normal (Some ctl) => boot_turn (Normal ctl) s T
  | Raised e => e = CancelledError /\ boot_raised e s T
  end.

(** What holds when [initialize_clients] ends. *)
Definition boot_end (r : result (option bool)) (s : boot_state)
    (T : list boot_event) : Prop :=
  match r with
  | Normal (Some true) => boot_raised KeyboardInterrupt s T
  | Normal (Some false) => boot_failed s T
  | Normal None => boot_inv s T
  | Raised e => boot_raised e s T
  end.

(** The session path of the account added as number [n]. *)
Definition account_path (n : nat) : client :=
  session_client ("account_" ++ pretty n).

(** The turns of the [while True] loop that are enough from a state: one
    for each line left to read, one for the end of the input, and one
    more when no session is open, for the turn that asks nothing. *)
Definition turns_needed (s : boot_state) : nat :=
  match bs_clients s with
  | [] => S (S (length (bs_answers s)))
  | _ :: _ => S (length (bs_answers s))
  end.

(** The session paths of the stored sessions among the entries of the
    directory, in the order of the listing. *)
Definition stored_sessions (files : list string) : list client :=
  map (fun session_file => session_client (session_name_of session_file))
      (List.filter (fun session_file => endswith session_file ".session") files).

(** The failure lines of the prompt loop printed in a trace, in order. *)
Definition failure_lines (T : list boot_event) : list error :=
  omap (fun ev => match ev with
                  | BPrint (BLogFailedAdd e) => Some e
                  | _ => None
                  end) T.

(** [ev] is a login or a prompt that raised [e]. *)
Definition failure_of (e : exn) (ev : boot_event) : Prop :=
  (exists c, ev = BStart c (Some e)) \/ ev = BInput (InputFails e).

(** Lines 35-54: the directory and the stored sessions. *)
Definition load_stored (B : bootstrap) : setup control :=
  (fun s => match makedirs_result B with
            | Some e => (Raised e, s, [BMakedirs (Some e)])
            | None => (Normal tt, s, [BMakedirs None])
            end) ;;;
  if sessions_exists B then
    files <~ (fun s => match listdir_result B with
                       | inl files => (Normal files, s, [BListdir None])
                       | inr e => (Raised e, s, [BListdir (Some e)])
                       end) ;;
    load_sessions B files
  else bret Continue.

(** Lines 56-89: the prompt loop, then the total and [return True]. *)
Definition add_accounts_and_total (B : bootstrap) : setup (option bool) :=
  fun s =>
    (exit <~ add_accounts B (S (S (length (bs_answers s)))) ;;
     match exit with
     | None => bret None
     | Some (Return b) => bret (Some b)
     | Some _ =>
         fun s1 => (bprint (BLogTotal (length (bs_clients s1))) ;;;
                    bret (Some true)) s1
     end) s.

(** A bootstrap for examples: the channel is given by its number, the
    directory holds one stored session and a file of another kind, every
    login succeeds, and the lines [lines] are typed at the prompt. *)
Definition quiet_bootstrap (lines : list string) : bootstrap :=
  {| channel := ChanStr "-1001234";
     int_of_channel := inl (-1001234);
     makedirs_result := None;
     sessions_exists := true;
     listdir_result := inl ["alice.session"; "notes.txt"];
     start_result := fun _ _ => None;
     get_chat_result := fun _ _ => inl (-1001234);
     answers := map InputLine lines;
     end_of_input := ValueError |}.

(** ** The bootstrap inside [run] *)

(** The world after handlers were registered on the clients [cs]. *)
Definition after_registering (cs : list client) (w : world) : world :=
  {| processed_messages := processed_messages w;
     draws := draws w; sends := sends w; handlers := handlers w ++ cs |}.

(** How [run] ends: the [finally] block has the last word. *)
Definition finish (E : env) (cs : list client) (r : result unit) (w : world)
    (body : list event) : result unit * world * list event :=
  (match release_failure E cs with
   | Some e => Raised e
   | None => r
   end, w, body ++ stop_events E (released E cs)).

(** A bootstrap whose channel is a name without [@], which [int] refuses. *)
Definition unresolved_bootstrap : bootstrap :=
  {| channel := ChanStr "news";
     int_of_channel := inr ValueError;
     makedirs_result := None;
     sessions_exists := true;
     listdir_result := inl ["alice.session"; "bob.session"];
     start_result := fun _ _ => None;
     get_chat_result := fun _ _ => inl (-1001234);
     answers := [];
     end_of_input := ValueError |}.

(** ** What a program aims at *)

(** [returns Q p]: whatever its operations answer, [p] returns only
    values that satisfy [Q]. *)
Fixpoint returns {R : Type} (Q : R -> Prop) (p : prog R) : Prop :=
  match p with
  | Ret r => Q r
  | Raise _ => True
  | Vis o k => forall a, returns Q (k a)
  end.

(** The operations of a dispatch of message [m] by the manager [M]:
    the set is asked and told about [m] only, and a reaction goes from a
    session of [M] to the channel of [M], for [m], with a symbol of the
    vocabulary. *)
Definition aimed (M : manager) (m : Z) {A : Type} (o : op A) : bool :=
  match o with
  | Contains m' => bool_decide (m' = m)
  | Add m' => bool_decide (m' = m)
  | SendReaction c chat m' emoji =>
      bool_decide (c ∈ clients M /\ chat = channel_id M /\ m' = m
                   /\ emoji ∈ reactions M)
  | Randbelow _ => true
  | Sleep _ => true
  | Say _ => true
  | _ => false
  end.

(** The same, read off the trace. *)
Definition on_target (M : manager) (m : Z) (ev : event) : Prop :=
  match ev with
  | EvMark m' => m' = m
  | EvSend c chat m' emoji _ =>
      c ∈ clients M /\ chat = channel_id M /\ m' = m /\ emoji ∈ reactions M
  | EvSleep _ => True
  | EvPrint _ => True
  | _ => False
  end.

(** The operations of [run] once the manager [M] is set up: whatever
    concerns a session concerns a session of [M], whatever concerns a chat
    concerns the channel of [M], and the history is asked of the first
    session, with a limit of 100. *)
Definition within (M : manager) {A : Type} (o : op A) : bool :=
  match o with
  | SendReaction c chat _ emoji =>
      bool_decide (c ∈ clients M /\ chat = channel_id M /\ emoji ∈ reactions M)
  | GetChatHistory c chat limit =>
      bool_decide (head (clients M) = Some c /\ chat = channel_id M
                   /\ limit = 100%nat)
  | OnMessage c chat => bool_decide (c ∈ clients M /\ chat = channel_id M)
  | StopClient c => bool_decide (c ∈ clients M)
  | InitializeClients => false
  | _ => true
  end.

(** The same, read off the trace. *)
Definition in_bounds (M : manager) (ev : event) : Prop :=
  match ev with
  | EvSend c chat _ emoji _ =>
      c ∈ clients M /\ chat = channel_id M /\ emoji ∈ reactions M
  | EvGetChatHistory c chat limit =>
      head (clients M) = Some c /\ chat = channel_id M /\ limit = 100%nat
  | EvOnMessage c chat => c ∈ clients M /\ chat = channel_id M
  | EvStop c _ => c ∈ clients M
  | _ => True
  end.

(** ** How much a dispatch submits *)

(** What an operation can answer: a draw below [n] is below [n]. *)
Definition can_answer {A : Type} (o : op A) : A -> Prop :=
  match o in op T return T -> Prop with
  | Randbelow n => fun j => n = O \/ (j < n)%nat
  | _ => fun _ => True
  end.

(** [at_most n Q p]: whatever its operations answer, [p] submits at
    most [n] reactions, and what it returns satisfies [Q]. *)
Fixpoint at_most (n : nat) {R : Type} (Q : R -> Prop) (p : prog R) : Prop :=
  match p with
  | Ret r => Q r
  | Raise _ => True
  | Vis o k =>
      match o with
      | SendReaction _ _ _ _ =>
          match n with
          | O => False
          | S n' => forall a, at_most n' Q (k a)
          end
      | _ => forall a, can_answer o a -> at_most n Q (k a)
      end
  end.

(** The submissions in a trace, accepted or refused. *)
Definition submissions (t : list event) : nat :=
  length (sent_emojis t).

(** ** Tactics for the case analyses of a turn *)

Ltac turn_done :=
  split_and!; try done;
  try (let e := fresh in let He := fresh in intros e He; by injection He as <-);
  try (apply list_elem_of_In; cbn; tauto).

Ltac started_done :=
  split_and!; try done; try (by left); try (by right).

(** * Properties *)

(** ** Running programs: general facts *)

Lemma exec_bind (E : env) {R S : Type} (p : prog R) (f : R -> prog S) (w : world) :
  exec E (bind p f) w =
  match exec E p w with
  | (Normal r, w1, t1) =>
      let '(r2, w2, t2) := exec E (f r) w1 in (r2, w2, t1 ++ t2)
  | (Raised e, w1, t1) => (Raised e, w1, t1)
  end.
Proof.
  revert w. induction p as [r|e|A o k IH]; intros w; simpl.
  - destruct (exec E (f r) w) as [[r2 w2] t2]. reflexivity.
  - reflexivity.
  - destruct (perform E o w) as [[a w1] t1]. rewrite IH.
    destruct (exec E (k a) w1) as [[[r|e] w2] t2].
    + destruct (exec E (f r) w2) as [[r3 w3] t3]. by rewrite app_assoc.
    + reflexivity.
Qed.

Lemma perform_processed_mono (E : env) {A : Type} (o : op A) (w : world) :
  processed_messages w ⊆ processed_messages (perform E o w).1.2.
Proof. destruct o; simpl; set_solver. Qed.

Lemma exec_processed_mono (E : env) {R : Type} (p : prog R) (w : world) :
  processed_messages w ⊆ processed_messages (world_of (exec E p w)).
Proof.
  revert w. induction p as [r|e|A o k IH]; intros w; simpl; [done|done|].
  pose proof (perform_processed_mono E o w) as Hp.
  destruct (perform E o w) as [[a w1] t1]. simpl in Hp.
  specialize (IH a w1). destruct (exec E (k a) w1) as [[r w2] t2].
  unfold world_of in *. simpl in *. set_solver.
Qed.

Lemma exec_call (E : env) {A : Type} (o : op A) (w : world) :
  exec E (call o) w =
  (Normal (perform E o w).1.1, (perform E o w).1.2, (perform E o w).2).
Proof.
  unfold call. simpl. destruct (perform E o w) as [[a w1] t1]. simpl.
  by rewrite app_nil_r.
Qed.

(** ** The deduplication ledger *)

(** A call on an id that is already in the set does nothing at all. *)
Lemma react_to_message_seen (E : env) (M : manager) (m : Z) (w : world) :
  m ∈ processed_messages w ->
  exec E (react_to_message M m) w = (Normal tt, w, []).
Proof.
  intros Hin. unfold react_to_message. simpl.
  rewrite bool_decide_eq_true_2 by done. reflexivity.
Qed.

(** A call on a new id first adds it, then goes through the clients. *)
Lemma react_to_message_new (E : env) (M : manager) (m : Z) (w : world) :
  m ∉ processed_messages w ->
  exec E (react_to_message M m) w =
  let w1 := (perform E (Add m) w).1.2 in
  let '(r, w2, t) := exec E (react_all M m) w1 in
  (r, w2, EvMark m :: t).
Proof.
  intros Hin. unfold react_to_message. simpl.
  rewrite bool_decide_eq_false_2 by done. simpl.
  by destruct (exec E (react_all M m) _) as [[r w2] t].
Qed.

(** C1. At most one dispatch per message id.  For every message id [m]
    and every behaviour of the network and of the random generator: a
    call of [react_to_message] on an id that is already in
    [processed_messages] returns at once, with no action and no change;
    a call on a new id adds it to the set before anything else (the
    first action is the addition, so it precedes every submission); after
    any call the id is in the set, so that a second call, whatever
    happened in the first and whatever the network does now, performs
    nothing; and no program ever removes an id from the set. *)
Theorem react_to_message_at_most_once (E : env) (M : manager) (m : Z) (w : world) :
  let '(r, w', t) := exec E (react_to_message M m) w in
  (m ∈ processed_messages w -> r = Normal tt /\ w' = w /\ t = [])
  /\ (m ∉ processed_messages w -> exists t', t = EvMark m :: t')
  /\ m ∈ processed_messages w'
  /\ (forall E', exec E' (react_to_message M m) w' = (Normal tt, w', []))
  /\ (forall (R : Type) (p : prog R) (w0 : world),
        processed_messages w0 ⊆ processed_messages (world_of (exec E p w0))).
Proof.
  destruct (decide (m ∈ processed_messages w)) as [Hin|Hnew].
  - rewrite react_to_message_seen by done.
    repeat split; try done.
    + intros E'. by apply react_to_message_seen.
    + intros R p w0. apply exec_processed_mono.
  - rewrite react_to_message_new by done. cbv zeta.
    pose proof (exec_processed_mono E (react_all M m) (perform E (Add m) w).1.2) as Hmono.
    destruct (exec E (react_all M m) _) as [[r w2] t].
    unfold world_of in Hmono. simpl in Hmono.
    assert (m ∈ processed_messages w2) as Hin by set_solver.
    repeat split; try done.
    + by exists t.
    + intros E'. by apply react_to_message_seen.
    + intros R p w0. apply exec_processed_mono.
Qed.

(** ** Choosing the reactions of one try *)

(** One step of the pool algorithm takes an entry out of the pool. *)
Lemma pool_step_perm {A : Type} (pool : list A) (j : nat) (x y : A) :
  pool !! j = Some x -> last pool = Some y ->
  x :: removelast (<[ j := y ]> pool) ≡ₚ pool.
Proof.
  intros Hj Hl. apply last_Some in Hl as [init ->].
  destruct (decide (j = length init)) as [->|Hne].
  - rewrite list_lookup_middle in Hj by done. injection Hj as <-.
    rewrite insert_app_r_alt by lia. rewrite Nat.sub_diag. simpl.
    rewrite removelast_last. by rewrite Permutation_cons_append.
  - assert (j < length init)%nat as Hlt.
    { apply lookup_lt_Some in Hj. rewrite length_app in Hj. simpl in Hj. lia. }
    rewrite lookup_app_l in Hj by done.
    rewrite insert_app_l by done. rewrite removelast_last.
    rewrite insert_take_drop by done.
    rewrite <- (take_drop_middle init j x Hj) at 3.
    rewrite <- Permutation_cons_append, <- !Permutation_middle.
    apply perm_swap.
Qed.

(** For a request within the pool, the pool algorithm returns that many
    entries, taken from the pool without replacement, using one draw per
    entry and nothing else. *)
Lemma sample_pool_spec (E : env) {A : Type} (k : nat) (pool : list A) (w : world) :
  (k <= length pool)%nat ->
  exists sel,
    exec E (sample_pool pool k) w =
      (Normal sel,
       {| processed_messages := processed_messages w;
          draws := (draws w + k)%nat; sends := sends w; handlers := handlers w |},
       [])
    /\ length sel = k /\ sel ⊆+ pool.
Proof.
  revert pool w. induction k as [|k IH]; intros pool w Hk.
  - exists []. simpl. rewrite Nat.add_0_r. destruct w. simpl.
    split; [done|]. split; [done|]. apply submseteq_nil_l.
  - assert (0 < length pool)%nat as Hpos by lia.
    set (j := (rand E (draws w) mod length pool)%nat).
    assert (j < length pool)%nat as Hj by (apply Nat.mod_upper_bound; lia).
    destruct (lookup_lt_is_Some_2 pool j Hj) as [x Hx].
    destruct (last pool) as [y|] eqn:Hy.
    2:{ apply last_None in Hy. subst pool. simpl in Hpos. lia. }
    pose proof (pool_step_perm pool j x y Hx Hy) as Hperm.
    set (pool' := removelast (<[ j := y ]> pool)) in *.
    assert (length pool = S (length pool')) as Hlen
      by (by rewrite <- Hperm).
    destruct (IH pool'
               {| processed_messages := processed_messages w;
                  draws := S (draws w); sends := sends w; handlers := handlers w |})
      as (rest & Hexec & Hrl & Hsub); [lia|].
    exists (x :: rest). split; [|split].
    + cbn [sample_pool]. rewrite exec_bind, exec_call. cbn [perform fst snd].
      fold j. rewrite Hx, Hy. fold pool'.
      rewrite exec_bind, Hexec. cbn.
      do 2 f_equal. f_equal. lia.
    + simpl. by rewrite Hrl.
    + rewrite <- Hperm. by apply submseteq_skip.
Qed.

Lemma submseteq_NoDup {A : Type} (l k : list A) :
  l ⊆+ k -> NoDup k -> NoDup l.
Proof.
  intros Hsub Hk. apply submseteq_Permutation in Hsub as [k' Hperm].
  rewrite Hperm in Hk. by apply NoDup_app in Hk as [? _].
Qed.

Lemma requested_range (E : env) (w : world) :
  requested E w = 1%nat \/ requested E w = 2%nat.
Proof.
  unfold requested.
  pose proof (Nat.mod_upper_bound (rand E (draws w)) 2). lia.
Qed.

(** Lines 100-101 raise [ValueError] when the requested size exceeds the
    vocabulary, and nothing has been sent or printed by then. *)
Lemma select_reactions_fails (E : env) (M : manager) (w : world) :
  (length (reactions M) < requested E w)%nat ->
  exec E (select_reactions M) w = (Raised (Error ValueError), after_draws 1 w, []).
Proof.
  intros Hlt. unfold select_reactions, randint.
  rewrite exec_bind, exec_bind, exec_call. cbn [perform fst snd exec].
  fold (requested E w). unfold sample.
  apply Nat.ltb_lt in Hlt. rewrite Hlt. cbn.
  unfold after_draws. do 2 f_equal. f_equal. lia.
Qed.

(** Otherwise they return that many entries of the vocabulary, taken
    without replacement. *)
Lemma select_reactions_succeeds (E : env) (M : manager) (w : world) :
  (requested E w <= length (reactions M))%nat ->
  exists sel,
    exec E (select_reactions M) w =
      (Normal sel, after_draws (1 + requested E w) w, [])
    /\ length sel = requested E w /\ sel ⊆+ reactions M.
Proof.
  intros Hle. unfold select_reactions, randint.
  destruct (sample_pool_spec E (requested E w) (reactions M) (after_draws 1 w) Hle)
    as (sel & Hexec & Hlen & Hsub).
  exists sel. split; [|done].
  rewrite exec_bind, exec_bind, exec_call. cbn [perform fst snd exec].
  fold (requested E w). unfold sample.
  apply Nat.leb_le in Hle. rewrite Nat.ltb_antisym, Hle. cbn [negb].
  replace {| processed_messages := processed_messages w; draws := S (draws w);
             sends := sends w; handlers := handlers w |} with (after_draws 1 w)
    by (unfold after_draws; f_equal; lia).
  rewrite Hexec. cbn. unfold after_draws. cbn. do 2 f_equal. f_equal. lia.
Qed.

(** ** Sending the chosen reactions *)

Lemma after_sends_0 (w : world) : after_sends 0 w = w.
Proof. destruct w. unfold after_sends. simpl. f_equal. lia. Qed.

Lemma after_sends_S (n : nat) (w : world) :
  after_sends n (after_sends 1 w) = after_sends (S n) w.
Proof. unfold after_sends. simpl. f_equal. lia. Qed.

Lemma exec_send_reaction (E : env) (c : client) (chat : option Z) (m : Z)
    (emoji : string) (w : world) :
  exec E (send_reaction c chat m emoji) w =
  let r := send_reaction_result E (sends w) c m emoji in
  (match r with None => Normal tt | Some e => Raised (Error e) end,
   after_sends 1 w, [EvSend c chat m emoji r]).
Proof.
  unfold send_reaction. rewrite exec_bind, exec_call. cbn [perform fst snd].
  replace {| processed_messages := processed_messages w; draws := draws w;
             sends := S (sends w); handlers := handlers w |} with (after_sends 1 w)
    by (unfold after_sends; f_equal; lia).
  by destruct (send_reaction_result E (sends w) c m emoji).
Qed.

Lemma exec_sleep (E : env) (d : duration) (w : world) :
  exec E (sleep d) w = (Normal tt, w, [EvSleep d]).
Proof. reflexivity. Qed.

Lemma exec_say (E : env) (l : log) (w : world) :
  exec E (say l) w = (Normal tt, w, [EvPrint l]).
Proof. reflexivity. Qed.

Lemma send_selected_cons (M : manager) (c : client) (m : Z)
    (emoji : string) (sel : list string) :
  send_selected M c m (emoji :: sel) =
  ((send_reaction c (channel_id M) m emoji ;; sleep (Uniform 2 4)) ;;
   send_selected M c m sel).
Proof. reflexivity. Qed.

(** Lines 103-109 on a list [sel]: some prefix of [sel] is accepted, each
    accepted reaction followed by a sleep of 2 to 4 seconds; either that
    prefix is all of [sel] and the loop ends normally, or the next
    submission fails, nothing follows it, and its error is raised. *)
Lemma send_selected_spec (E : env) (M : manager) (c : client) (m : Z)
    (sel : list string) (w : world) :
  exists n, (n <= length sel)%nat /\
    ((n = length sel /\
      exec E (send_selected M c m sel) w =
        (Normal tt, after_sends n w, paced M c m sel))
     \/
     (exists emoji err,
        sel !! n = Some emoji /\
        exec E (send_selected M c m sel) w =
          (Raised (Error err), after_sends (S n) w,
           paced M c m (take n sel)
             ++ [EvSend c (channel_id M) m emoji (Some err)]))).
Proof.
  revert w. induction sel as [|emoji sel IH]; intros w.
  - exists 0%nat. split; [done|]. left. split; [done|].
    simpl. by rewrite after_sends_0.
  - rewrite send_selected_cons, !exec_bind, exec_send_reaction. cbv zeta.
    destruct (send_reaction_result E (sends w) c m emoji) as [err|] eqn:Hr.
    + exists 0%nat. split; [simpl; lia|]. right. exists emoji, err.
      split; [done|]. reflexivity.
    + rewrite exec_sleep.
      destruct (IH (after_sends 1 w)) as (n & Hn & [[-> Hexec]|(e' & err & Hl & Hexec)]).
      * exists (S (length sel)). split; [done|]. left. split; [done|].
        rewrite Hexec. by rewrite after_sends_S.
      * exists (S n). split; [simpl; lia|]. right. exists e', err.
        split; [done|]. rewrite Hexec. by rewrite after_sends_S.
Qed.

Lemma sent_emojis_app (t1 t2 : list event) :
  sent_emojis (t1 ++ t2) = sent_emojis t1 ++ sent_emojis t2.
Proof. apply omap_app. Qed.

Lemma sent_emojis_paced (M : manager) (c : client) (m : Z) (sel : list string) :
  sent_emojis (paced M c m sel) = sel.
Proof. induction sel as [|e sel IH]; simpl; [done|]. by f_equal. Qed.

(** C2, as stated, fails.  With the vocabulary [+1; +1] and a draw of 2
    the chosen reactions are [+1; +1], the same symbol twice, and both are
    submitted; with the vocabulary [+1] and a draw of 2 the try chooses no
    subset at all, it raises [ValueError]. *)
Lemma select_reactions_not_as_claimed :
  let M := manager_of ["A"] ["+1"; "+1"] in
  outcome_of (exec (quiet_env 1) (select_reactions M) fresh_world)
    = Normal ["+1"; "+1"]
  /\ ~ subset_as_claimed (reactions M) ["+1"; "+1"]
  /\ sent_emojis (trace_of (exec (quiet_env 1) (attempt M "A" 101) fresh_world))
    = ["+1"; "+1"]
  /\ exec (quiet_env 1) (attempt (manager_of ["A"] ["+1"]) "A" 101) fresh_world
    = (Raised (Error ValueError), after_draws 1 fresh_world, []).
Proof.
  cbv zeta. split; [reflexivity|]. split; [|split; reflexivity].
  intros (_ & Hnd & _). apply NoDup_cons in Hnd as [Hnotin _].
  apply Hnotin. by left.
Qed.

(** C2, amended.  In every try, of any call, for any session: the size
    asked for is 1 or 2; when it exceeds the vocabulary the try raises
    [ValueError] before anything is submitted; otherwise the chosen
    reactions are that many entries of the vocabulary taken without
    replacement (a sub-multiset of it: distinct positions, hence distinct
    symbols when the vocabulary repeats none), their number lies between 1
    and min(2, |vocabulary|), what is submitted in the try is a prefix of
    them in their order, and all of them when the try ends normally. *)
Theorem attempt_reaction_subset (E : env) (M : manager) (c : client) (m : Z)
    (w : world) :
  let k := requested E w in
  let '(r, w', t) := exec E (attempt M c m) w in
  (k = 1 \/ k = 2)%nat /\
  if decide (k <= length (reactions M))%nat then
    exists sel,
      outcome_of (exec E (select_reactions M) w) = Normal sel
      /\ length sel = k
      /\ (1 <= length sel <= Nat.min 2 (length (reactions M)))%nat
      /\ sel ⊆+ reactions M
      /\ (forall x, x ∈ sel -> x ∈ reactions M)
      /\ (NoDup (reactions M) -> NoDup sel)
      /\ sent_emojis t `prefix_of` sel
      /\ (r = Normal tt -> sent_emojis t = sel)
  else
    r = Raised (Error ValueError) /\ w' = after_draws 1 w /\ t = [].
Proof.
  cbv zeta. pose proof (requested_range E w) as Hk.
  unfold attempt. rewrite exec_bind.
  destruct (decide (requested E w <= length (reactions M))%nat) as [Hle|Hgt].
  - destruct (select_reactions_succeeds E M w Hle) as (sel & Hsel & Hlen & Hsub).
    rewrite Hsel.
    assert (1 <= length sel <= Nat.min 2 (length (reactions M)))%nat as Hrange by lia.
    assert (forall x, x ∈ sel -> x ∈ reactions M) as Hmem
      by (intros x Hx; by eapply elem_of_submseteq).
    assert (NoDup (reactions M) -> NoDup sel) as Hnd by (by apply submseteq_NoDup).
    destruct (send_selected_spec E M c m sel (after_draws (1 + requested E w) w))
      as (n & Hn & [[-> Hexec]|(e & err & Hl & Hexec)]); rewrite Hexec.
    + split; [done|]. exists sel. unfold outcome_of. cbn [fst snd app].
      rewrite sent_emojis_paced. done.
    + split; [done|]. exists sel. unfold outcome_of. cbn [fst snd app].
      rewrite sent_emojis_app, sent_emojis_paced.
      change (sent_emojis [EvSend c (channel_id M) m e (Some err)]) with [e].
      rewrite <- (take_S_r sel n e Hl).
      split_and!; try done; try lia. apply prefix_take.
  - rewrite select_reactions_fails by lia. done.
Qed.

(** ** Pacing inside a try *)

Lemma pacing_sleeps_app (t1 t2 : list event) :
  pacing_sleeps (t1 ++ t2) = (pacing_sleeps t1 + pacing_sleeps t2)%nat.
Proof. unfold pacing_sleeps. by rewrite filter_app, length_app. Qed.

Lemma pacing_sleeps_paced (M : manager) (c : client) (m : Z) (sel : list string) :
  pacing_sleeps (paced M c m sel) = length sel.
Proof.
  induction sel as [|e sel IH]; [done|].
  change (paced M c m (e :: sel))
    with ([EvSend c (channel_id M) m e None; EvSleep (Uniform 2 4)] ++ paced M c m sel).
  rewrite pacing_sleeps_app, IH. reflexivity.
Qed.

(** C7, as stated, fails.  A try that chooses the single reaction [+1]
    submits it and then sleeps 2 to 4 seconds: a subset of size 1 does
    involve a pacing sleep, and that sleep follows the final reaction. *)
Lemma attempt_sleeps_after_last_reaction :
  exec (quiet_env 0) (attempt (manager_of ["A"] ["+1"]) "A" 101) fresh_world
  = (Normal tt, after_sends 1 (after_draws 2 fresh_world),
     [EvSend "A" (Some (-100)) 101 "+1" None; EvSleep (Uniform 2 4)])
  /\ pacing_sleeps
       (trace_of (exec (quiet_env 0) (attempt (manager_of ["A"] ["+1"]) "A" 101)
                       fresh_world)) = 1%nat.
Proof. split; reflexivity. Qed.

(** C7, amended.  Within a try the chosen reactions are submitted one
    after the other in their order, and a sleep of 2 to 4 seconds follows
    every accepted submission, the last one of the subset included (so a
    subset of size 1 that is accepted involves one such sleep).  The first
    submission that fails ends the try: no sleep and no submission follows
    it, and its error is raised.  There are as many pacing sleeps as
    accepted submissions. *)
Theorem send_selected_pacing (E : env) (M : manager) (c : client) (m : Z)
    (sel : list string) (w : world) :
  let '(r, w', t) := exec E (send_selected M c m sel) w in
  exists n tail,
    (n <= length sel)%nat
    /\ t = paced M c m (take n sel) ++ tail
    /\ pacing_sleeps t = n
    /\ match r with
       | Normal _ => n = length sel /\ tail = []
       | Raised e =>
           exists emoji err,
             sel !! n = Some emoji /\ e = Error err
             /\ tail = [EvSend c (channel_id M) m emoji (Some err)]
       end.
Proof.
  destruct (send_selected_spec E M c m sel w)
    as (n & Hn & [[-> Hexec]|(e & err & Hl & Hexec)]); rewrite Hexec.
  - exists (length sel), []. rewrite firstn_all, app_nil_r.
    split_and!; try done. apply pacing_sleeps_paced.
  - exists n, [EvSend c (channel_id M) m e (Some err)].
    split_and!; try done.
    + rewrite pacing_sleeps_app, pacing_sleeps_paced, length_take.
      change (pacing_sleeps [EvSend c (channel_id M) m e (Some err)]) with 0%nat. lia.
    + by exists e, err.
Qed.

(** ** The retry loop *)

Lemma exec_try_except (E : env) {R : Type} (p : prog R) (h : error -> prog R)
    (w : world) :
  exec E (try_except p h) w =
  match exec E p w with
  | (Raised (Error e), w1, t1) =>
      let '(r2, w2, t2) := exec E (h e) w1 in (r2, w2, t1 ++ t2)
  | x => x
  end.
Proof.
  revert w. induction p as [r|e|A o k IH]; intros w; simpl.
  - reflexivity.
  - destruct e as [e| |]; try reflexivity.
    by destruct (exec E (h e) w) as [[r2 w2] t2].
  - destruct (perform E o w) as [[a w1] t1]. rewrite IH.
    destruct (exec E (k a) w1) as [[[r|[e| |]] w2] t2]; try reflexivity.
    destruct (exec E (h e) w2) as [[r3 w3] t3]. by rewrite app_assoc.
Qed.

Lemma exec_on_failure (E : env) (m : Z) (retries : nat) (w : world) :
  exec E (on_failure m retries) w = (Normal (S retries), w, backoff m (S retries)).
Proof.
  unfold on_failure, backoff. cbv zeta. rewrite exec_bind.
  destruct (S retries <? max_retries)%nat.
  - rewrite exec_bind, exec_say, exec_sleep. reflexivity.
  - rewrite exec_say. reflexivity.
Qed.

(** A try ends normally or with an error; it raises nothing else. *)
Lemma attempt_outcome (E : env) (M : manager) (c : client) (m : Z) (w : world) :
  exists w' t,
    exec E (attempt M c m) w = (Normal tt, w', t)
    \/ exists err, exec E (attempt M c m) w = (Raised (Error err), w', t).
Proof.
  unfold attempt. rewrite exec_bind.
  destruct (decide (requested E w <= length (reactions M))%nat) as [Hle|Hgt].
  - destruct (select_reactions_succeeds E M w Hle) as (sel & -> & _).
    destruct (send_selected_spec E M c m sel (after_draws (1 + requested E w) w))
      as (n & _ & [[_ ->]|(e & err & _ & ->)]); eauto.
  - rewrite select_reactions_fails by lia. eauto.
Qed.

(** One turn of the loop. *)
Lemma exec_retry_loop_step (E : env) (M : manager) (c : client) (m : Z)
    (fuel retries : nat) (w : world) :
  (retries < max_retries)%nat ->
  exec E (retry_loop M c m (S fuel) retries) w =
  match exec E (attempt M c m) w with
  | (Normal _, w1, t1) => (Normal tt, w1, t1)
  | (Raised (Error e), w1, t1) =>
      let '(r2, w2, t2) := exec E (retry_loop M c m fuel (S retries)) w1 in
      (r2, w2, t1 ++ backoff m (S retries) ++ t2)
  | (Raised x, w1, t1) => (Raised x, w1, t1)
  end.
Proof.
  intros Hlt. cbn [retry_loop]. apply Nat.ltb_lt in Hlt. rewrite Hlt.
  rewrite exec_bind, exec_try_except, exec_bind.
  destruct (exec E (attempt M c m) w) as [[[[]|[e| |]] w1] t1]; cbv beta iota.
  - cbn. by rewrite !app_nil_r.
  - rewrite exec_bind, exec_on_failure. cbn [exec]. cbv beta iota.
    destruct (exec E (retry_loop M c m fuel (S retries)) w1) as [[r2 w2] t2].
    by rewrite app_nil_r, <- app_assoc.
  - reflexivity.
  - reflexivity.
Qed.

Lemma exec_retry_loop_done (E : env) (M : manager) (c : client) (m : Z)
    (fuel retries : nat) (w : world) :
  (max_retries <= retries)%nat ->
  exec E (retry_loop M c m fuel retries) w = (Normal tt, w, []).
Proof.
  intros Hge. destruct fuel as [|fuel]; [done|]. cbn [retry_loop].
  apply Nat.ltb_ge in Hge. by rewrite Hge.
Qed.

(** Fuel: [max_retries - retries] turns are all the loop can take, more
    fuel changes nothing. *)
Lemma retry_loop_fuel (E : env) (M : manager) (c : client) (m : Z)
    (fuel retries : nat) (w : world) :
  (max_retries - retries <= fuel)%nat ->
  exec E (retry_loop M c m fuel retries) w =
  exec E (retry_loop M c m (max_retries - retries) retries) w.
Proof.
  revert retries w. induction fuel as [|fuel IH]; intros retries w Hfuel.
  - by replace (max_retries - retries)%nat with 0%nat by lia.
  - destruct (decide (retries < max_retries)%nat) as [Hlt|Hge].
    + replace (max_retries - retries)%nat
        with (S (max_retries - S retries)) by lia.
      rewrite !exec_retry_loop_step by done.
      destruct (exec E (attempt M c m) w) as [[[[]|[e| |]] w1] t1]; try done.
      by rewrite IH by lia.
    + by rewrite !exec_retry_loop_done by lia.
Qed.

(** The loop always ends normally: whatever fails inside a try is caught. *)
Lemma retry_loop_returns (E : env) (M : manager) (c : client) (m : Z)
    (fuel retries : nat) (w : world) :
  outcome_of (exec E (retry_loop M c m fuel retries) w) = Normal tt.
Proof.
  revert retries w. induction fuel as [|fuel IH]; intros retries w; [done|].
  destruct (decide (retries < max_retries)%nat) as [Hlt|Hge].
  - rewrite exec_retry_loop_step by done.
    destruct (attempt_outcome E M c m w) as (w1 & t1 & [->|[err ->]]); [done|].
    specialize (IH (S retries) w1).
    by destruct (exec E (retry_loop M c m fuel (S retries)) w1) as [[r2 w2] t2].
  - by rewrite exec_retry_loop_done by lia.
Qed.

Lemma react_with_returns (E : env) (M : manager) (m : Z) (c : client) (w : world) :
  exists w' t,
    exec E (react_with M m c) w = (Normal tt, w', t ++ [EvSleep (Uniform 4 7)]).
Proof.
  unfold react_with. rewrite exec_bind.
  pose proof (retry_loop_returns E M c m max_retries 0 w) as Hr.
  destruct (exec E (retry_loop M c m max_retries 0) w) as [[r w1] t1].
  unfold outcome_of in Hr. simpl in Hr. subst r.
  rewrite exec_sleep. by exists w1, t1.
Qed.




(** ** Going through the sessions *)

Lemma exec_for_each_app (E : env) {A : Type} (body : A -> prog unit)
    (l1 l2 : list A) (w : world) :
  exec E (for_each (l1 ++ l2) body) w =
  exec E (for_each l1 body ;; for_each l2 body) w.
Proof.
  revert w. induction l1 as [|x l1 IH]; intros w; [done|].
  cbn [app for_each]. rewrite !exec_bind.
  destruct (exec E (body x) w) as [[[[]|e] w1] t1]; [|done].
  rewrite IH, exec_bind.
  destruct (exec E (for_each l1 body) w1) as [[[[]|e] w2] t2]; [|done].
  destruct (exec E (for_each l2 body) w2) as [[r3 w3] t3].
  by rewrite app_assoc.
Qed.

(** The loop over the sessions always ends normally. *)
Lemma react_each_returns (E : env) (M : manager) (m : Z) (cs : list client)
    (w : world) :
  exists w' t, exec E (for_each cs (react_with M m)) w = (Normal tt, w', t).
Proof.
  revert w. induction cs as [|c cs IH]; intros w.
  - by exists w, [].
  - cbn [for_each]. rewrite exec_bind.
    destruct (react_with_returns E M m c w) as (w1 & t1 & ->).
    destruct (IH w1) as (w2 & t2 & ->). eauto.
Qed.

(** A try is what [one_try] says. *)
Lemma attempt_one_try (E : env) (M : manager) (c : client) (m : Z) (w : world) :
  exists how w' t,
    exec E (attempt M c m) w = (raises_of how, w', t)
    /\ one_try E M c m w how w' t.
Proof.
  unfold attempt. rewrite exec_bind.
  destruct (decide (requested E w <= length (reactions M))%nat) as [Hle|Hgt].
  - destruct (select_reactions_succeeds E M w Hle) as (sel & -> & Hlen & Hsub).
    destruct (send_selected_spec E M c m sel (after_draws (1 + requested E w) w))
      as (n & Hn & [[-> ->]|(emoji & err & Hl & ->)]).
    + exists Accepted. eexists _, _. split; [reflexivity|].
      right. exists sel. split_and!; try done. left. by split_and!.
    + exists (Refused err). eexists _, _. split; [reflexivity|].
      right. exists sel. split_and!; try done. right. exists n, emoji, err.
      by split_and!.
  - rewrite select_reactions_fails by lia.
    exists (Refused ValueError). eexists _, _. split; [reflexivity|].
    left. split_and!; try done. lia.
Qed.

(** The retry loop makes the tries of [session_tries]. *)
Lemma retry_loop_tries (E : env) (M : manager) (c : client) (m : Z)
    (fuel k : nat) (w : world) :
  (k < max_retries)%nat -> (max_retries - k <= fuel)%nat ->
  exists w' t,
    exec E (retry_loop M c m fuel k) w = (Normal tt, w', t)
    /\ session_tries E M c m k w w' t.
Proof.
  revert k w. induction fuel as [|fuel IH]; intros k w Hk Hfuel; [lia|].
  rewrite exec_retry_loop_step by done.
  destruct (attempt_one_try E M c m w) as ([|e] & w1 & t1 & -> & Htry);
    cbn [raises_of].
  - exists w1, t1. split; [done|]. by apply tries_accepted.
  - destruct (decide (S k < max_retries)%nat) as [Hlt|Hge].
    + destruct (IH (S k) w1 Hlt ltac:(lia)) as (w2 & t2 & -> & Htries).
      exists w2. eexists. split; [reflexivity|].
      unfold backoff. apply Nat.ltb_lt in Hlt as Hb. rewrite Hb.
      by eapply tries_again.
    + rewrite exec_retry_loop_done by lia.
      exists w1. eexists. split; [reflexivity|].
      assert ((S k <? max_retries)%nat = false) as Hb by (apply Nat.ltb_ge; lia).
      unfold backoff. rewrite Hb, app_nil_r.
      eapply tries_exhausted; [lia|done].
Qed.

(** The loop over the sessions serves them all. *)
Lemma react_each_served (E : env) (M : manager) (m : Z) (cs : list client)
    (w : world) :
  exists w' t,
    exec E (for_each cs (react_with M m)) w = (Normal tt, w', t)
    /\ sessions_served E M m cs w w' t.
Proof.
  revert w. induction cs as [|c cs IH]; intros w.
  - exists w, []. split; [done|]. constructor.
  - cbn [for_each]. rewrite exec_bind. unfold react_with at 1.
    rewrite exec_bind.
    destruct (retry_loop_tries E M c m max_retries 0 w) as (w1 & tc & -> & Htc);
      [unfold max_retries; lia|lia|].
    rewrite exec_sleep. destruct (IH w1) as (w2 & t & -> & Ht).
    exists w2. eexists. split; [|by eapply served_cons].
    f_equal. by rewrite <- app_assoc.
Qed.

Lemma sessions_served_app (E : env) (M : manager) (m : Z)
    (before after : list client) (w w' : world) (t : list event) :
  sessions_served E M m (before ++ after) w w' t ->
  exists w1 t1 t2,
    sessions_served E M m before w w1 t1
    /\ sessions_served E M m after w1 w' t2
    /\ t = t1 ++ t2.
Proof.
  revert w t. induction before as [|c before IH]; intros w t Hs.
  - exists w, [], t. split_and!; [constructor|done|done].
  - cbn [app] in Hs. inversion Hs as [|c0 cs0 w0 w1 w2 tc t' Htc Hrest]; subst.
    destruct (IH w1 t' Hrest) as (w3 & t1 & t2 & H1 & H2 & ->).
    exists w3, (tc ++ [EvSleep (Uniform 4 7)] ++ t1), t2.
    split_and!; [by eapply served_cons|done|].
    by rewrite <- !app_assoc.
Qed.

(** C4. Dispatch never raises, and a session that fails does not cost
    the others their turn.  For every message id, every state of the set
    and every behaviour of the network and of the random generator,
    [react_to_message] ends normally.  On a new id it marks the id and
    then serves the sessions in the order of registration: each session
    makes its tries (a selection drawn from the vocabulary, its reactions
    submitted in turn with their pacing; after a refused try the retry
    line and the backoff, after the third the failure line and no further
    try) and closes with its pause of 4 to 7 seconds.  So wherever a
    session [c] stands in the list, and however its own tries end, the
    sessions before it and the sessions after it get this whole sequence,
    each from the state the one before left. *)
Theorem react_to_message_never_raises (E : env) (V : list string)
    (chat : option Z) (m : Z) (w : world) :
  (forall cs,
     outcome_of (exec E (react_to_message
                           {| clients := cs; reactions := V; channel_id := chat |} m) w)
     = Normal tt)
  /\ (forall cs,
        let M := {| clients := cs; reactions := V; channel_id := chat |} in
        m ∉ processed_messages w ->
        exists w' t,
          exec E (react_to_message M m) w = (Normal tt, w', EvMark m :: t)
          /\ sessions_served E M m cs (marked_world m w) w' t)
  /\ forall before c after,
       let M := {| clients := before ++ c :: after;
                   reactions := V; channel_id := chat |} in
       m ∉ processed_messages w ->
       exists w1 w2 w3 t1 tc t2,
         sessions_served E M m before (marked_world m w) w1 t1
         /\ session_tries E M c m 0 w1 w2 tc
         /\ sessions_served E M m after w2 w3 t2
         /\ exec E (react_to_message M m) w
            = (Normal tt, w3,
               EvMark m :: t1 ++ (tc ++ [EvSleep (Uniform 4 7)]) ++ t2).
Proof.
  assert (forall cs,
            let M := {| clients := cs; reactions := V; channel_id := chat |} in
            m ∉ processed_messages w ->
            exists w' t,
              exec E (react_to_message M m) w = (Normal tt, w', EvMark m :: t)
              /\ sessions_served E M m cs (marked_world m w) w' t) as Hnew.
  { intros cs M Hm. rewrite react_to_message_new by done. cbv zeta.
    unfold react_all. cbn [perform fst snd clients M].
    fold (marked_world m w).
    destruct (react_each_served E M m cs (marked_world m w)) as (w' & t & -> & Ht).
    by exists w', t. }
  split_and!.
  - intros cs. set (M := {| clients := cs |}).
    destruct (decide (m ∈ processed_messages w)) as [Hin|Hm].
    + by rewrite react_to_message_seen.
    + destruct (Hnew cs Hm) as (w' & t & Hexec & _). fold M in Hexec.
      by rewrite Hexec.
  - exact Hnew.
  - intros before c after M Hm.
    destruct (Hnew (before ++ c :: after) Hm) as (w3 & t & Hexec & Hs).
    fold M in Hexec, Hs.
    apply sessions_served_app in Hs as (w1 & t1 & t' & H1 & Hrest & ->).
    inversion Hrest as [|c0 cs0 w0 w2 w4 tc t2 Htc H2]; subst.
    exists w1, w2, w3, t1, tc, t2. split_and!; try done.
    rewrite Hexec. by rewrite <- !app_assoc.
Qed.

(** ** A vocabulary of one reaction *)


(** ** Which operations a program uses *)

Lemma sending_dispatching {A : Type} (o : op A) :
  sending o = true -> dispatching o = true.
Proof. by destruct o. Qed.

Lemma uses_mono (P Q : forall A : Type, op A -> bool) {R : Type} (p : prog R) :
  (forall A (o : op A), P A o = true -> Q A o = true) ->
  uses P p -> uses Q p.
Proof.
  intros HPQ. induction p as [r|e|A o k IH]; simpl; [done|done|].
  intros [Ho Hk]. split; [by apply HPQ|]. intros a. by apply IH.
Qed.

Lemma uses_bind (P : forall A : Type, op A -> bool) {R S : Type}
    (p : prog R) (f : R -> prog S) :
  uses P p -> (forall r, uses P (f r)) -> uses P (bind p f).
Proof.
  intros Hp Hf. induction p as [r|e|A o k IH]; simpl; [by apply Hf|done|].
  destruct Hp as [Ho Hk]. split; [done|]. intros a. by apply IH.
Qed.

Lemma uses_call (P : forall A : Type, op A -> bool) {A : Type} (o : op A) :
  P A o = true -> uses P (call o).
Proof. intros Ho. simpl. by split. Qed.

Lemma uses_try_except (P : forall A : Type, op A -> bool) {R : Type}
    (p : prog R) (h : error -> prog R) :
  uses P p -> (forall e, uses P (h e)) -> uses P (try_except p h).
Proof.
  intros Hp Hh. induction p as [r|e|A o k IH]; simpl; [done| |].
  - destruct e; [apply Hh|done|done].
  - destruct Hp as [Ho Hk]. split; [done|]. intros a. by apply IH.
Qed.

Lemma uses_try_except_interrupt (P : forall A : Type, op A -> bool) {R : Type}
    (p h : prog R) :
  uses P p -> uses P h -> uses P (try_except_interrupt p h).
Proof.
  intros Hp Hh. induction p as [r|e|A o k IH]; simpl; [done| |].
  - by destruct e.
  - destruct Hp as [Ho Hk]. split; [done|]. intros a. by apply IH.
Qed.

Lemma uses_for_each (P : forall A : Type, op A -> bool) {A : Type}
    (xs : list A) (body : A -> prog unit) :
  (forall x, uses P (body x)) -> uses P (for_each xs body).
Proof.
  intros Hb. induction xs as [|x xs IH]; simpl; [done|].
  apply uses_bind; [apply Hb|]. intros _. apply IH.
Qed.

Lemma uses_sample_pool {A : Type} (pool : list A) (k : nat) :
  uses (@sending) (sample_pool pool k).
Proof.
  revert pool. induction k as [|k IH]; intros pool; simpl; [done|].
  split; [done|]. intros j. simpl.
  destruct (pool !! j); [|done]. destruct (last pool); [|done].
  apply uses_bind; [apply IH|]. by intros rest.
Qed.

Lemma uses_attempt (M : manager) (c : client) (m : Z) :
  uses (@sending) (attempt M c m).
Proof.
  unfold attempt, select_reactions, randint, sample.
  apply uses_bind.
  - apply uses_bind; [apply uses_bind; [by apply uses_call|done]|].
    intros k. destruct (_ <? _)%nat; [done|]. apply uses_sample_pool.
  - intros sel. apply uses_for_each. intros emoji.
    apply uses_bind; [|intros; by apply uses_call].
    unfold send_reaction. apply uses_bind; [by apply uses_call|].
    by intros [err|].
Qed.

Lemma uses_retry_loop (M : manager) (c : client) (m : Z) (fuel retries : nat) :
  uses (@sending) (retry_loop M c m fuel retries).
Proof.
  revert retries. induction fuel as [|fuel IH]; intros retries;
    cbn [retry_loop]; [done|].
  destruct (retries <? max_retries)%nat; [|done].
  apply uses_bind.
  - apply uses_try_except.
    + apply uses_bind; [apply uses_attempt|done].
    + intros e. apply uses_bind; [|done]. unfold on_failure.
      apply uses_bind; [|done].
      destruct (_ <? _)%nat; [|by apply uses_call].
      apply uses_bind; [by apply uses_call|]. intros _. by apply uses_call.
  - intros [retries'|]; [apply IH|done].
Qed.

Lemma uses_react_all (M : manager) (m : Z) :
  uses (@sending) (react_all M m).
Proof.
  apply uses_for_each. intros c. unfold react_with.
  apply uses_bind; [apply uses_retry_loop|]. intros _. by apply uses_call.
Qed.

Lemma uses_react_to_message (M : manager) (m : Z) :
  uses (@dispatching) (react_to_message M m).
Proof.
  unfold react_to_message. apply uses_bind; [by apply uses_call|].
  intros [|]; [done|]. apply uses_bind; [by apply uses_call|]. intros _.
  eapply uses_mono; [|apply uses_react_all]. intros A. apply sending_dispatching.
Qed.

Lemma uses_history_loop (M : manager) (c : client) (remaining i : nat) :
  uses (@dispatching) (history_loop M c remaining i).
Proof.
  revert i. induction remaining as [|n IH]; intros i;
    cbn [history_loop]; [done|].
  apply uses_bind; [by apply uses_call|].
  intros [id| |e]; [|done|done].
  apply uses_bind; [apply uses_react_to_message|]. intros _.
  apply uses_bind; [by apply uses_call|]. intros _. apply IH.
Qed.

Lemma uses_process_old_messages (M : manager) :
  uses (@dispatching) (process_old_messages M).
Proof.
  unfold process_old_messages.
  apply uses_bind; [by apply uses_call|]. intros _.
  apply uses_bind; [|intros; by apply uses_call].
  apply uses_try_except; [|intros; by apply uses_call].
  destruct (clients M) as [|c cs]; [done|].
  apply uses_bind; [by apply uses_call|]. intros _. apply uses_history_loop.
Qed.

(** What a program that uses only [P] leaves in the trace. *)
Lemma uses_exec (P : forall A : Type, op A -> bool) (Q : event -> Prop)
    (E : env) {R : Type} (p : prog R) (w : world) :
  (forall A (o : op A) w0, P A o = true -> Forall Q (perform E o w0).2) ->
  uses P p -> Forall Q (trace_of (exec E p w)).
Proof.
  intros HPQ. revert w. induction p as [r|e|A o k IH]; intros w Hp; simpl.
  - constructor.
  - constructor.
  - destruct Hp as [Ho Hk]. pose proof (HPQ A o w Ho) as Hq.
    destruct (perform E o w) as [[a w1] t1]. specialize (IH a w1 (Hk a)).
    destruct (exec E (k a) w1) as [[r w2] t2]. unfold trace_of in *. simpl in *.
    by apply Forall_app.
Qed.

Lemma not_stopping_no_stop (E : env) {A : Type} (o : op A) (w : world) :
  not_stopping o = true -> Forall (fun ev => is_stop ev = false) (perform E o w).2.
Proof. destruct o; simpl; try done; repeat constructor. Qed.

Lemma not_registering_no_register (E : env) {A : Type} (o : op A) (w : world) :
  not_registering o = true ->
  Forall (fun ev => is_register ev = false) (perform E o w).2.
Proof. destruct o; simpl; try done; repeat constructor. Qed.

(** ** The backlog pass *)

Lemma react_to_message_returns (E : env) (M : manager) (m : Z) (w : world) :
  exists w' t, exec E (react_to_message M m) w = (Normal tt, w', t).
Proof.
  destruct (decide (m ∈ processed_messages w)) as [Hin|Hnew].
  - rewrite react_to_message_seen by done. eauto.
  - rewrite react_to_message_new by done. cbv zeta. unfold react_all.
    destruct (react_each_returns E M m (clients M) (perform E (Add m) w).1.2)
      as (w' & t & ->). eauto.
Qed.

Lemma dispatch_each_cons (M : manager) (m : Z) (ids : list Z) :
  dispatch_each M (m :: ids) =
  ((react_to_message M m ;; sleep (Uniform 5 8)) ;; dispatch_each M ids).
Proof. reflexivity. Qed.

Lemma dispatch_each_returns (E : env) (M : manager) (ids : list Z) (w : world) :
  exists w' t, exec E (dispatch_each M ids) w = (Normal tt, w', t).
Proof.
  revert w. induction ids as [|m ids IH]; intros w.
  - by exists w, [].
  - rewrite dispatch_each_cons, !exec_bind.
    destruct (react_to_message_returns E M m w) as (w1 & t1 & ->).
    rewrite exec_sleep. destruct (IH w1) as (w2 & t2 & ->). eauto.
Qed.

Lemma retrieved_length (E : env) (c : client) (remaining i : nat) :
  (length (retrieved E c remaining i) <= remaining)%nat.
Proof.
  revert i. induction remaining as [|n IH]; intros i; simpl; [lia|].
  destruct (chat_history E c i); simpl; [|lia|lia].
  specialize (IH (S i)). lia.
Qed.

(** The [async for] loop dispatches what the generator yields, in the
    order it yields it, and raises the error of the generator if there
    is one. *)
Lemma exec_history_loop (E : env) (M : manager) (c : client)
    (remaining i : nat) (w : world) :
  exec E (history_loop M c remaining i) w =
  let '(_, w', t) := exec E (dispatch_each M (retrieved E c remaining i)) w in
  (match retrieval_error E c remaining i with
   | None => Normal tt
   | Some e => Raised (Error e)
   end, w', t).
Proof.
  revert i w. induction remaining as [|n IH]; intros i w; [done|].
  cbn [history_loop retrieved retrieval_error].
  rewrite exec_bind, exec_call. cbn [perform fst snd].
  destruct (chat_history E c i) as [m| |e]; [|done|done].
  rewrite dispatch_each_cons, !exec_bind.
  destruct (react_to_message_returns E M m w) as (w1 & t1 & ->).
  rewrite ?exec_bind, !exec_sleep. rewrite IH.
  destruct (exec E (dispatch_each M (retrieved E c n (S i))) w1) as [[r2 w2] t2].
  cbn. by rewrite <- app_assoc.
Qed.

(** The pass when there is a first client. *)
Lemma exec_process_old_messages (E : env) (M : manager) (c : client)
    (cs : list client) (w : world) :
  clients M = c :: cs ->
  exists w' t,
    exec E (dispatch_each M (retrieved E c history_limit 0)) w = (Normal tt, w', t)
    /\ exec E (process_old_messages M) w =
       (Normal tt, w',
        [EvPrint LogProcessingOld; EvGetChatHistory c (channel_id M) 100]
          ++ t
          ++ match retrieval_error E c history_limit 0 with
             | None => []
             | Some e => [EvPrint (LogErrorOld e)]
             end
          ++ [EvPrint LogFinishedOld]).
Proof.
  intros Hcs. unfold process_old_messages. rewrite Hcs.
  destruct (dispatch_each_returns E M (retrieved E c history_limit 0) w)
    as (w' & t & Hd).
  exists w', t. split; [done|].
  rewrite exec_bind, exec_say, exec_bind, exec_try_except, exec_bind, exec_call.
  cbn [perform fst snd]. rewrite exec_history_loop, Hd.
  destruct (retrieval_error E c history_limit 0) as [e|].
  - rewrite !exec_say. cbn. by rewrite <- !app_assoc.
  - rewrite !exec_say. reflexivity.
Qed.

(** C6. The backlog pass.  [process_old_messages] takes the
    first-registered client, asks it for the history of the channel with
    a limit of 100, and dispatches the ids it receives (at most 100) one
    after the other in the order received, each dispatch followed by a
    sleep of 5 to 8 seconds.  An error of the retrieval stops the pass
    where it stands: it is printed, the closing line is printed, and the
    function returns normally; an empty list of clients is handled the
    same way. *)
Theorem process_old_messages_contract (E : env) (M : manager) (w : world) :
  match clients M with
  | [] =>
      exec E (process_old_messages M) w =
      (Normal tt, w,
       [EvPrint LogProcessingOld; EvPrint (LogErrorOld IndexError);
        EvPrint LogFinishedOld])
  | c :: _ =>
      let ids := retrieved E c history_limit 0 in
      exists w' t,
        exec E (dispatch_each M ids) w = (Normal tt, w', t)
        /\ (length ids <= 100)%nat
        /\ exec E (process_old_messages M) w =
           (Normal tt, w',
            [EvPrint LogProcessingOld; EvGetChatHistory c (channel_id M) 100]
              ++ t
              ++ match retrieval_error E c history_limit 0 with
                 | None => []
                 | Some e => [EvPrint (LogErrorOld e)]
                 end
              ++ [EvPrint LogFinishedOld])
  end.
Proof.
  destruct (clients M) as [|c cs] eqn:Hcs.
  - unfold process_old_messages. rewrite Hcs. reflexivity.
  - cbv zeta.
    destruct (exec_process_old_messages E M c cs w Hcs) as (w' & t & Hd & Hp).
    exists w', t. split; [done|]. split; [apply retrieved_length|done].
Qed.

(** ** What a dispatch leaves in the set *)

Lemma sending_keeps_processed (E : env) {A : Type} (o : op A) (w : world) :
  sending o = true ->
  processed_messages (perform E o w).1.2 = processed_messages w.
Proof. by destruct o. Qed.

Lemma uses_sending_processed (E : env) {R : Type} (p : prog R) (w : world) :
  uses (@sending) p ->
  processed_messages (world_of (exec E p w)) = processed_messages w.
Proof.
  revert w. induction p as [r|e|A o k IH]; intros w Hp; simpl; [done|done|].
  destruct Hp as [Ho Hk].
  pose proof (sending_keeps_processed E o w Ho) as Hs.
  destruct (perform E o w) as [[a w1] t1]. simpl in Hs.
  specialize (IH a w1 (Hk a)). destruct (exec E (k a) w1) as [[r w2] t2].
  unfold world_of in *. simpl in *. congruence.
Qed.

Lemma react_to_message_processed (E : env) (M : manager) (m : Z) (w : world) :
  processed_messages (world_of (exec E (react_to_message M m) w))
  = {[ m ]} ∪ processed_messages w.
Proof.
  destruct (decide (m ∈ processed_messages w)) as [Hin|Hnew].
  - rewrite react_to_message_seen by done. unfold world_of. simpl.
    symmetry. apply subseteq_union_1_L. by apply singleton_subseteq_l.
  - rewrite react_to_message_new by done. cbv zeta.
    pose proof (uses_sending_processed E (react_all M m)
                  (perform E (Add m) w).1.2 (uses_react_all M m)) as Hs.
    by destruct (exec E (react_all M m) _) as [[r w2] t].
Qed.

Lemma dispatch_each_processed (E : env) (M : manager) (ids : list Z) (w : world) :
  processed_messages (world_of (exec E (dispatch_each M ids) w))
  = list_to_set ids ∪ processed_messages w.
Proof.
  revert w. induction ids as [|m ids IH]; intros w.
  - unfold world_of. simpl. by rewrite (left_id_L ∅ (∪)).
  - rewrite dispatch_each_cons, !exec_bind.
    pose proof (react_to_message_processed E M m w) as Hm.
    destruct (react_to_message_returns E M m w) as (w1 & t1 & Hr).
    rewrite Hr in Hm |- *. rewrite exec_sleep. specialize (IH w1).
    destruct (exec E (dispatch_each M ids) w1) as [[r2 w2] t2].
    unfold world_of in *. simpl in *. rewrite IH, Hm.
    by rewrite (comm_L (∪) {[ m ]} (list_to_set ids)), <- (assoc_L (∪)).
Qed.

(** X1. Every session's part of a dispatch, whether its tries succeeded
    or were exhausted, ends normally with the pause of 4 to 7 seconds
    before the next session. *)
Theorem session_ends_with_pause (E : env) (M : manager) (m : Z) (c : client)
    (w : world) :
  exists w' t,
    exec E (react_with M m c) w = (Normal tt, w', t ++ [EvSleep (Uniform 4 7)]).
Proof. apply react_with_returns. Qed.

(** X2. A live message whose id is already in the set: the handler
    sleeps its jitter of 1 to 3 seconds and the dispatch is a no-op, with
    no submission and no change of state. *)
Theorem live_message_already_processed (E : env) (M : manager) (c : client)
    (m : Z) (w : world) :
  m ∈ processed_messages w ->
  exec E (handle_new_message M c m) w = (Normal tt, w, [EvSleep (Uniform 1 3)]).
Proof.
  intros Hin. unfold handle_new_message.
  rewrite exec_bind, exec_sleep, react_to_message_seen by done. reflexivity.
Qed.

Lemma live_message_already_processed_witness :
  let w := {| processed_messages := {[ 101 ]}; draws := 0; sends := 0;
              handlers := ["A"] |} in
  101 ∈ processed_messages w
  /\ exec (quiet_env 0) (handle_new_message (manager_of ["A"] ["+1"]) "A" 101) w
     = (Normal tt, w, [EvSleep (Uniform 1 3)]).
Proof.
  intros w. assert (101 ∈ processed_messages w) as Hin by (simpl; set_solver).
  split; [exact Hin|].
  exact (live_message_already_processed (quiet_env 0) (manager_of ["A"] ["+1"])
           "A" 101 w Hin).
Defined.

(** X3. After the backlog pass the set holds what it held before and
    exactly the ids the pass received. *)
Theorem backlog_marks_what_it_received (E : env) (M : manager) (w : world) :
  processed_messages (world_of (exec E (process_old_messages M) w))
  = match clients M with
    | [] => processed_messages w
    | c :: _ =>
        list_to_set (retrieved E c history_limit 0) ∪ processed_messages w
    end.
Proof.
  destruct (clients M) as [|c cs] eqn:Hcs.
  - unfold process_old_messages. by rewrite Hcs.
  - destruct (exec_process_old_messages E M c cs w Hcs) as (w' & t & Hd & ->).
    pose proof (dispatch_each_processed E M (retrieved E c history_limit 0) w) as Hp.
    by rewrite Hd in Hp.
Qed.

(** ** Shutdown *)

Lemma exec_try_finally (E : env) {R : Type} (p : prog R) (f : prog unit)
    (w : world) :
  exec E (try_finally p f) w =
  let '(r1, w1, t1) := exec E p w in
  let '(r2, w2, t2) := exec E f w1 in
  (match r2 with Normal _ => r1 | Raised e => Raised e end, w2, t1 ++ t2).
Proof.
  revert w. induction p as [r|e|A o k IH]; intros w; cbn [try_finally exec].
  - rewrite exec_bind. destruct (exec E f w) as [[[[]|e] w2] t2]; cbn; [|done].
    by rewrite app_nil_r.
  - rewrite exec_bind. destruct (exec E f w) as [[[[]|e'] w2] t2]; cbn; [|done].
    by rewrite app_nil_r.
  - destruct (perform E o w) as [[a w1] t1]. rewrite IH.
    destruct (exec E (k a) w1) as [[r1 w2] t2].
    destruct (exec E f w2) as [[r3 w3] t3]. by rewrite app_assoc.
Qed.

Lemma exec_stop_all (E : env) (M : manager) (w : world) :
  exec E (stop_all M) w =
  (match release_failure E (clients M) with
   | None => Normal tt
   | Some e => Raised e
   end, w, stop_events E (released E (clients M))).
Proof.
  unfold stop_all. induction (clients M) as [|c cs IH]; [done|].
  cbn [for_each released release_failure]. rewrite exec_bind.
  unfold stop at 1. rewrite exec_bind, exec_call. cbn [perform fst snd].
  unfold stop_events in *. cbn [map].
  destruct (stop_result E c) as [e|]; [reflexivity|].
  cbn [exec]. rewrite IH. reflexivity.
Qed.

Lemma released_all (E : env) (cs : list client) :
  (forall c, c ∈ cs -> stop_result E c = None) -> released E cs = cs.
Proof.
  induction cs as [|c cs IH]; intros Hall; [done|]. simpl.
  rewrite (Hall c) by (by left). f_equal. apply IH.
  intros c' Hc'. apply Hall. by right.
Qed.

Lemma uses_run_body (M : manager) (init : init_outcome) :
  uses (@not_stopping) (run_body M init).
Proof.
  unfold run_body. apply uses_try_except_interrupt; [|by apply uses_call].
  destruct (init_return init) as [[|]|e]; [|done|done].
  destruct (clients M) as [|c cs]; [by apply uses_call|].
  unfold serve. apply uses_bind.
  { eapply uses_mono; [|apply uses_process_old_messages]. by intros A []. }
  intros _. apply uses_bind.
  { apply uses_for_each. intros c'. by apply uses_call. }
  intros _. apply uses_bind; [by apply uses_call|]. intros _.
  apply uses_bind; [by apply uses_call|]. intros _.
  apply uses_bind; [by apply uses_call|]. done.
Qed.

(** C8, as stated, fails.  Two sessions A and B are open, the bot is
    interrupted while it waits, and the release of A fails: the error
    leaves the [finally] loop, [run] raises it, and B is never released. *)
Lemma run_release_not_best_effort :
  let '(r, _, t) := exec failing_stop_env (run ["+1"]) fresh_world in
  r = Raised (Error (RPCError 500))
  /\ filter (fun ev => is_stop ev = true) t
     = [EvStop "A" (Some (Error (RPCError 500)))]
  /\ "B" ∈ init_clients (initialize_result failing_stop_env)
  /\ forall r', EvStop "B" r' ∉ t.
Proof.
  vm_compute. split_and!; try done.
  - apply list_elem_of_In. simpl. auto.
  - intros r' Hin. apply list_elem_of_In in Hin. simpl in Hin.
    repeat (destruct Hin as [Hin|Hin]; [discriminate Hin|]). done.
Qed.

(** C8, amended.  However [run] ends once [initialize_clients] is over
    (an interrupt during the wait, a failed channel resolution, no
    account, an error), its trace ends with the [finally] block and no
    session is released before it: the block releases the opened sessions
    in the order of registration, up to and including the first whose
    release fails.  So every opened session is released when no release
    fails; when one fails, [run] raises that error. *)
Theorem run_releases_sessions (E : env) (V : list string) (w : world) :
  let cs := init_clients (initialize_result E) in
  let '(r, w', t) := exec E (run V) w in
  exists body,
    t = body ++ stop_events E (released E cs)
    /\ Forall (fun ev => is_stop ev = false) body
    /\ ((forall c, c ∈ cs -> stop_result E c = None) -> released E cs = cs)
    /\ (forall e, release_failure E cs = Some e -> r = Raised e).
Proof.
  cbv zeta. unfold run. rewrite exec_bind, exec_call. cbn [perform fst snd].
  set (M := {| clients := init_clients (initialize_result E) |}).
  fold (run_body M (initialize_result E)).
  rewrite exec_try_finally.
  pose proof (uses_exec (@not_stopping) (fun ev => is_stop ev = false) E
                (run_body M (initialize_result E)) w
                (fun A o w0 => not_stopping_no_stop E o w0)
                (uses_run_body M (initialize_result E))) as Hbody.
  destruct (exec E (run_body M (initialize_result E)) w) as [[r1 w1] t1].
  rewrite exec_stop_all. cbn [clients M].
  exists t1. split_and!; try done.
  - apply released_all.
  - intros e He. by rewrite He.
Qed.

(** ** Resuming: general facts *)

Lemma advance_processed_mono (E : env) {R : Type} (p : prog R) (w : world) :
  processed_messages w ⊆ processed_messages (advance E p w).1.2.
Proof.
  revert w. induction p as [r|e|A o k IH]; intros w; simpl; [done|done|].
  destruct (suspends o); [done|].
  pose proof (perform_processed_mono E o w) as Hp.
  destruct (perform E o w) as [[a w1] t1]. simpl in Hp.
  specialize (IH a w1). destruct (advance E (k a) w1) as [[p' w2] t2].
  simpl in *. set_solver.
Qed.

Lemma resume_processed_mono (E : env) {R : Type} (p : prog R) (w : world) :
  processed_messages w ⊆ processed_messages (resume E p w).1.2.
Proof.
  destruct p as [r|e|A o k]; simpl; [done|done|].
  pose proof (perform_processed_mono E o w) as Hp.
  destruct (perform E o w) as [[a w1] t1]. simpl in Hp.
  pose proof (advance_processed_mono E (k a) w1) as Ha.
  destruct (advance E (k a) w1) as [[p' w2] t2].
  simpl in *. set_solver.
Qed.

(** Running to the end is resuming and then running to the end. *)
Lemma exec_advance (E : env) {R : Type} (p : prog R) (w : world) :
  exec E p w =
  let '(p', w1, t1) := advance E p w in
  let '(r, w2, t2) := exec E p' w1 in
  (r, w2, t1 ++ t2).
Proof.
  revert w. induction p as [r|e|A o k IH]; intros w; simpl; [done|done|].
  destruct (suspends o).
  - simpl. destruct (perform E o w) as [[a w1] t1].
    by destruct (exec E (k a) w1) as [[r w2] t2].
  - destruct (perform E o w) as [[a w1] t1]. rewrite IH.
    destruct (advance E (k a) w1) as [[p' w2] t2].
    destruct (exec E p' w2) as [[r w3] t3]. by rewrite app_assoc.
Qed.

Lemma exec_resume (E : env) {R : Type} (p : prog R) (w : world) :
  exec E p w =
  let '(p', w1, t1) := resume E p w in
  let '(r, w2, t2) := exec E p' w1 in
  (r, w2, t1 ++ t2).
Proof.
  destruct p as [r|e|A o k]; simpl; [done|done|].
  destruct (perform E o w) as [[a w1] t1]. rewrite exec_advance.
  destruct (advance E (k a) w1) as [[p' w2] t2].
  destruct (exec E p' w2) as [[r w3] t3]. by rewrite app_assoc.
Qed.

(** A program that uses only [P] still does after a resumption, and the
    events of the resumption are those of operations in [P]. *)
Lemma uses_advance (P : forall A : Type, op A -> bool) (Q : event -> Prop)
    (E : env) {R : Type} (p : prog R) (w : world) :
  (forall A (o : op A) w0, P A o = true -> Forall Q (perform E o w0).2) ->
  uses P p ->
  uses P (advance E p w).1.1 /\ Forall Q (advance E p w).2.
Proof.
  intros HPQ. revert w. induction p as [r|e|A o k IH]; intros w Hp; simpl.
  - by split.
  - by split.
  - destruct (suspends o); [by split|].
    destruct Hp as [Ho Hk]. pose proof (HPQ A o w Ho) as Hq.
    destruct (perform E o w) as [[a w1] t1]. specialize (IH a w1 (Hk a)).
    destruct (advance E (k a) w1) as [[p' w2] t2]. simpl in *.
    destruct IH as [IH1 IH2]. split; [done|]. by apply Forall_app.
Qed.

Lemma uses_resume (P : forall A : Type, op A -> bool) (Q : event -> Prop)
    (E : env) {R : Type} (p : prog R) (w : world) :
  (forall A (o : op A) w0, P A o = true -> Forall Q (perform E o w0).2) ->
  uses P p ->
  uses P (resume E p w).1.1 /\ Forall Q (resume E p w).2.
Proof.
  intros HPQ Hp. destruct p as [r|e|A o k]; simpl; [by split|by split|].
  destruct Hp as [Ho Hk]. pose proof (HPQ A o w Ho) as Hq.
  destruct (perform E o w) as [[a w1] t1].
  pose proof (uses_advance P Q E (k a) w1 HPQ (Hk a)) as [H1 H2].
  destruct (advance E (k a) w1) as [[p' w2] t2]. simpl in *.
  split; [done|]. by apply Forall_app.
Qed.

(** ** The ledger under concurrent invocations *)

Lemma sending_no_mark (E : env) {A : Type} (o : op A) (w : world) :
  sending o = true -> Forall (fun ev => is_mark ev = false) (perform E o w).2.
Proof. destruct o; simpl; try done; repeat constructor. Qed.

Lemma elem_of_tag (a a' : actor) (ev : event) (t : list event) :
  (a', ev) ∈ tag a t <-> a' = a /\ ev ∈ t.
Proof.
  unfold tag. induction t as [|x t IH]; simpl.
  - rewrite !elem_of_nil. tauto.
  - rewrite !elem_of_cons, IH. split.
    + intros [H|[-> H]]; [injection H as -> ->|]; auto.
    + intros [-> [->|H]]; auto.
Qed.

(** The first resumption of an invocation: its jitter sleep is over, the
    check and the addition run in one go, and the coroutine stops at the
    first [await] of the dispatch, or has returned if the id was in the
    set. *)
Lemma resume_handle_new_message (E : env) (M : manager) (c : client) (m : Z)
    (w : world) :
  resume E (handle_new_message M c m) w =
  if bool_decide (m ∈ processed_messages w)
  then (Ret tt, w, [EvSleep (Uniform 1 3)])
  else
    let '(p', w2, t2) := advance E (react_all M m) (perform E (Add m) w).1.2 in
    (p', w2, EvSleep (Uniform 1 3) :: EvMark m :: t2).
Proof.
  unfold handle_new_message, react_to_message. cbn.
  destruct (bool_decide (m ∈ processed_messages w)); cbn; [done|].
  by destruct (advance E (react_all M m) _) as [[p' w2] t2].
Qed.

Lemma task_status_ext (M : manager) (J J' : list (actor * event)) (i : nat)
    (tk : task) :
  (forall ev, (Handler i, ev) ∈ J' <-> (Handler i, ev) ∈ J) ->
  task_status M J i tk -> task_status M J' i tk.
Proof.
  intros Hj [[Hp Hn]|[[Hp Hn]|[Hp Hn]]].
  - left. split; [done|]. intros ev. rewrite Hj. apply Hn.
  - right; left. split; [done|]. intros ev. rewrite Hj. apply Hn.
  - right; right. split; [done|]. intros m. unfold marked. rewrite Hj. apply Hn.
Qed.

Lemma ledger_inv_boot (M : manager) (p : prog unit) (w : world) :
  ledger_inv M (boot p w).
Proof.
  split; simpl.
  - intros i tk H. by rewrite lookup_nil in H.
  - intros i ev H. by apply elem_of_nil in H.
  - intros i m H. by apply elem_of_nil in H.
  - intros i j m H. by apply elem_of_nil in H.
Qed.

Lemma ledger_inv_main (E : env) (M : manager) (s : system) :
  ledger_inv M s -> ledger_inv M (sys_step E M s RunMain).
Proof.
  intros [Ht Hb Hm Hu]. unfold sys_step.
  pose proof (resume_processed_mono E (main s) (shared s)) as Hmono.
  destruct (resume E (main s) (shared s)) as [[p' w'] t]. simpl in Hmono.
  assert (forall i ev, (Handler i, ev) ∈ journal s ++ tag Main t
                       <-> (Handler i, ev) ∈ journal s) as Hj.
  { intros i ev. rewrite elem_of_app, elem_of_tag. split; [|auto].
    intros [H|[H _]]; [done|discriminate]. }
  split; simpl; unfold marked in *.
  - intros i tk Hl. eapply task_status_ext; [apply Hj|by apply Ht].
  - intros i ev. rewrite Hj. apply Hb.
  - intros i m. rewrite Hj. intros H. apply Hm in H. exact (Hmono m H).
  - intros i j m. rewrite !Hj. apply Hu.
Qed.

Lemma ledger_inv_deliver (E : env) (M : manager) (s : system) (c : client) (m : Z) :
  ledger_inv M s -> ledger_inv M (sys_step E M s (Deliver c m)).
Proof.
  intros [Ht Hb Hm Hu]. split; simpl; try done.
  - intros i tk Hl. apply lookup_app_Some in Hl as [Hl|[Hge Hl]]; [by apply Ht|].
    left. unfold spawned in Hl. apply list_lookup_fmap_Some_1 in Hl as (x & -> & _).
    split; [done|]. intros ev Hin. apply Hb in Hin. lia.
  - intros i ev Hin. apply Hb in Hin. rewrite length_app. lia.
Qed.

(** The journal after invocation [i] has been resumed. *)
Lemma journal_other (J : list (actor * event)) (i j : nat) (t : list event)
    (ev : event) :
  j <> i -> ((Handler j, ev) ∈ J ++ tag (Handler i) t <-> (Handler j, ev) ∈ J).
Proof.
  intros Hne. rewrite elem_of_app, elem_of_tag. split; [|auto].
  intros [H|[H _]]; [done|]. by injection H.
Qed.

Lemma journal_self (J : list (actor * event)) (i : nat) (t : list event)
    (ev : event) :
  (Handler i, ev) ∈ J ++ tag (Handler i) t <-> (Handler i, ev) ∈ J \/ ev ∈ t.
Proof. rewrite elem_of_app, elem_of_tag. tauto. Qed.

(** One resumption of invocation [i], given what it did: the new state
    of the invocation fits the new journal, and every id it marked was
    no one's before and is in the set now. *)
Lemma ledger_inv_resumed (M : manager) (s : system) (i : nat) (tk tk' : task)
    (w' : world) (t : list event) :
  ledger_inv M s ->
  tasks s !! i = Some tk ->
  processed_messages (shared s) ⊆ processed_messages w' ->
  task_status M (journal s ++ tag (Handler i) t) i tk' ->
  (forall m, EvMark m ∈ t ->
     m ∈ processed_messages w' /\ m ∉ processed_messages (shared s)) ->
  ledger_inv M {| shared := w'; main := main s;
                  tasks := <[ i := tk' ]> (tasks s);
                  journal := journal s ++ tag (Handler i) t |}.
Proof.
  intros [Ht Hb Hm Hu] Hi Hmono Hst Hnew.
  pose proof (lookup_lt_Some _ _ _ Hi) as Hlt.
  assert (forall j m, marked (journal s ++ tag (Handler i) t) j m ->
            marked (journal s) j m \/ (j = i /\ EvMark m ∈ t)) as Hmk.
  { intros j m. unfold marked. rewrite elem_of_app, elem_of_tag.
    intros [H|[H H']]; [by left|]. right. by injection H as ->. }
  split; simpl.
  - intros j tkj Hl. destruct (decide (j = i)) as [->|Hne].
    + rewrite list_lookup_insert_eq in Hl by done. by injection Hl as <-.
    + rewrite list_lookup_insert_ne in Hl by done.
      eapply task_status_ext; [|by apply Ht].
      intros ev. by apply journal_other.
  - intros j ev. rewrite length_insert, elem_of_app, elem_of_tag.
    intros [H|[H _]]; [by eapply Hb|]. by injection H as ->.
  - intros j m Hj. apply Hmk in Hj as [Hj|[-> Hj]].
    + apply Hm in Hj. exact (Hmono m Hj).
    + by apply Hnew.
  - intros a b m Ha Hb'. apply Hmk in Ha as [Ha|[-> Ha]];
      apply Hmk in Hb' as [Hb'|[-> Hb']].
    + by eapply Hu.
    + apply Hm in Ha. by apply Hnew in Hb' as [_ []].
    + apply Hm in Hb'. by apply Hnew in Ha as [_ []].
    + done.
Qed.

Lemma no_mark_in (t : list event) (m : Z) :
  Forall (fun ev => is_mark ev = false) t -> EvMark m ∉ t.
Proof.
  intros Hall Hin. rewrite Forall_forall in Hall.
  by specialize (Hall _ Hin).
Qed.

Lemma ledger_inv_task (E : env) (M : manager) (s : system) (i : nat) :
  ledger_inv M s -> ledger_inv M (sys_step E M s (RunTask i)).
Proof.
  intros Hinv. unfold sys_step. destruct (tasks s !! i) as [tk|] eqn:Hi; [|done].
  destruct (inv_tasks _ _ Hinv i tk Hi) as [[Hp Hn]|[[Hp Hn]|[Hp Hn]]].
  - (* the invocation has not been resumed yet *)
    rewrite Hp, resume_handle_new_message.
    destruct (bool_decide (task_message tk ∈ processed_messages (shared s)))
      eqn:Hseen.
    + apply ledger_inv_resumed with tk; try done.
      * right; left. split; [done|]. intros ev. rewrite journal_self.
        intros [H|H]; [by apply Hn in H|]. by apply list_elem_of_singleton in H.
      * intros m H. by apply list_elem_of_singleton in H.
    + apply bool_decide_eq_false in Hseen.
      pose proof (uses_advance (@sending) (fun ev => is_mark ev = false) E
                    (react_all M (task_message tk))
                    (perform E (Add (task_message tk)) (shared s)).1.2
                    (fun A o w0 => sending_no_mark E o w0)
                    (uses_react_all M (task_message tk))) as [Hu Hq].
      pose proof (advance_processed_mono E (react_all M (task_message tk))
                    (perform E (Add (task_message tk)) (shared s)).1.2) as Hmono.
      destruct (advance E (react_all M (task_message tk)) _) as [[p' w2] t2].
      simpl in Hu, Hq, Hmono.
      assert (forall m, EvMark m ∈ EvSleep (Uniform 1 3) :: EvMark (task_message tk) :: t2
                        -> m = task_message tk) as Hmk.
      { intros m H. apply elem_of_cons in H as [H|H]; [discriminate|].
        apply elem_of_cons in H as [H|H]; [by injection H|].
        by apply no_mark_in in H. }
      apply ledger_inv_resumed with tk; try done.
      * set_solver.
      * right; right. split; [done|]. intros m. unfold marked.
        rewrite journal_self. split.
        -- intros [H|H]; [by apply Hn in H|by apply Hmk].
        -- intros ->. right. apply elem_of_cons. right. apply elem_of_cons. by left.
      * intros m H. apply Hmk in H as ->. split; [set_solver|done].
  - (* it returned at the check *)
    rewrite Hp. cbn [resume].
    apply ledger_inv_resumed with (tk := tk) (t := []); try done.
    + right; left. split; [done|]. intros ev. rewrite journal_self.
      intros [H|H]; [by apply Hn|by apply elem_of_nil in H].
    + intros m H. by apply elem_of_nil in H.
  - (* it is dispatching *)
    pose proof (uses_resume (@sending) (fun ev => is_mark ev = false) E
                  (task_prog tk) (shared s)
                  (fun A o w0 => sending_no_mark E o w0) Hp) as [Hu Hq].
    pose proof (resume_processed_mono E (task_prog tk) (shared s)) as Hmono.
    destruct (resume E (task_prog tk) (shared s)) as [[p' w'] t].
    simpl in Hu, Hq, Hmono.
    apply ledger_inv_resumed with tk; try done.
    + right; right. split; [done|]. intros m. unfold marked.
      rewrite journal_self. simpl. rewrite <- Hn. unfold marked. split; [|auto].
      intros [H|H]; [done|]. by apply no_mark_in in H.
    + intros m H. by apply no_mark_in in H.
Qed.

Lemma ledger_inv_schedule (E : env) (M : manager) (sched : list step) (s : system) :
  ledger_inv M s -> ledger_inv M (run_schedule E M sched s).
Proof.
  revert s. induction sched as [|st sched IH]; intros s Hinv; [done|].
  simpl. apply IH. destruct st as [|i|c m].
  - by apply ledger_inv_main.
  - by apply ledger_inv_task.
  - by apply ledger_inv_deliver.
Qed.

(** C9. The check and the addition are one step for the event loop.
    Whatever the program of [run] is, whatever the network, the random
    generator and the order in which the event loop resumes the
    coroutines and takes in new messages: of two invocations of the
    message handler for the same message id, at most one gets past the
    check of [react_to_message] and does anything besides its initial
    jitter sleep. *)
Theorem concurrent_invocations_dispatch_once (E : env) (M : manager)
    (p : prog unit) (w : world) (sched : list step) (i j : nat) (ti tj : task) :
  let s := run_schedule E M sched (boot p w) in
  tasks s !! i = Some ti ->
  tasks s !! j = Some tj ->
  task_message ti = task_message tj ->
  i <> j ->
  ~ (worked s i /\ worked s j).
Proof.
  intros s Hi Hj Hsame Hne [Hwi Hwj].
  pose proof (ledger_inv_schedule E M sched (boot p w) (ledger_inv_boot M p w))
    as Hinv. fold s in Hinv.
  assert (forall k tk, tasks s !! k = Some tk -> worked s k ->
            marked (journal s) k (task_message tk)) as Hmarked.
  { intros k tk Hk (ev & Hin & Hev).
    destruct (inv_tasks _ _ Hinv k tk Hk) as [[_ Hn]|[[_ Hn]|[_ Hn]]].
    - by apply Hn in Hin.
    - by apply Hn in Hin.
    - by apply Hn. }
  apply Hne. apply (inv_unique _ _ Hinv i j (task_message ti)).
  - by apply Hmarked.
  - rewrite Hsame. by apply Hmarked.
Qed.

Lemma concurrent_invocations_witness :
  let s := run_schedule two_accounts_env (manager_of ["A"; "B"] ["+1"; "fire"])
             same_message_twice (boot (run ["+1"; "fire"]) fresh_world) in
  exists ti tj,
    tasks s !! 0%nat = Some ti
    /\ tasks s !! 1%nat = Some tj
    /\ task_message ti = task_message tj
    /\ 0%nat <> 1%nat
    /\ ~ (worked s 0 /\ worked s 1).
Proof.
  intros s.
  destruct (tasks s !! 0%nat) as [ti|] eqn:Hi.
  2:{ apply (f_equal (fmap task_message)) in Hi. vm_compute in Hi. discriminate Hi. }
  destruct (tasks s !! 1%nat) as [tj|] eqn:Hj.
  2:{ apply (f_equal (fmap task_message)) in Hj. vm_compute in Hj. discriminate Hj. }
  assert (task_message ti = task_message tj) as Hsame.
  { assert (task_message <$> tasks s !! 0%nat = Some 101) as Hmi
      by (vm_compute; reflexivity).
    assert (task_message <$> tasks s !! 1%nat = Some 101) as Hmj
      by (vm_compute; reflexivity).
    rewrite Hi in Hmi. rewrite Hj in Hmj. cbn in Hmi, Hmj. congruence. }
  exists ti, tj. split; [reflexivity|]. split; [reflexivity|].
  split; [exact Hsame|]. split; [discriminate|].
  exact (concurrent_invocations_dispatch_once two_accounts_env
           (manager_of ["A"; "B"] ["+1"; "fire"]) (run ["+1"; "fire"]) fresh_world
           same_message_twice 0 1 ti tj Hi Hj Hsame ltac:(discriminate)).
Defined.

(** In that run the first invocation dispatches and the second returns
    at the check. *)
Example same_message_twice_journal :
  journal (run_schedule two_accounts_env (manager_of ["A"; "B"] ["+1"; "fire"])
             same_message_twice (boot (run ["+1"; "fire"]) fresh_world))
  = [(Main, EvPrint LogProcessingOld);
     (Main, EvGetChatHistory "A" (Some (-100)) 100);
     (Main, EvPrint LogFinishedOld);
     (Main, EvOnMessage "A" (Some (-100)));
     (Main, EvOnMessage "B" (Some (-100)));
     (Main, EvPrint LogRunning);
     (Main, EvPrint LogPressCtrlC);
     (Handler 0, EvSleep (Uniform 1 3));
     (Handler 0, EvMark 101);
     (Handler 1, EvSleep (Uniform 1 3));
     (Handler 0, EvSend "A" (Some (-100)) 101 "+1" None)].
Proof. vm_compute. reflexivity. Qed.

(** ** The backlog pass comes first *)

Lemma registers_not_allowed {A : Type} (o : op A) :
  not_registering o = true -> phase_of o <> Registers.
Proof. destruct o; try done. simpl. by destruct l. Qed.

Lemma uses_guarded {R : Type} (p : prog R) :
  uses (@not_registering) p -> guarded p.
Proof.
  induction p as [r|e|A o k IH]; simpl; [done|done|].
  intros [Ho Hk]. apply registers_not_allowed in Ho.
  destruct (phase_of o); [done|done|]. intros a. by apply IH.
Qed.

Lemma guarded_bind {R S : Type} (p : prog R) (f : R -> prog S) :
  guarded p -> (forall r, guarded (f r)) -> guarded (bind p f).
Proof.
  intros Hp Hf. induction p as [r|e|A o k IH]; simpl; [apply Hf|done|].
  simpl in Hp. destruct (phase_of o); [done|done|]. intros a. by apply IH.
Qed.

Lemma finishing_guarded_bind {R S : Type} (p : prog R) (f : R -> prog S) :
  finishing p -> guarded (bind p f).
Proof.
  intros Hp. induction p as [r|e|A o k IH]; simpl; [done|done|].
  simpl in Hp. destruct (phase_of o); [done|done|]. intros a. by apply IH.
Qed.

Lemma finishing_bind {R S : Type} (p : prog R) (f : R -> prog S) :
  uses (@not_registering) p -> (forall r, finishing (f r)) ->
  finishing (bind p f).
Proof.
  intros Hp Hf. induction p as [r|e|A o k IH]; simpl; [apply Hf|done|].
  destruct Hp as [Ho Hk]. apply registers_not_allowed in Ho.
  destruct (phase_of o); [done|done|]. intros a. by apply IH.
Qed.

Lemma guarded_try_except_interrupt {R : Type} (p h : prog R) :
  guarded p -> guarded h -> guarded (try_except_interrupt p h).
Proof.
  intros Hp Hh. induction p as [r|e|A o k IH]; simpl; [done| |].
  - by destruct e.
  - simpl in Hp. destruct (phase_of o); [done|done|]. intros a. by apply IH.
Qed.

Lemma guarded_try_finally {R : Type} (p : prog R) (f : prog unit) :
  guarded p -> guarded f -> guarded (try_finally p f).
Proof.
  intros Hp Hf. induction p as [r|e|A o k IH]; cbn [try_finally].
  - by apply guarded_bind.
  - by apply guarded_bind.
  - simpl. simpl in Hp. destruct (phase_of o); [done|done|].
    intros a. by apply IH.
Qed.

Lemma dispatching_not_registering {A : Type} (o : op A) :
  dispatching o = true -> not_registering o = true.
Proof. by destruct o. Qed.

(** The backlog pass registers nothing and does not return before its
    closing line. *)
Lemma finishing_process_old_messages (M : manager) :
  finishing (process_old_messages M).
Proof.
  unfold process_old_messages.
  apply finishing_bind; [by apply uses_call|]. intros _.
  apply finishing_bind; [|done].
  apply uses_try_except; [|intros; by apply uses_call].
  destruct (clients M) as [|c cs]; [done|].
  apply uses_bind; [by apply uses_call|]. intros _.
  eapply uses_mono; [|apply uses_history_loop].
  intros A. apply dispatching_not_registering.
Qed.

Lemma guarded_run (V : list string) : guarded (run V).
Proof.
  unfold run. apply guarded_bind; [done|]. intros init.
  apply guarded_try_finally.
  - apply guarded_try_except_interrupt; [|done].
    destruct (init_return init) as [[|]|e]; [|done|done].
    cbn [clients]. destruct (init_clients init) as [|c cs]; [done|].
    unfold serve. apply finishing_guarded_bind, finishing_process_old_messages.
  - apply uses_guarded, uses_for_each. intros c.
    unfold stop. apply uses_bind; [by apply uses_call|]. by intros [e|].
Qed.

Lemma perform_neither (E : env) {A : Type} (o : op A) (w : world) :
  phase_of o = Neither ->
  Forall early (perform E o w).2 /\ handlers (perform E o w).1.2 = handlers w.
Proof.
  destruct o; simpl; try done; intros H; split; try done;
    repeat constructor; try done.
  by destruct l.
Qed.

Lemma perform_finishes (E : env) {A : Type} (o : op A) (w : world) :
  phase_of o = Finishes -> (perform E o w).2 = [EvPrint LogFinishedOld].
Proof. destruct o; simpl; try done. by destruct l. Qed.

Lemma phase_step_after (w w1 : world) {R : Type} (p' : prog R) (w' : world)
    (t0 t : list event) :
  Forall early t0 -> handlers w1 = handlers w ->
  phase_step w1 p' w' t -> phase_step w p' w' (t0 ++ t).
Proof.
  intros H0 Hw [(Ht & Hh & Hg)|(t1 & t2 & -> & Ht1)].
  - left. split; [by apply Forall_app|]. split; [congruence|done].
  - right. exists (t0 ++ t1), t2. split; [by rewrite app_assoc|].
    by apply Forall_app.
Qed.

Lemma advance_guarded (E : env) {R : Type} (p : prog R) (w : world) :
  guarded p ->
  let '(p', w', t) := advance E p w in phase_step w p' w' t.
Proof.
  revert w. induction p as [r|e|A o k IH]; intros w Hp; cbn [advance].
  - left. by repeat split.
  - left. by repeat split.
  - destruct (suspends o); [left; by repeat split|].
    simpl in Hp.
    pose proof (perform_neither E o w) as Hn.
    pose proof (perform_finishes E o w) as Hf.
    destruct (phase_of o); [| done |].
    + destruct (perform E o w) as [[a w1] t1]. simpl in Hf. rewrite (Hf eq_refl).
      destruct (advance E (k a) w1) as [[p' w2] t2].
      right. by exists [], t2.
    + destruct (perform E o w) as [[a w1] t1]. simpl in Hn.
      destruct (Hn eq_refl) as [Hq Hh]. specialize (IH a w1 (Hp a)).
      destruct (advance E (k a) w1) as [[p' w2] t2].
      by eapply phase_step_after.
Qed.

Lemma resume_guarded (E : env) {R : Type} (p : prog R) (w : world) :
  guarded p ->
  let '(p', w', t) := resume E p w in phase_step w p' w' t.
Proof.
  intros Hp. destruct p as [r|e|A o k]; cbn [resume].
  - left. by repeat split.
  - left. by repeat split.
  - simpl in Hp.
    pose proof (perform_neither E o w) as Hn.
    pose proof (perform_finishes E o w) as Hf.
    destruct (phase_of o); [| done |].
    + destruct (perform E o w) as [[a w1] t1]. simpl in Hf. rewrite (Hf eq_refl).
      destruct (advance E (k a) w1) as [[p' w2] t2].
      right. by exists [], t2.
    + destruct (perform E o w) as [[a w1] t1]. simpl in Hn.
      destruct (Hn eq_refl) as [Hq Hh].
      pose proof (advance_guarded E (k a) w1 (Hp a)) as Ha.
      destruct (advance E (k a) w1) as [[p' w2] t2].
      by eapply phase_step_after.
Qed.

Lemma ordered_from_true (J : list (actor * event)) : ordered_from true J.
Proof. induction J as [|x J IH]; simpl; [done|]. by split. Qed.

Lemma finished_app (J T : list (actor * event)) :
  finished (J ++ T) = finished J || finished T.
Proof. apply existsb_app. Qed.

Lemma ordered_from_app (b : bool) (J T : list (actor * event)) :
  ordered_from b (J ++ T) <->
  ordered_from b J /\ ordered_from (b || finished J) T.
Proof.
  revert b. induction J as [|x J IH]; intros b; simpl.
  - rewrite orb_false_r. tauto.
  - rewrite IH, orb_assoc. tauto.
Qed.

Lemma ordered_from_early (b : bool) (t : list event) :
  Forall early t ->
  ordered_from b (tag Main t) /\ finished (tag Main t) = false.
Proof.
  revert b. induction t as [|ev t IH]; intros b Ht; [done|].
  apply Forall_cons in Ht as [[Hr Hc] Ht]. simpl.
  destruct (IH (b || is_finished (Main, ev)) Ht) as [IH1 IH2].
  split; [split; [by rewrite Hr|done]|].
  rewrite IH2, orb_false_r. exact Hc.
Qed.

Lemma ordered_from_split (b : bool) (l1 l2 : list (actor * event))
    (x : actor * event) :
  ordered_from b (l1 ++ x :: l2) -> is_live x = true ->
  b = true \/ finished l1 = true.
Proof.
  rewrite ordered_from_app. simpl. intros (_ & Hx & _) Hlive.
  apply Hx in Hlive. apply orb_true_iff in Hlive. tauto.
Qed.

Lemma finished_elem_of (J : list (actor * event)) :
  finished J = true -> (Main, EvPrint LogFinishedOld) ∈ J.
Proof.
  unfold finished. rewrite existsb_exists. intros ([a ev] & Hin & Hx).
  apply list_elem_of_In in Hin.
  destruct a; [|done]. destruct ev; try done. by destruct l.
Qed.

Lemma backlog_inv_boot (V : list string) :
  backlog_inv (boot (run V) fresh_world).
Proof.
  split; simpl; [done|]. right. split; [apply guarded_run|done].
Qed.

(** Once the closing line is in the journal, anything may follow. *)
Lemma backlog_inv_finished (s : system) (w' : world) (p' : prog unit)
    (ts : list task) (T : list (actor * event)) :
  backlog_inv s -> finished (journal s) = true ->
  backlog_inv {| shared := w'; main := p'; tasks := ts;
                 journal := journal s ++ T |}.
Proof.
  intros [Ho _] Hf. split; simpl.
  - apply ordered_from_app. split; [done|]. rewrite Hf. apply ordered_from_true.
  - left. by rewrite finished_app, Hf.
Qed.

Lemma backlog_inv_step (E : env) (M : manager) (s : system) (st : step) :
  backlog_inv s -> backlog_inv (sys_step E M s st).
Proof.
  intros Hinv. destruct st as [|i|c m]; unfold sys_step.
  - destruct (inv_phase _ Hinv) as [Hf|(Hg & Hh & Ht)].
    + destruct (resume E (main s) (shared s)) as [[p' w'] t].
      by apply backlog_inv_finished.
    + pose proof (resume_guarded E (main s) (shared s) Hg) as Hstep.
      destruct (resume E (main s) (shared s)) as [[p' w'] t].
      destruct Hstep as [(Hq & Hh' & Hg')|(t1 & t2 & -> & Hq)].
      * destruct (ordered_from_early (false || finished (journal s)) t Hq)
          as [Ho Hnf].
        split; simpl.
        -- apply ordered_from_app. split; [apply (inv_ordered _ Hinv)|done].
        -- right. split; [done|]. split; [congruence|done].
      * split; simpl.
        -- apply ordered_from_app. split; [apply (inv_ordered _ Hinv)|].
           unfold tag. rewrite map_app. apply ordered_from_app.
           split; [by apply ordered_from_early|].
           simpl. split; [done|]. rewrite orb_true_r. apply ordered_from_true.
        -- left. unfold tag. rewrite finished_app, map_app, finished_app. simpl.
           by rewrite !orb_true_r.
  - destruct (tasks s !! i) as [tk|] eqn:Hi; [|done].
    destruct (inv_phase _ Hinv) as [Hf|(_ & _ & Ht)].
    + destruct (resume E (task_prog tk) (shared s)) as [[p' w'] t].
      by apply backlog_inv_finished.
    + by rewrite Ht in Hi.
  - destruct (inv_phase _ Hinv) as [Hf|(Hg & Hh & Ht)].
    + split; simpl; [apply (inv_ordered _ Hinv)|by left].
    + split; simpl; [apply (inv_ordered _ Hinv)|]. right.
      split; [done|]. split; [done|]. unfold spawned. by rewrite Hh, Ht.
Qed.

Lemma backlog_inv_schedule (E : env) (M : manager) (sched : list step)
    (s : system) :
  backlog_inv s -> backlog_inv (run_schedule E M sched s).
Proof.
  revert s. induction sched as [|st sched IH]; intros s Hinv; [done|].
  simpl. by apply IH, backlog_inv_step.
Qed.

(** C5. The backlog pass comes before anything live.  From the start of
    the process, whatever the network does and in whatever order the
    event loop resumes the coroutines and takes in new messages: every
    registration of a message handler and every action of an invocation
    of a handler (its jitter sleep included, so every dispatch of a
    message seen live) stands in the journal after the line that closes
    the backlog pass. *)
Theorem backlog_before_live (E : env) (M : manager) (V : list string)
    (sched : list step) (l1 l2 : list (actor * event)) (x : actor * event) :
  journal (run_schedule E M sched (boot (run V) fresh_world)) = l1 ++ x :: l2 ->
  is_live x = true ->
  (Main, EvPrint LogFinishedOld) ∈ l1.
Proof.
  intros HJ Hlive.
  pose proof (backlog_inv_schedule E M sched _ (backlog_inv_boot V)) as Hinv.
  pose proof (inv_ordered _ Hinv) as Ho. rewrite HJ in Ho.
  destruct (ordered_from_split false l1 l2 x Ho Hlive) as [Hb|Hf]; [done|].
  by apply finished_elem_of.
Qed.

Lemma backlog_before_live_witness :
  let l1 := [(Main, EvPrint LogProcessingOld);
             (Main, EvGetChatHistory "A" (Some (-100)) 100);
             (Main, EvPrint LogFinishedOld);
             (Main, EvOnMessage "A" (Some (-100)));
             (Main, EvOnMessage "B" (Some (-100)));
             (Main, EvPrint LogRunning);
             (Main, EvPrint LogPressCtrlC)] in
  let x := (Handler 0, EvSleep (Uniform 1 3)) in
  let l2 := [(Handler 0, EvMark 101);
             (Handler 1, EvSleep (Uniform 1 3));
             (Handler 0, EvSend "A" (Some (-100)) 101 "+1" None)] in
  journal (run_schedule two_accounts_env (manager_of ["A"; "B"] ["+1"; "fire"])
             same_message_twice (boot (run ["+1"; "fire"]) fresh_world))
    = l1 ++ x :: l2
  /\ is_live x = true
  /\ (Main, EvPrint LogFinishedOld) ∈ l1.
Proof.
  intros l1 x l2.
  assert (journal (run_schedule two_accounts_env
                     (manager_of ["A"; "B"] ["+1"; "fire"])
                     same_message_twice (boot (run ["+1"; "fire"]) fresh_world))
          = l1 ++ x :: l2) as HJ by (vm_compute; reflexivity).
  split; [exact HJ|]. split; [reflexivity|].
  exact (backlog_before_live two_accounts_env
           (manager_of ["A"; "B"] ["+1"; "fire"]) ["+1"; "fire"]
           same_message_twice l1 l2 x HJ eq_refl).
Defined.

(** * The bootstrap and its place in [run] *)

Set Warnings "-clear-no-such-hyp".

(** ** The bootstrap: composing steps *)

Lemma triple_ret {R : Type} (P : boot_state -> list boot_event -> Prop) (r : R)
    (Q : result R -> boot_state -> list boot_event -> Prop) :
  (forall s T, P s T -> Q (Normal r) s T) -> triple P (bret r) Q.
Proof. intros H s T HP. simpl. rewrite app_nil_r. by apply H. Qed.

Lemma triple_bind {R S : Type} (P : boot_state -> list boot_event -> Prop)
    (p : setup R) (Q1 : result R -> boot_state -> list boot_event -> Prop)
    (f : R -> setup S) (Q2 : result S -> boot_state -> list boot_event -> Prop) :
  triple P p Q1 ->
  (forall r, triple (Q1 (Normal r)) (f r) Q2) ->
  (forall e s T, Q1 (Raised e) s T -> Q2 (Raised e) s T) ->
  triple P (bbind p f) Q2.
Proof.
  intros Hp Hf He s T HP. unfold bbind. specialize (Hp s T HP).
  destruct (p s) as [[[r|e] s1] t1].
  - specialize (Hf r s1 (T ++ t1) Hp).
    destruct (f r s1) as [[r2 s2] t2]. by rewrite app_assoc.
  - by apply He.
Qed.

Lemma triple_print (P : boot_state -> list boot_event -> Prop) (l : boot_log)
    (Q : result unit -> boot_state -> list boot_event -> Prop) :
  (forall s T, P s T -> Q (Normal tt) s (T ++ [BPrint l])) ->
  triple P (bprint l) Q.
Proof. intros H s T HP. simpl. by apply H. Qed.

Lemma started_app (T1 T2 : list boot_event) :
  started (T1 ++ T2) = started T1 ++ started T2.
Proof. apply omap_app. Qed.

Lemma channels_app (T1 T2 : list boot_event) :
  channels (T1 ++ T2) = channels T1 ++ channels T2.
Proof. apply omap_app. Qed.

Lemma logins_app (T1 T2 : list boot_event) :
  logins (T1 ++ T2) = logins T1 ++ logins T2.
Proof. apply omap_app. Qed.

Lemma failures_app (T1 T2 : list boot_event) :
  failures (T1 ++ T2) = failures T1 ++ failures T2.
Proof. apply omap_app. Qed.

(** ** Resolving the channel *)

(** [get_channel_id] leaves the manager as it is and logs no session in. *)
Lemma get_channel_id_frame (B : bootstrap) (c : client) (s : boot_state) :
  let '(r, s', t) := get_channel_id B c s in
  s' = s /\ started t = [] /\ channels t = [] /\ logins t = []
  /\ (forall e, r <> Raised (Error e))
  /\ (forall e, r = Raised e -> exists h, t = [BGetChat c h (Some e)])
  /\ failures t = [].
Proof.
  unfold get_channel_id, btry_except, bbind, get_chat, int_channel, bprint, bret, braise.
  destruct (channel B) as [h|].
  - destruct (String.prefix "@" h).
    + destruct (get_chat_result B c h) as [id|[e| |]]; split_and!; try done;
        intros e' He'; injection He' as <-; by exists h.
    + destruct (int_of_channel B) as [z|e]; by split_and!.
  - destruct (int_of_channel B) as [z|e]; by split_and!.
Qed.

(** X4. [get_channel_id] contains every error: it never raises an
    [Exception]; it returns [None] exactly when it has printed the error
    of the resolution; and it asks the network about the channel only
    when the configured channel is a string that starts with [@] (for
    any other value the result is [int(self.channel)], with no call). *)
Theorem get_channel_id_contains_errors (B : bootstrap) (c : client)
    (s : boot_state) :
  let '(r, s', t) := get_channel_id B c s in
  s' = s
  /\ (forall e, r <> Raised (Error e))
  /\ (r = Normal None <-> exists e, BPrint (BLogResolveError e) ∈ t)
  /\ match channel B with
     | ChanStr h =>
         if String.prefix "@" h
         then exists f, t = [BGetChat c h f]
                        \/ exists e, t = [BGetChat c h f; BPrint (BLogResolveError e)]
         else forall c' h' f, BGetChat c' h' f ∉ t
     | ChanNonStr => forall c' h' f, BGetChat c' h' f ∉ t
     end
  /\ ((forall h, channel B = ChanStr h -> String.prefix "@" h = false) ->
      match int_of_channel B with
      | inl z => r = Normal (Some z) /\ t = []
      | inr e => r = Normal None /\ t = [BPrint (BLogResolveError e)]
      end).
Proof.
  unfold get_channel_id, btry_except, bbind, get_chat, int_channel, bprint, bret, braise.
  destruct (channel B) as [h|].
  - destruct (String.prefix "@" h) eqn:Hh.
    + destruct (get_chat_result B c h) as [id|[e| |]]; cbn;
        (split_and!; try done;
         [ repeat setoid_rewrite elem_of_cons; setoid_rewrite elem_of_nil;
           naive_solver
         | eexists; (by left) || (right; by eexists)
         | intros H; by rewrite (H h eq_refl) in Hh ]).
    + destruct (int_of_channel B) as [z|e]; cbn;
        (split_and!; try done;
         repeat setoid_rewrite elem_of_cons; try setoid_rewrite elem_of_nil;
         naive_solver).
  - destruct (int_of_channel B) as [z|e]; cbn;
      (split_and!; try done;
       repeat setoid_rewrite elem_of_cons; try setoid_rewrite elem_of_nil;
       naive_solver).
Qed.

(** ** The bootstrap keeps its books *)

Lemma started_print (T : list boot_event) (l : boot_log) :
  started (T ++ [BPrint l]) = started T.
Proof. by rewrite started_app, app_nil_r. Qed.

Lemma channels_print (T : list boot_event) (l : boot_log) :
  channels (T ++ [BPrint l]) = channels T.
Proof. by rewrite channels_app, app_nil_r. Qed.

Lemma boot_inv_ext (s : boot_state) (T T' : list boot_event) :
  started T' = started T -> channels T' = channels T ->
  boot_inv s T -> boot_inv s T'.
Proof. unfold boot_inv. by intros -> ->. Qed.

Lemma boot_failed_ext (s : boot_state) (T T' : list boot_event) :
  started T' = started T -> channels T' = channels T ->
  boot_failed s T -> boot_failed s T'.
Proof. unfold boot_failed. by intros -> ->. Qed.

Lemma boot_raised_ext (e : exn) (s : boot_state) (T t : list boot_event) :
  started t = [] -> channels t = [] ->
  boot_raised e s T -> boot_raised e s (T ++ t).
Proof.
  intros Hs Hc [Hinv|(Hne & c & h & H1 & H2 & H3 & H4 & H5)].
  - left. eapply boot_inv_ext; [| |done].
    + by rewrite started_app, Hs, app_nil_r.
    + by rewrite channels_app, Hc, app_nil_r.
  - right. split; [done|]. exists c, h.
    rewrite started_app, channels_app, Hs, Hc, !app_nil_r.
    split_and!; try done. apply elem_of_app. by left.
Qed.

Lemma triple_start (B : bootstrap) (c : client) :
  triple boot_inv (start_and_append B c)
    (fun r s T => match r with
                  | Normal _ => boot_mid c s T
                  | Raised e => boot_raised e s T
                  end).
Proof.
  intros s T [Hc Hch]. unfold start_and_append.
  destruct (start_result B (bs_starts s) c) as [e|].
  - left. split; cbn.
    + by rewrite started_app, app_nil_r.
    + by rewrite channels_app, app_nil_r.
  - split; cbn.
    + by rewrite started_app, Hc.
    + rewrite channels_app, app_nil_r. destruct (bs_channel_id s) as [z|].
      * destruct Hch as (c0 & rest & -> & Hch). by exists c0, (rest ++ [c]).
      * destruct Hch as [-> Hch]. done.
Qed.

Lemma triple_ensure (B : bootstrap) (c : client) (announce : bool) :
  triple (boot_mid c) (ensure_channel B c announce) boot_post.
Proof.
  intros s T [Hc Hch]. unfold ensure_channel.
  destruct (bs_channel_id s) as [z|] eqn:Hz.
  - cbn. rewrite app_nil_r. split; [done|]. by rewrite Hz.
  - destruct Hch as [Hone Hch]. unfold bbind, resolve_channel.
    pose proof (get_channel_id_frame B c s) as Hf.
    destruct (get_channel_id B c s) as [[[[z|]|e] s1] t1];
      destruct Hf as (-> & Hs & Hcs & _ & Hne & Hr & _).
    + cbn. split; cbn.
      * by rewrite !started_app, Hs, !app_nil_r.
      * exists c, []. by rewrite !channels_app, Hch, Hcs.
    + assert (boot_failed
                {| bs_clients := bs_clients s; bs_channel_id := None;
                   bs_starts := bs_starts s; bs_answers := bs_answers s |}
                (T ++ t1 ++ [BChannel c None])) as Hfail.
      { exists c. cbn. rewrite !started_app, !channels_app, Hs, Hcs, Hch, <- Hc.
        by rewrite !app_nil_r. }
      destruct announce; cbn.
      * eapply boot_failed_ext; [| |exact Hfail].
        -- rewrite !started_app. cbn. by rewrite !app_nil_r.
        -- rewrite !channels_app. cbn. by rewrite !app_nil_r.
      * by rewrite !app_nil_r.
    + destruct (Hr e eq_refl) as [h ->]. right. split.
      { intros x ->. by apply (Hne x). }
      exists c, h.
      rewrite started_app, channels_app, Hch, <- Hc. cbn. rewrite app_nil_r.
      split_and!; try done. apply elem_of_app. right. by apply list_elem_of_singleton.
Qed.

Lemma boot_mid_print (c : client) (l : boot_log) (s : boot_state)
    (T : list boot_event) :
  boot_mid c s T -> boot_mid c s (T ++ [BPrint l]).
Proof. unfold boot_mid. by rewrite started_print, channels_print. Qed.

(** Logging a session in, announcing it and making sure the channel is
    known: the common part of the two loops. *)
Lemma triple_login (B : bootstrap) (c : client) (l : boot_log) (announce : bool) :
  triple boot_inv
    (start_and_append B c ;;; bprint l ;;; ensure_channel B c announce)
    boot_post.
Proof.
  eapply triple_bind; [apply triple_start| |done].
  intros []. eapply triple_bind with
    (Q1 := fun r s T => match r with
                        | Normal _ => boot_mid c s T
                        | Raised _ => False
                        end).
  - apply triple_print. intros s T. apply boot_mid_print.
  - intros []. apply triple_ensure.
  - done.
Qed.

Lemma triple_load_session (B : bootstrap) (session_file : string) :
  triple boot_inv (load_session B session_file) boot_post.
Proof.
  unfold load_session. destruct (endswith session_file ".session").
  - apply triple_login.
  - by apply triple_ret.
Qed.

Lemma triple_load_sessions (B : bootstrap) (files : list string) :
  triple boot_inv (load_sessions B files) boot_post.
Proof.
  induction files as [|f files IH]; cbn [load_sessions].
  - by apply triple_ret.
  - eapply triple_bind; [apply triple_load_session| |done].
    intros [| |b]; [exact IH|by apply triple_ret..].
Qed.

Lemma triple_input (B : bootstrap) :
  triple boot_inv (input B) (fun _ s T => boot_inv s T).
Proof.
  intros s T Hinv. unfold input.
  destruct (bs_answers s) as [|[line|e] rest];
    (eapply boot_inv_ext; [| |exact Hinv]);
    by rewrite ?started_app, ?channels_app, ?app_nil_r.
Qed.

Lemma triple_add_account_body (B : bootstrap) :
  triple boot_inv (add_account_body B) boot_body.
Proof.
  intros s T Hinv. unfold add_account_body.
  refine (triple_bind boot_inv _ (fun _ s T => boot_inv s T) _ boot_body
            _ _ _ s T Hinv).
  - destruct (bs_clients s).
    + eapply triple_bind with (Q1 := fun _ s T => boot_inv s T).
      * apply triple_print. intros s0 T0 H0.
        eapply boot_inv_ext; [| |exact H0];
          by rewrite ?started_print, ?channels_print.
      * intros []. by apply triple_ret.
      * done.
    + eapply triple_bind; [apply triple_input| |done].
      intros line. by apply triple_ret.
  - intros add_account. destruct (negb (String.eqb add_account "y")).
    + by apply triple_ret.
    + intros s1 T1 H1. cbv zeta.
      pose proof (triple_login B
                    (session_client ("account_" ++ pretty (S (length (bs_clients s1)))))
                    (BLogAdded (S (length (bs_clients s1)))) false s1 T1 H1) as Hl.
      destruct (bbind (start_and_append B _) _ s1) as [[[[| |b]|e] s2] t2]; done.
  - intros e s0 T0 H0. by left.
Qed.

Lemma triple_add_account_turn (B : bootstrap) :
  triple boot_inv (add_account_turn B) boot_turn.
Proof.
  intros s T Hinv. unfold add_account_turn, btry_except, btry_interrupt.
  pose proof (triple_add_account_body B s T Hinv) as Hbody.
  destruct (add_account_body B s) as [[[ctl|[e| |]] s1] t1]; cbn.
  - destruct ctl; [done|by left|done].
  - destruct Hbody as [Hb|[Hne _]]; [|by destruct (Hne e)].
    left. eapply boot_inv_ext; [| |exact Hb];
      by rewrite !app_assoc, ?started_print, ?channels_print, ?app_nil_r.
  - by rewrite app_nil_r.
  - done.
Qed.

Lemma triple_add_accounts (B : bootstrap) (fuel : nat) :
  triple boot_inv (add_accounts B fuel) boot_loop.
Proof.
  induction fuel as [|fuel IH]; cbn [add_accounts].
  - by apply triple_ret.
  - eapply triple_bind; [apply triple_add_account_turn| |done].
    intros [| |b]; [exact IH|by apply triple_ret..].
Qed.

Lemma triple_initialize_clients_from (B : bootstrap) :
  triple boot_inv (initialize_clients_from B) boot_end.
Proof.
  unfold initialize_clients_from.
  eapply triple_bind with (Q1 := fun _ s T => boot_inv s T).
  { intros s T Hinv. destruct (makedirs_result B);
      (eapply boot_inv_ext; [| |exact Hinv]);
      by rewrite ?started_app, ?channels_app, ?app_nil_r. }
  2: { intros e s T H. by left. }
  intros _. eapply triple_bind with (Q1 := boot_post).
  { destruct (sessions_exists B); [|by apply triple_ret].
    eapply triple_bind with (Q1 := fun _ s T => boot_inv s T).
    - intros s T Hinv. destruct (listdir_result B);
        (eapply boot_inv_ext; [| |exact Hinv]);
        by rewrite ?started_app, ?channels_app, ?app_nil_r.
    - intros files. apply triple_load_sessions.
    - intros e s T H. by left. }
  2: done.
  intros [| |[|]]; try (by apply triple_ret); [|by intros s T []].
  intros s T Hinv.
  refine (triple_bind boot_inv _ boot_loop _ boot_end _ _ _ s T Hinv).
  - apply triple_add_accounts.
  - intros [[| |[|]]|]; try (by apply triple_ret).
    + by intros s1 T1 H1.
    + intros s1 T1 H1. cbn. apply boot_raised_ext; [done..|]. exact H1.
  - by intros e s0 T0 [_ H].
Qed.

(** ** The prompt loop ends *)

Lemma ensure_channel_state (B : bootstrap) (c : client) (announce : bool)
    (s : boot_state) :
  let '(r, s', t) := ensure_channel B c announce s in
  bs_clients s' = bs_clients s /\ bs_answers s' = bs_answers s
  /\ bs_starts s' = bs_starts s /\ logins t = [] /\ failures t = []
  /\ (forall e, r <> Raised (Error e))
  /\ r <> Normal Break /\ r <> Normal (Return true).
Proof.
  unfold ensure_channel. destruct (bs_channel_id s); [done|].
  unfold bbind, resolve_channel.
  pose proof (get_channel_id_frame B c s) as Hf.
  destruct (get_channel_id B c s) as [[[[z|]|e] s1] t1];
    destruct Hf as (-> & _ & _ & Hl & Hne & _ & Hfl).
  - cbn. by rewrite !logins_app, !failures_app, Hl, Hfl.
  - destruct announce; cbn; by rewrite !logins_app, !failures_app, Hl, Hfl.
  - split_and!; try done. intros x Hx. injection Hx as ->. by apply (Hne x).
Qed.

(** What a login does to the manager: a session whose [start] fails is
    not kept and nothing follows; a session that starts is kept, whatever
    the lookup of the channel gives. *)
Lemma login_state (B : bootstrap) (c : client) (l : boot_log) (announce : bool)
    (s : boot_state) :
  let '(r, s', t) :=
    (start_and_append B c ;;; bprint l ;;; ensure_channel B c announce) s in
  bs_answers s' = bs_answers s
  /\ bs_starts s' = S (bs_starts s)
  /\ match start_result B (bs_starts s) c with
     | Some e => r = Raised e /\ bs_clients s' = bs_clients s
                 /\ t = [BStart c (Some e)]
     | None => bs_clients s' = bs_clients s ++ [c]
               /\ (exists t', t = BStart c None :: BPrint l :: t'
                               /\ logins t' = [] /\ failures t' = [])
               /\ (forall x, r <> Raised (Error x))
               /\ r <> Normal Break /\ r <> Normal (Return true)
     end.
Proof.
  unfold bbind at 1. unfold start_and_append.
  destruct (start_result B (bs_starts s) c) as [e|]; [done|].
  unfold bbind, bprint.
  match goal with
  | |- context [ensure_channel B c announce ?s1] =>
      pose proof (ensure_channel_state B c announce s1) as He;
      destruct (ensure_channel B c announce s1) as [[r s2] t2]
  end.
  destruct He as (Hc & Ha & Hs & Hl & Hfl & Hne & Hb & Hr). cbn in *.
  split_and!; try done. by exists t2.
Qed.

(** A turn that lets the loop go on has logged a new session in, under
    the next number, and has read a line unless no session was open. *)
Lemma add_account_turn_continue (B : bootstrap) (s : boot_state) :
  let '(r, s', t) := add_account_turn B s in
  r = Normal Continue ->
  bs_clients s' = bs_clients s ++ [account_path (S (length (bs_clients s)))]
  /\ match bs_clients s with
     | [] => bs_answers s' = bs_answers s
     | _ :: _ => exists line, bs_answers s = InputLine line :: bs_answers s'
     end.
Proof.
  unfold add_account_turn, btry_except, btry_interrupt, add_account_body.
  unfold bbind at 1.
  destruct (bs_clients s) as [|c0 cs] eqn:Hcs.
  - cbn.
    match goal with
    | |- context [bbind (start_and_append B ?c) (fun _ => bbind (bprint ?l) ?k) s] =>
        pose proof (login_state B c l false s) as Hl;
        destruct (bbind (start_and_append B c) (fun _ => bbind (bprint l) k) s)
          as [[r s2] t2]
    end.
    destruct Hl as (Ha & _ & Hr).
    destruct (start_result B _ _) as [e|].
    { by destruct Hr as (-> & _); destruct e. }
    destruct Hr as (Hr & _ & Hne & Hb & _).
    destruct r as [[| |[|]]|[e| |]]; try done. rewrite Hcs in Hr. by intros _.
  - unfold bbind at 1. unfold input.
    destruct (bs_answers s) as [|[line|[e| |]] rest] eqn:Has; try done.
    cbn. destruct (String.eqb (lower line) "y"); [|done]. cbn.
    match goal with
    | |- context [bbind (start_and_append B ?c) (fun _ => bbind (bprint ?l) ?k) ?s1] =>
        pose proof (login_state B c l false s1) as Hl;
        destruct (bbind (start_and_append B c) (fun _ => bbind (bprint l) k) s1)
          as [[r s2] t2]
    end.
    destruct Hl as (Ha & _ & Hr). cbn in *.
    destruct (start_result B _ _) as [e|].
    { by destruct Hr as (-> & _); destruct e. }
    destruct Hr as (Hr & _ & Hne & Hb & _).
    destruct r as [[| |[|]]|[e| |]]; try done.
    intros _. split; [by rewrite Hr, Hcs|]. exists line. by rewrite Ha.
Qed.

Lemma add_accounts_ends (B : bootstrap) (fuel : nat) (s : boot_state) :
  (turns_needed s <= fuel)%nat ->
  (add_accounts B fuel s).1.1 <> Normal None.
Proof.
  revert s. induction fuel as [|fuel IH]; intros s Hfuel.
  { unfold turns_needed in Hfuel. destruct (bs_clients s); lia. }
  cbn [add_accounts]. unfold bbind.
  pose proof (add_account_turn_continue B s) as Hturn.
  destruct (add_account_turn B s) as [[[[| |b]|e] s1] t1]; try done.
  destruct (Hturn eq_refl) as [Hc Ha].
  assert (turns_needed s1 <= fuel)%nat as Hfuel1.
  { unfold turns_needed in Hfuel |- *. rewrite Hc.
    destruct (bs_clients s) as [|c0 cs]; cbn.
    - rewrite Ha. lia.
    - destruct Ha as [line Ha]. rewrite Ha in Hfuel. cbn in Hfuel. lia. }
  specialize (IH s1 Hfuel1).
  by destruct (add_accounts B fuel s1) as [[r2 s2] t2].
Qed.

Lemma add_accounts_more_fuel (B : bootstrap) (fuel fuel' : nat) (s : boot_state) :
  (add_accounts B fuel s).1.1 <> Normal None ->
  (fuel <= fuel')%nat ->
  add_accounts B fuel' s = add_accounts B fuel s.
Proof.
  revert fuel' s. induction fuel as [|fuel IH]; intros fuel' s Hend Hle; [done|].
  destruct fuel' as [|fuel']; [lia|].
  cbn [add_accounts] in *. unfold bbind in *.
  destruct (add_account_turn B s) as [[[[| |b]|e] s1] t1]; try done.
  rewrite (IH fuel' s1); [done| |lia].
  by destruct (add_accounts B fuel s1) as [[r2 s2] t2].
Qed.

Lemma add_accounts_fuel (B : bootstrap) (fuel : nat) (s : boot_state) :
  (turns_needed s <= fuel)%nat ->
  add_accounts B fuel s = add_accounts B (turns_needed s) s.
Proof.
  intros Hfuel. apply add_accounts_more_fuel; [|done].
  by apply add_accounts_ends.
Qed.

Lemma turns_needed_le (s : boot_state) :
  (turns_needed s <= S (S (length (bs_answers s))))%nat.
Proof. unfold turns_needed. destruct (bs_clients s); lia. Qed.

(** ** What [initialize_clients] leaves behind *)

Lemma boot_inv_start (B : bootstrap) : boot_inv (boot_start B) [].
Proof. by split. Qed.

Lemma initialize_clients_end (B : bootstrap) :
  let '(r, s, T) := initialize_clients B in boot_end r s T.
Proof.
  exact (triple_initialize_clients_from B (boot_start B) [] (boot_inv_start B)).
Qed.

Lemma elem_of_channels (T : list boot_event) (c : client) (r : option Z) :
  BChannel c r ∈ T <-> (c, r) ∈ channels T.
Proof.
  unfold channels. rewrite list_elem_of_omap. split.
  - intros H. by exists (BChannel c r).
  - intros (ev & Hev & Heq). destruct ev; try done. by injection Heq as -> ->.
Qed.

(** X5. The books of the bootstrap.  However [initialize_clients] ends
    (with [True], with [False] or with an exception), [self.clients]
    holds exactly the sessions whose [start()] succeeded, in that order;
    the channel was looked for at most once, by the first of these
    sessions, and [self.channel_id] is what that lookup gave. *)
Theorem initialize_clients_books (B : bootstrap) :
  let '(r, s, T) := initialize_clients B in
  bs_clients s = started T
  /\ match channels T with
     | [] => bs_channel_id s = None
     | [(c, resolved)] =>
         bs_channel_id s = resolved /\ head (bs_clients s) = Some c
     | _ => False
     end.
Proof.
  pose proof (initialize_clients_end B) as Hend.
  destruct (initialize_clients B) as [[r s] T].
  assert (boot_inv s T ->
          bs_clients s = started T
          /\ match channels T with
             | [] => bs_channel_id s = None
             | [(c, resolved)] =>
                 bs_channel_id s = resolved /\ head (bs_clients s) = Some c
             | _ => False
             end) as Hinv.
  { intros [Hc Hch]. split; [done|].
    destruct (bs_channel_id s) as [z|].
    - destruct Hch as (c & rest & Hcs & ->). by rewrite Hcs.
    - by destruct Hch as [_ ->]. }
  assert (forall e, boot_raised e s T ->
          bs_clients s = started T
          /\ match channels T with
             | [] => bs_channel_id s = None
             | [(c, resolved)] =>
                 bs_channel_id s = resolved /\ head (bs_clients s) = Some c
             | _ => False
             end) as Hraised.
  { intros e [H|(_ & c & h & Hc & Hs & Hn & -> & _)]; [by apply Hinv|].
    by rewrite Hc, Hs. }
  destruct r as [[[|]|]|e]; cbn in Hend; eauto.
  destruct Hend as (c & Hc & Hs & Hn & ->). by rewrite Hc, Hs.
Qed.

(** X6. What the answer of [initialize_clients] tells.  It answers
    [False] exactly when a lookup of the channel failed, and then one
    session, the one that asked, is open and [self.channel_id] is [None].
    When it answers [True], either no session is open, or the channel is
    resolved, or one session is open and a [KeyboardInterrupt] cut its
    lookup of the chat short: then [self.channel_id] is still [None]. *)
Theorem initialize_clients_answer (B : bootstrap) :
  let '(r, s, T) := initialize_clients B in
  (r = Normal (Some false) <-> exists c, BChannel c None ∈ T)
  /\ match r with
     | Normal (Some false) =>
         exists c, bs_clients s = [c] /\ bs_channel_id s = None
                   /\ channels T = [(c, None)]
     | Normal (Some true) =>
         (bs_clients s = [] /\ bs_channel_id s = None)
         \/ (exists c rest z, bs_clients s = c :: rest /\ bs_channel_id s = Some z
                              /\ channels T = [(c, Some z)])
         \/ (exists c h, bs_clients s = [c] /\ bs_channel_id s = None
                         /\ BGetChat c h (Some KeyboardInterrupt) ∈ T)
     | _ => True
     end.
Proof.
  pose proof (initialize_clients_end B) as Hend.
  destruct (initialize_clients B) as [[r s] T].
  assert (boot_inv s T -> forall c, BChannel c None ∉ T) as Hinv.
  { intros [_ Hch] c Hin. apply elem_of_channels in Hin.
    destruct (bs_channel_id s) as [z|].
    - destruct Hch as (c0 & rest & _ & Hch). rewrite Hch in Hin.
      by apply list_elem_of_singleton in Hin.
    - destruct Hch as [_ Hch]. rewrite Hch in Hin. by apply elem_of_nil in Hin. }
  assert (forall e, boot_raised e s T -> forall c, BChannel c None ∉ T) as Hraised.
  { intros e [H|(_ & c0 & h & _ & _ & _ & Hch & _)]; [by apply Hinv|].
    intros c Hin. apply elem_of_channels in Hin. rewrite Hch in Hin.
    by apply elem_of_nil in Hin. }
  split.
  - split.
    + intros ->. destruct Hend as (c & _ & _ & _ & Hch). exists c.
      apply elem_of_channels. rewrite Hch. by apply list_elem_of_singleton.
    + intros [c Hin]. destruct r as [[[|]|]|e]; cbn in Hend; try done.
      * by destruct (Hraised _ Hend c).
      * by destruct (Hinv Hend c).
      * by destruct (Hraised _ Hend c).
  - destruct r as [[[|]|]|e]; cbn in Hend; try done.
    + destruct Hend as [[Hc Hch]|(_ & c & h & Hc & _ & Hn & _ & Hin)].
      * destruct (bs_channel_id s) as [z|].
        -- destruct Hch as (c & rest & Hcs & Hch). right. left. by exists c, rest, z.
        -- destruct Hch as [Hcs _]. by left.
      * right. right. by exists c, h.
    + destruct Hend as (c & Hc & _ & Hn & Hch). by exists c.
Qed.

(** X7. The prompt loop ends, and so does [initialize_clients]: every
    turn of [while True] but the first reads a line or leaves the loop, so
    the turns the model allows are never used up, and allowing more turns
    changes nothing. *)
Theorem initialize_clients_terminates (B : bootstrap) :
  (exists init, init_outcome_of B = Some init)
  /\ forall fuel s,
       (S (S (length (bs_answers s))) <= fuel)%nat ->
       add_accounts B fuel s = add_accounts B (S (S (length (bs_answers s)))) s
       /\ (add_accounts B fuel s).1.1 <> Normal None.
Proof.
  split.
  - unfold init_outcome_of, initialize_clients, initialize_clients_from.
    unfold bbind at 1. destruct (makedirs_result B) as [e|]; [by eexists|].
    unfold bbind at 1.
    destruct (if sessions_exists B then _ else _) as [[[ctl|e] s1] t1];
      [|by eexists].
    assert (let '(r, s, _) :=
              (exit <~ add_accounts B (S (S (length (bs_answers s1)))) ;;
               match exit with
               | None => bret None
               | Some (Return b) => bret (Some b)
               | Some _ =>
                   fun s2 => (bprint (BLogTotal (length (bs_clients s2))) ;;;
                              bret (Some true)) s2
               end) s1 in
            r <> Normal None) as Hloop.
    { unfold bbind at 1.
      pose proof (add_accounts_ends B (S (S (length (bs_answers s1)))) s1
                    (turns_needed_le s1)) as Hne.
      destruct (add_accounts B _ s1) as [[[[[| |[|]]|]|e] s2] t2]; done. }
    destruct ctl as [| |b]; [| |by eexists];
      cbv beta in Hloop |- *;
      match goal with
      | |- context [bbind ?p ?f s1] => destruct (bbind p f s1) as [[[[b|]|e] s2] t2]
      end; try done; by eexists.
  - intros fuel s Hfuel.
    assert (turns_needed s <= fuel)%nat as Hle
      by (pose proof (turns_needed_le s); lia).
    split; [|by apply add_accounts_ends].
    rewrite (add_accounts_fuel B fuel s Hle).
    symmetry. apply add_accounts_fuel, turns_needed_le.
Qed.

(** ** Failures in the two loops *)

(** One turn of the prompt loop: it raises nothing but a cancellation;
    when it lets the loop go on nothing has failed; a failure of the
    login or of the prompt ends the loop and keeps no session. *)
Lemma add_account_turn_failures (B : bootstrap) (s : boot_state) :
  let '(r, s', t) := add_account_turn B s in
  (forall e, r = Raised e -> e = CancelledError)
  /\ (r = Normal Continue -> failures t = [])
  /\ match failures t with
     | [] => True
     | [Error x] => r = Normal Break /\ BPrint (BLogFailedAdd x) ∈ t
                    /\ bs_clients s' = bs_clients s
     | [KeyboardInterrupt] => r = Normal Break /\ bs_clients s' = bs_clients s
     | [CancelledError] => r = Raised CancelledError
                           /\ bs_clients s' = bs_clients s
     | _ => False
     end.
Proof.
  unfold add_account_turn, btry_except, btry_interrupt, add_account_body.
  unfold bbind at 1.
  destruct (bs_clients s) as [|c0 cs] eqn:Hcs.
  - cbn.
    match goal with
    | |- context [bbind (start_and_append B ?c) (fun _ => bbind (bprint ?l) ?k) s] =>
        pose proof (login_state B c l false s) as Hl;
        destruct (bbind (start_and_append B c) (fun _ => bbind (bprint l) k) s)
          as [[r s2] t2]
    end.
    destruct Hl as (Ha & _ & Hr).
    destruct (start_result B _ _) as [e|].
    + destruct Hr as (-> & Hc & ->).
      destruct e as [x| |]; cbn; rewrite Hc, ?Hcs; turn_done.
    + destruct Hr as (Hr & (t' & -> & _ & Hfl) & Hne & Hb & _).
      destruct r as [[| |[|]]|[e| |]]; cbn; rewrite ?failures_app; cbn;
        change (omap _ t') with (failures t'); rewrite ?Hfl;
        turn_done; by destruct (Hne e).
  - unfold bbind at 1. unfold input.
    destruct (bs_answers s) as [|[line|[e| |]] rest] eqn:Has; cbn;
      [turn_done| |turn_done..].
    destruct (String.eqb (lower line) "y"); [|done]. cbn.
    match goal with
    | |- context [bbind (start_and_append B ?c) (fun _ => bbind (bprint ?l) ?k) ?s1] =>
        pose proof (login_state B c l false s1) as Hl;
        destruct (bbind (start_and_append B c) (fun _ => bbind (bprint l) k) s1)
          as [[r s2] t2]
    end.
    destruct Hl as (Ha & _ & Hr). cbn in Hr.
    destruct (start_result B _ _) as [e|].
    + destruct Hr as (-> & Hc & ->).
      destruct e as [x| |]; cbn; rewrite Hc; turn_done.
    + destruct Hr as (Hr & (t' & -> & _ & Hfl) & Hne & Hb & _).
      destruct r as [[| |[|]]|[e| |]]; cbn; rewrite ?failures_app; cbn;
        change (omap _ t') with (failures t'); rewrite ?Hfl;
        turn_done; by destruct (Hne e).
Qed.

Lemma bbind_assoc {R S U : Type} (p : setup R) (f : R -> setup S)
    (g : S -> setup U) (s : boot_state) :
  bbind (bbind p f) g s = bbind p (fun x => bbind (f x) g) s.
Proof.
  unfold bbind. destruct (p s) as [[[r|e] s1] t1]; [|done].
  destruct (f r s1) as [[[r2|e2] s2] t2]; [|done].
  destruct (g r2 s2) as [[r3 s3] t3]. by rewrite app_assoc.
Qed.

Lemma failure_lines_app (T1 T2 : list boot_event) :
  failure_lines (T1 ++ T2) = failure_lines T1 ++ failure_lines T2.
Proof. apply omap_app. Qed.

(** Neither the lookup of the channel nor a login prints the failure
    line of the prompt loop. *)
Lemma get_channel_id_failure_lines (B : bootstrap) (c : client) (s : boot_state) :
  failure_lines (get_channel_id B c s).2 = [].
Proof.
  unfold get_channel_id, btry_except, bbind, get_chat, int_channel, bprint, bret, braise.
  destruct (channel B) as [h|].
  - destruct (String.prefix "@" h).
    + by destruct (get_chat_result B c h) as [id|[e| |]].
    + by destruct (int_of_channel B) as [z|e].
  - by destruct (int_of_channel B) as [z|e].
Qed.

Lemma ensure_channel_failure_lines (B : bootstrap) (c : client) (announce : bool)
    (s : boot_state) :
  failure_lines (ensure_channel B c announce s).2 = [].
Proof.
  unfold ensure_channel. destruct (bs_channel_id s); [done|].
  unfold bbind, resolve_channel.
  pose proof (get_channel_id_failure_lines B c s) as Hf.
  destruct (get_channel_id B c s) as [[[[z|]|e] s1] t1]; cbn [snd] in *.
  - cbn. by rewrite !failure_lines_app, Hf.
  - destruct announce; cbn; by rewrite !failure_lines_app, Hf.
  - done.
Qed.

Lemma login_failure_lines (B : bootstrap) (c : client) (l : boot_log)
    (announce : bool) (s : boot_state) :
  (forall e, l <> BLogFailedAdd e) ->
  failure_lines
    ((start_and_append B c ;;; bprint l ;;; ensure_channel B c announce) s).2 = [].
Proof.
  intros Hl. unfold bbind at 1. unfold start_and_append.
  destruct (start_result B (bs_starts s) c) as [e|]; [done|].
  unfold bbind, bprint.
  match goal with
  | |- context [ensure_channel B c announce ?s1] =>
      pose proof (ensure_channel_failure_lines B c announce s1) as He;
      destruct (ensure_channel B c announce s1) as [[r s2] t2]
  end.
  cbn [snd] in *. change (failure_lines (BStart c None :: BPrint l :: t2) = []).
  change (BStart c None :: BPrint l :: t2) with ([BStart c None; BPrint l] ++ t2).
  rewrite failure_lines_app, He, app_nil_r. cbn. destruct l; try done.
  by destruct (Hl e).
Qed.

Ltac shape_end :=
  split; [reflexivity|first [left; eexists; reflexivity | right; reflexivity]].

Ltac shape_done :=
  repeat split; try done;
  try (solve [ eexists [], _; shape_end
             | eexists [_], _; shape_end
             | eexists [_; _], _; shape_end ]).

(** One turn of the prompt loop, seen from its trace: the failure line
    is printed for an [Exception] only, right after the login or the
    prompt that raised it, and nothing follows; after an interrupt or a
    cancellation nothing follows the login or the prompt it hit. *)
Lemma add_account_turn_shape (B : bootstrap) (s : boot_state) :
  let '(r, s', t) := add_account_turn B s in
  match failures t with
  | [] => failure_lines t = []
  | [Error x] =>
      failure_lines t = [x]
      /\ exists t0 ev, t = t0 ++ [ev; BPrint (BLogFailedAdd x)]
                       /\ failure_of (Error x) ev
  | [e] =>
      failure_lines t = []
      /\ exists t0 ev, t = t0 ++ [ev] /\ failure_of e ev
  | _ => True
  end.
Proof.
  unfold add_account_turn, btry_except, btry_interrupt, add_account_body.
  unfold bbind at 1.
  destruct (bs_clients s) as [|c0 cs] eqn:Hcs.
  - cbn.
    match goal with
    | |- context [bbind (start_and_append B ?c) (fun _ => bbind (bprint ?l) ?k) s] =>
        pose proof (login_state B c l false s) as Hl;
        pose proof (login_failure_lines B c l false s ltac:(done)) as Hfl;
        destruct (bbind (start_and_append B c) (fun _ => bbind (bprint l) k) s)
          as [[r s2] t2]
    end.
    destruct Hl as (_ & _ & Hr). cbn [snd] in Hfl.
    destruct (start_result B _ _) as [e|].
    + destruct Hr as (-> & _ & ->). destruct e as [x| |]; cbn; shape_done.
    + destruct Hr as (_ & (t' & -> & _ & Hf) & Hne & _).
      assert (failures (BStart
                (session_client ("account_" +:+ pretty (S (length (bs_clients s)))))
                None
              :: BPrint (BLogAdded (S (length (bs_clients s)))) :: t') = []) as Hf'
        by (cbn; exact Hf).
      destruct r as [ctl|[e| |]]; cbn [fst snd];
        rewrite ?app_nil_r;
        change (BPrint BLogNoAccounts :: ?x) with ([BPrint BLogNoAccounts] ++ x);
        rewrite ?failures_app, ?failure_lines_app, ?Hf', ?Hfl; try done.
      by destruct (Hne e).
  - unfold bbind at 1. unfold input.
    destruct (bs_answers s) as [|[line|[e| |]] rest] eqn:Has; cbn;
      [shape_done| |shape_done..].
    destruct (String.eqb (lower line) "y"); [|done]. cbn.
    match goal with
    | |- context [bbind (start_and_append B ?c) (fun _ => bbind (bprint ?l) ?k) ?s1] =>
        pose proof (login_state B c l false s1) as Hl;
        pose proof (login_failure_lines B c l false s1 ltac:(done)) as Hfl;
        destruct (bbind (start_and_append B c) (fun _ => bbind (bprint l) k) s1)
          as [[r s2] t2]
    end.
    destruct Hl as (_ & _ & Hr). cbn [snd] in Hfl. cbn in Hr.
    destruct (start_result B _ _) as [e|].
    + destruct Hr as (-> & _ & ->). destruct e as [x| |]; cbn; shape_done.
    + destruct Hr as (_ & (t' & -> & _ & Hf) & Hne & _).
      assert (failures (BStart
                (session_client ("account_" +:+ pretty (S (length (bs_clients s)))))
                None
              :: BPrint (BLogAdded (S (length (bs_clients s)))) :: t') = []) as Hf'
        by (cbn; exact Hf).
      destruct r as [ctl|[e| |]]; cbn [fst snd];
        rewrite ?app_nil_r;
        change (BInput (InputLine line) :: ?x)
          with ([BInput (InputLine line)] ++ x);
        rewrite ?failures_app, ?failure_lines_app, ?Hf', ?Hfl; try done.
      by destruct (Hne e).
Qed.

Lemma add_accounts_shape (B : bootstrap) (fuel : nat) (s : boot_state) :
  let '(r, s', t) := add_accounts B fuel s in
  (forall e, r = Raised e -> e = CancelledError)
  /\ match failures t with
     | [] => failure_lines t = []
     | [Error x] =>
         r = Normal (Some Break) /\ failure_lines t = [x]
         /\ exists t0 ev, t = t0 ++ [ev; BPrint (BLogFailedAdd x)]
                          /\ failure_of (Error x) ev
     | [KeyboardInterrupt] =>
         r = Normal (Some Break) /\ failure_lines t = []
         /\ exists t0 ev, t = t0 ++ [ev] /\ failure_of KeyboardInterrupt ev
     | [CancelledError] =>
         r = Raised CancelledError /\ failure_lines t = []
         /\ exists t0 ev, t = t0 ++ [ev] /\ failure_of CancelledError ev
     | _ => False
     end.
Proof.
  revert s. induction fuel as [|fuel IH]; intros s; [done|].
  cbn [add_accounts]. unfold bbind.
  pose proof (add_account_turn_failures B s) as Hturn.
  pose proof (add_account_turn_shape B s) as Hshape.
  destruct (add_account_turn B s) as [[[[| |b]|e] s1] t1];
    destruct Hturn as (Hraise & Hgo & Hfail).
  - specialize (IH s1). destruct (add_accounts B fuel s1) as [[r2 s2] t2].
    rewrite (Hgo eq_refl) in Hshape.
    rewrite failures_app, failure_lines_app, (Hgo eq_refl), Hshape. cbn [app].
    destruct IH as [IH1 IH2]. split; [done|].
    destruct (failures t2) as [|[x| |] [|]]; try done;
      destruct IH2 as (-> & Hlines & t0 & ev & -> & Hev);
      (split_and!; try done); exists (t1 ++ t0), ev; by rewrite app_assoc.
  - cbn. rewrite app_nil_r. split; [done|].
    destruct (failures t1) as [|[x| |] [|]]; try done;
      destruct Hfail as [Hr _]; try done; by destruct Hshape.
  - cbn. rewrite app_nil_r. split; [done|].
    destruct (failures t1) as [|[x| |] [|]]; try done; by destruct Hfail.
  - split.
    + intros e' He'. injection He' as <-. by apply Hraise.
    + destruct (failures t1) as [|[x| |] [|]]; try done;
        destruct Hfail as [Hf _]; try done.
      injection Hf as ->. by destruct Hshape.
Qed.

(** X8. The prompt loop contains its failures.  Nothing but a
    cancellation leaves [while True] as an exception.  At most one login
    or prompt fails in it, and that ends the loop.  After an [Exception]
    the failure line is printed, for that exception and right after the
    login or prompt that raised it, and the loop is left by [break].  A
    [KeyboardInterrupt] leaves the loop silently: no failure line is
    printed and the trace of the loop ends with the login or prompt it
    hit.  In both cases what follows the loop is the line of the total,
    for the sessions then open, and [return True]; and
    [initialize_clients] is the stored sessions followed, unless they
    returned, by this loop and its end. *)
Theorem prompt_loop_contains_failures (B : bootstrap) (s : boot_state) :
  (forall fuel,
     let '(r, s', t) := add_accounts B fuel s in
     (forall e, r = Raised e -> e = CancelledError)
     /\ match failures t with
        | [] => failure_lines t = []
        | [Error x] =>
            r = Normal (Some Break) /\ failure_lines t = [x]
            /\ exists t0 ev, t = t0 ++ [ev; BPrint (BLogFailedAdd x)]
                             /\ failure_of (Error x) ev
        | [KeyboardInterrupt] =>
            r = Normal (Some Break) /\ failure_lines t = []
            /\ exists t0 ev, t = t0 ++ [ev] /\ failure_of KeyboardInterrupt ev
        | [CancelledError] =>
            r = Raised CancelledError /\ failure_lines t = []
            /\ exists t0 ev, t = t0 ++ [ev] /\ failure_of CancelledError ev
        | _ => False
        end)
  /\ (let '(r, s', t) := add_accounts_and_total B s in
      match failures t with
      | [Error x] =>
          r = Normal (Some true)
          /\ exists t0 ev,
               t = t0 ++ [ev; BPrint (BLogFailedAdd x);
                          BPrint (BLogTotal (length (bs_clients s')))]
               /\ failure_of (Error x) ev
      | [KeyboardInterrupt] =>
          r = Normal (Some true)
          /\ exists t0 ev,
               t = t0 ++ [ev; BPrint (BLogTotal (length (bs_clients s')))]
               /\ failure_of KeyboardInterrupt ev
      | _ => True
      end)
  /\ initialize_clients_from B s =
     (ctl <~ load_stored B ;;
      match ctl with
      | Return b => bret (Some b)
      | _ => add_accounts_and_total B
      end) s.
Proof.
  split_and!.
  - intros fuel. apply add_accounts_shape.
  - unfold add_accounts_and_total. unfold bbind at 1.
    pose proof (add_accounts_shape B (S (S (length (bs_answers s)))) s) as Hloop.
    destruct (add_accounts B _ s) as [[[[[| |b]|]|e] s1] t1];
      destruct Hloop as [_ Hloop].
    + cbn. rewrite failures_app. cbn. rewrite app_nil_r.
      destruct (failures t1) as [|[x| |] [|]]; try done;
        by destruct Hloop as [Hr _].
    + cbn. rewrite failures_app. cbn. rewrite app_nil_r.
      destruct (failures t1) as [|[x| |] [|]]; try done;
        destruct Hloop as (_ & _ & t0 & ev & -> & Hev);
        (split; [done|]); exists t0, ev; by rewrite <- app_assoc.
    + cbn. rewrite app_nil_r.
      destruct (failures t1) as [|[x| |] [|]]; try done;
        by destruct Hloop as [Hr _].
    + cbn. rewrite app_nil_r.
      destruct (failures t1) as [|[x| |] [|]]; try done;
        by destruct Hloop as [Hr _].
    + destruct (failures t1) as [|[x| |] [|]]; try done;
        by destruct Hloop as [Hr _].
  - symmetry. unfold load_stored. rewrite bbind_assoc. reflexivity.
Qed.

(** X9. The stored sessions.  The loop over the directory logs in the
    files that end in [.session], in the order of the listing, each under
    the path [sessions/<name>], and nothing else; when it runs to its end
    every one of them is kept.  It catches nothing: the first login that
    fails ends the loop, and [initialize_clients], with that exception. *)
Theorem stored_sessions_in_order (B : bootstrap) (files : list string)
    (s : boot_state) :
  let '(r, s', t) := load_sessions B files s in
  logins t `prefix_of` stored_sessions files
  /\ (r = Normal Continue ->
      logins t = stored_sessions files
      /\ bs_clients s' = bs_clients s ++ stored_sessions files)
  /\ match failures t with
     | [] => True
     | [e] => r = Raised e
     | _ => False
     end
  /\ r <> Normal Break.
Proof.
  revert s. induction files as [|f files IH]; intros s.
  { cbn. split_and!; try done. intros _. by rewrite app_nil_r. }
  cbn [load_sessions]. unfold bbind at 1, load_session, stored_sessions.
  cbn [List.filter].
  destruct (endswith f ".session"); cbn [map]; fold (stored_sessions files).
  - pose proof (login_state B (session_client (session_name_of f))
                  (BLogLoaded (session_name_of f)) true s) as Hl.
    destruct (bbind (start_and_append B _) _ s) as [[r1 s1] t1].
    destruct Hl as (_ & _ & Hl).
    destruct (start_result B _ _) as [e|].
    + destruct Hl as (-> & _ & ->). cbn. split_and!; try done.
      by apply prefix_cons, prefix_nil.
    + destruct Hl as (Hc & (t' & Ht1 & Hlog & Hfl) & Hne & Hb & Hr).
      assert (logins t1 = [session_client (session_name_of f)]) as Hlog1.
      { rewrite Ht1. cbn. change (omap _ t') with (logins t'). by rewrite Hlog. }
      assert (failures t1 = []) as Hfl1.
      { rewrite Ht1. cbn. change (omap _ t') with (failures t'). by rewrite Hfl. }
      clear Ht1.
      destruct r1 as [[| |[|]]|e]; try done.
      * specialize (IH s1). destruct (load_sessions B files s1) as [[r2 s2] t2].
        destruct IH as (IH1 & IH2 & IH3 & IH4).
        rewrite logins_app, failures_app, Hlog1, Hfl1. cbn [app].
        split_and!; try done.
        -- by apply prefix_cons.
        -- intros Hr2. destruct (IH2 Hr2) as [-> ->].
           split; [done|]. by rewrite Hc, <- app_assoc.
      * unfold bret. rewrite app_nil_r, Hlog1, Hfl1. split_and!; try done.
        by apply prefix_cons, prefix_nil.
      * rewrite Hlog1, Hfl1. split_and!; try done.
        by apply prefix_cons, prefix_nil.
  - unfold bret. specialize (IH s).
    by destruct (load_sessions B files s) as [[r2 s2] t2].
Qed.

(** ** Session files and their names *)

Lemma string_length_app (s1 s2 : string) :
  String.length (s1 +:+ s2) = (String.length s1 + String.length s2)%nat.
Proof.
  induction s1 as [|a s1 IH]; [done|].
  change (String a s1 +:+ s2) with (String a (s1 +:+ s2)). cbn. by rewrite IH.
Qed.

Lemma substring_app_l (s1 s2 : string) :
  substring 0 (String.length s1) (s1 +:+ s2) = s1.
Proof.
  induction s1 as [|a s1 IH]; [by destruct s2|].
  change (String a s1 +:+ s2) with (String a (s1 +:+ s2)). cbn. by rewrite IH.
Qed.

Lemma substring_app_r (s1 s2 : string) (k : nat) :
  substring (String.length s1) k (s1 +:+ s2) = substring 0 k s2.
Proof.
  induction s1 as [|a s1 IH]; [done|].
  change (String a s1 +:+ s2) with (String a (s1 +:+ s2)). cbn. by rewrite IH.
Qed.

Lemma substring_all (s : string) : substring 0 (String.length s) s = s.
Proof. induction s as [|a s IH]; [done|]. cbn. by rewrite IH. Qed.

Lemma substring_split (k : nat) (s : string) :
  (k <= String.length s)%nat ->
  substring 0 k s +:+ substring k (String.length s - k) s = s.
Proof.
  revert s. induction k as [|k IH]; intros s Hk.
  - rewrite Nat.sub_0_r, substring_all. by destruct s.
  - destruct s as [|a s]; [cbn in Hk; lia|]. cbn in Hk |- *.
    change (String a ?x +:+ ?y) with (String a (x +:+ y)).
    rewrite IH; [done|lia].
Qed.

Lemma endswith_app (n : string) : endswith (n +:+ ".session") ".session" = true.
Proof.
  unfold endswith. rewrite string_length_app.
  change (String.length ".session") with 8%nat.
  replace (String.length n + 8 - 8)%nat with (String.length n) by lia.
  rewrite substring_app_r. apply andb_true_intro. split.
  - apply Nat.leb_le. lia.
  - done.
Qed.

Lemma session_name_of_app (n : string) : session_name_of (n +:+ ".session") = n.
Proof.
  unfold session_name_of. rewrite string_length_app.
  change (String.length ".session") with 8%nat.
  replace (String.length n + 8 - 8)%nat with (String.length n) by lia.
  apply substring_app_l.
Qed.

Lemma endswith_session_name (session_file : string) :
  endswith session_file ".session" = true ->
  session_name_of session_file +:+ ".session" = session_file.
Proof.
  unfold endswith, session_name_of. intros [Hlen Heq]%andb_prop.
  change (String.length ".session") with 8%nat in *.
  apply Nat.leb_le in Hlen. apply String.eqb_eq in Heq.
  pose proof (substring_split (String.length session_file - 8) session_file) as Hs.
  replace (String.length session_file - (String.length session_file - 8))%nat
    with 8%nat in Hs by lia.
  rewrite Heq in Hs. apply Hs. lia.
Qed.

(** X10. Session files and session names.  A file is taken for a stored
    session exactly when its name is [<name>.session], and the slice
    [[:-8]] gives that [<name>] back: the sessions loaded are the paths
    [sessions/<name>] of these files, and a directory of session files
    gives one session for each, under its own name. *)
Theorem stored_session_names :
  (forall files c,
     c ∈ stored_sessions files
     <-> exists n, (n +:+ ".session") ∈ files /\ c = "sessions/" +:+ n)
  /\ (forall names,
        stored_sessions (map (fun n => n +:+ ".session") names)
        = map (fun n => "sessions/" +:+ n) names).
Proof.
  split.
  - intros files c. unfold stored_sessions.
    rewrite list_elem_of_In, in_map_iff. split.
    + intros (f & <- & [Hin Hf]%filter_In). exists (session_name_of f). split; [|done].
      rewrite endswith_session_name by done. by apply list_elem_of_In.
    + intros (n & Hin & ->). exists (n +:+ ".session"). split.
      * unfold session_client. by rewrite session_name_of_app.
      * apply filter_In. split; [by apply list_elem_of_In|apply endswith_app].
  - intros names. unfold stored_sessions.
    induction names as [|n names IH]; [done|].
    cbn [map List.filter]. rewrite endswith_app. cbn [map].
    rewrite IH. unfold session_client. by rewrite session_name_of_app.
Qed.

(** ** The accounts added at the prompt *)

Lemma logins_started (t : list boot_event) : logins t = [] -> started t = [].
Proof.
  induction t as [|ev t IH]; [done|].
  change (ev :: t) with ([ev] ++ t). rewrite logins_app, started_app.
  destruct ev as [| |c [e|]| | | |]; try done; by apply IH.
Qed.

(** One turn of the prompt loop keeps at most one more session, under
    the number that follows the sessions kept so far. *)
Lemma add_account_turn_started (B : bootstrap) (s : boot_state) :
  let '(r, s', t) := add_account_turn B s in
  bs_clients s' = bs_clients s ++ started t
  /\ (started t = [] \/ started t = [account_path (S (length (bs_clients s)))])
  /\ (r = Normal Continue -> started t <> []).
Proof.
  unfold add_account_turn, btry_except, btry_interrupt, add_account_body.
  unfold bbind at 1.
  destruct (bs_clients s) as [|c0 cs] eqn:Hcs.
  - cbn.
    match goal with
    | |- context [bbind (start_and_append B ?c) (fun _ => bbind (bprint ?l) ?k) s] =>
        pose proof (login_state B c l false s) as Hl;
        destruct (bbind (start_and_append B c) (fun _ => bbind (bprint l) k) s)
          as [[r s2] t2]
    end.
    destruct Hl as (Ha & _ & Hr).
    destruct (start_result B _ _) as [e|].
    + destruct Hr as (-> & Hc & ->).
      destruct e as [x| |]; cbn; rewrite Hc, ?Hcs; started_done.
    + destruct Hr as (Hr & (t' & -> & Hlog%logins_started & _) & Hne & Hb & _).
      rewrite Hcs in Hr.
      destruct r as [[| |[|]]|[e| |]]; cbn; rewrite ?started_app; cbn;
        change (omap _ t') with (started t'); rewrite ?Hlog, Hr, ?Hcs;
        cbn [app length]; started_done.
  - unfold bbind at 1. unfold input.
    destruct (bs_answers s) as [|[line|[e| |]] rest] eqn:Has; cbn;
      rewrite ?Hcs, ?app_nil_r; [started_done| |started_done..].
    destruct (String.eqb (lower line) "y");
      [|cbn; rewrite ?Hcs, ?app_nil_r; started_done].
    cbn.
    match goal with
    | |- context [bbind (start_and_append B ?c) (fun _ => bbind (bprint ?l) ?k) ?s1] =>
        pose proof (login_state B c l false s1) as Hl;
        destruct (bbind (start_and_append B c) (fun _ => bbind (bprint l) k) s1)
          as [[r s2] t2]
    end.
    destruct Hl as (Ha & _ & Hr). cbn in Hr.
    destruct (start_result B _ _) as [e|].
    + destruct Hr as (-> & Hc & ->).
      destruct e as [x| |]; cbn; rewrite Hc, ?Hcs, ?app_nil_r;
        started_done.
    + destruct Hr as (Hr & (t' & -> & Hlog%logins_started & _) & Hne & Hb & _).
      destruct r as [[| |[|]]|[e| |]]; cbn; rewrite ?started_app; cbn;
        change (omap _ t') with (started t'); rewrite ?Hlog, Hr, ?Hcs;
        cbn [app length]; started_done.
Qed.

Lemma account_path_inj : Inj (=) (=) account_path.
Proof.
  intros n1 n2 H. unfold account_path, session_client in H.
  by apply String.app_inj, String.app_inj, pretty_nat_inj in H.
Qed.

(** X11. The accounts added at the prompt are numbered.  The sessions
    the loop keeps are the ones it logged in, and the k-th of them has the
    path [sessions/account_<n+k>], where [n] sessions were open before the
    loop: consecutive numbers, so no two added accounts share a path. *)
Theorem added_accounts_numbered (B : bootstrap) (fuel : nat) (s : boot_state) :
  let '(r, s', t) := add_accounts B fuel s in
  bs_clients s' = bs_clients s ++ started t
  /\ started t = map account_path
                     (seq (S (length (bs_clients s))) (length (started t)))
  /\ NoDup (started t).
Proof.
  assert (let '(r, s', t) := add_accounts B fuel s in
          bs_clients s' = bs_clients s ++ started t
          /\ started t = map account_path
                             (seq (S (length (bs_clients s))) (length (started t))))
    as Hnum.
  { revert s. induction fuel as [|fuel IH]; intros s.
    { cbn. by rewrite app_nil_r. }
    cbn [add_accounts]. unfold bbind.
    pose proof (add_account_turn_started B s) as Hturn.
    destruct (add_account_turn B s) as [[[[| |b]|e] s1] t1];
      destruct Hturn as (Hc & Hst & Hgo).
    - specialize (IH s1). destruct (add_accounts B fuel s1) as [[r2 s2] t2].
      destruct IH as [IH1 IH2]. destruct Hst as [Hst|Hst]; [by destruct Hgo|].
      rewrite started_app, Hst, IH1, Hc, Hst, <- app_assoc. split; [done|].
      rewrite IH2 at 1. rewrite Hc, Hst, length_app. cbn.
      by rewrite Nat.add_1_r.
    - cbn. rewrite app_nil_r. split; [done|]. by destruct Hst as [->| ->].
    - cbn. rewrite app_nil_r. split; [done|]. by destruct Hst as [->| ->].
    - split; [done|]. by destruct Hst as [->| ->]. }
  destruct (add_accounts B fuel s) as [[r s'] t]. destruct Hnum as [H1 H2].
  split_and!; try done. rewrite H2.
  apply (NoDup_fmap_2 account_path), NoDup_seq.
Qed.

(** ** The answer at the prompt *)

Lemma lower_ascii_y (a : Ascii.ascii) :
  String (lower_ascii a) "" = "y" <-> String a "" = "y" \/ String a "" = "Y".
Proof.
  destruct a as [[] [] [] [] [] [] [] []]; vm_compute;
    (split; [intros H; first [discriminate H | by left | by right]
            |intros [H|H]; first [discriminate H | done]]).
Qed.

Lemma lower_y (line : string) : lower line = "y" <-> line = "y" \/ line = "Y".
Proof.
  destruct line as [|a [|b line]].
  - split; [done|by intros [|]].
  - apply lower_ascii_y.
  - split; [done|by intros [|]].
Qed.

(** X12. The answer at the prompt.  With a session open, the loop asks;
    the answers [y] and [Y] make it log a new account in, under the next
    number; every other line (a longer word, a space, nothing) ends the
    loop with no login, no session added and nothing printed. *)
Theorem prompt_answer (B : bootstrap) (s : boot_state) (line : string)
    (rest : list input_outcome) :
  bs_clients s <> [] ->
  bs_answers s = InputLine line :: rest ->
  let '(r, s', t) := add_account_turn B s in
  bs_answers s' = rest
  /\ if bool_decide (line = "y" \/ line = "Y")
     then logins t = [account_path (S (length (bs_clients s)))]
     else r = Normal Break /\ t = [BInput (InputLine line)]
          /\ bs_clients s' = bs_clients s.
Proof.
  intros Hcs Has.
  unfold add_account_turn, btry_except, btry_interrupt, add_account_body.
  unfold bbind at 1.
  destruct (bs_clients s) as [|c0 cs] eqn:Hc; [done|].
  unfold bbind at 1. unfold input. rewrite Has. cbn.
  destruct (String.eqb (lower line) "y") eqn:Hy.
  - apply String.eqb_eq, lower_y in Hy. rewrite bool_decide_eq_true_2 by done.
    cbn.
    match goal with
    | |- context [bbind (start_and_append B ?c) (fun _ => bbind (bprint ?l) ?k) ?s1] =>
        pose proof (login_state B c l false s1) as Hl;
        destruct (bbind (start_and_append B c) (fun _ => bbind (bprint l) k) s1)
          as [[r s2] t2]
    end.
    destruct Hl as (Ha & _ & Hr). cbn in Ha, Hr.
    destruct (start_result B _ _) as [e|].
    + destruct Hr as (-> & _ & ->). destruct e as [x| |]; cbn; by rewrite ?Hc.
    + destruct Hr as (_ & (t' & -> & Hlog & _) & Hne & _).
      destruct r as [ctl|[e| |]]; cbn; rewrite ?logins_app; cbn;
        change (omap _ t') with (logins t'); rewrite ?Hlog, ?Hc; done.
  - rewrite bool_decide_eq_false_2; [by rewrite ?Hc|].
    intros Hl. apply lower_y in Hl. apply String.eqb_neq in Hy. done.
Qed.

Lemma prompt_answer_witness :
  let B := quiet_bootstrap ["yes"] in
  let s := {| bs_clients := ["sessions/alice"]; bs_channel_id := Some (-1001234);
              bs_starts := 1; bs_answers := [InputLine "yes"] |} in
  bs_clients s <> []
  /\ bs_answers s = [InputLine "yes"]
  /\ let '(r, s', t) := add_account_turn B s in
     bs_answers s' = []
     /\ if bool_decide ("yes" = "y" \/ "yes" = "Y")
        then logins t = [account_path (S (length (bs_clients s)))]
        else r = Normal Break /\ t = [BInput (InputLine "yes")]
             /\ bs_clients s' = bs_clients s.
Proof.
  intros B s. split; [done|]. split; [done|].
  exact (prompt_answer B s "yes" [] ltac:(done) eq_refl).
Defined.

(** ** [run] and the bootstrap *)

Lemma exec_run (E : env) (V : list string) (w : world) :
  exec E (run V) w =
  let init := initialize_result E in
  let M := {| clients := init_clients init; reactions := V;
              channel_id := init_channel_id init |} in
  let '(r, w', t) := exec E (run_body M init) w in
  finish E (init_clients init) r w' t.
Proof.
  unfold run. rewrite exec_bind, exec_call. cbn [perform fst snd].
  cbv zeta.
  set (M := {| clients := init_clients (initialize_result E) |}).
  fold (run_body M (initialize_result E)).
  rewrite exec_try_finally.
  destruct (exec E (run_body M (initialize_result E)) w) as [[r1 w1] t1].
  rewrite exec_stop_all. unfold finish. cbn [clients M].
  by destruct (release_failure E (init_clients (initialize_result E))).
Qed.

Lemma exec_register_handlers (E : env) (M : manager) (w : world) :
  exec E (register_handlers M) w =
  (Normal tt, after_registering (clients M) w,
   map (fun c => EvOnMessage c (channel_id M)) (clients M)).
Proof.
  unfold register_handlers. revert w.
  induction (clients M) as [|c cs IH]; intros w.
  - cbn. unfold after_registering. rewrite app_nil_r. by destruct w.
  - cbn [for_each map]. rewrite exec_bind, exec_call. cbn [perform fst snd].
    rewrite IH. unfold after_registering. cbn. by rewrite <- app_assoc.
Qed.

Lemma exec_try_except_interrupt (E : env) {R : Type} (p h : prog R) (w : world) :
  exec E (try_except_interrupt p h) w =
  let '(r1, w1, t1) := exec E p w in
  match r1 with
  | Raised KeyboardInterrupt =>
      let '(r2, w2, t2) := exec E h w1 in (r2, w2, t1 ++ t2)
  | _ => (r1, w1, t1)
  end.
Proof.
  revert w. induction p as [r|e|A o k IH]; intros w; cbn [try_except_interrupt exec].
  - done.
  - destruct e; [done| |done]. by destruct (exec E h w) as [[r2 w2] t2].
  - destruct (perform E o w) as [[a w1] t1]. rewrite IH.
    destruct (exec E (k a) w1) as [[[r|[e| |]] w2] t2]; try done.
    destruct (exec E h w2) as [[r3 w3] t3]. by rewrite app_assoc.
Qed.

(** X13. [run] without accounts.  When [initialize_clients] answers
    [False], answers [True] with no session, or raises, [run] does no
    backlog pass, registers no handler and sends nothing: it prints at
    most one line and goes to the [finally] block.  A
    [KeyboardInterrupt] of the bootstrap is swallowed, with the stopping
    line; any other exception is raised again after the block. *)
Theorem run_without_accounts (E : env) (V : list string) (w : world) :
  let init := initialize_result E in
  let cs := init_clients init in
  match init_return init with
  | inl false => exec E (run V) w = finish E cs (Normal tt) w []
  | inl true =>
      match cs with
      | [] => exec E (run V) w = (Normal tt, w, [EvPrint LogNoAccounts])
      | _ :: _ => True
      end
  | inr KeyboardInterrupt =>
      exec E (run V) w = finish E cs (Normal tt) w [EvPrint LogStopping]
  | inr e => exec E (run V) w = finish E cs (Raised e) w []
  end.
Proof.
  cbv zeta. rewrite exec_run. cbv zeta. unfold run_body.
  destruct (init_return (initialize_result E)) as [[|]|[e| |]]; try done.
  cbn [clients]. by destruct (init_clients (initialize_result E)).
Qed.

(** X14. [run] with accounts.  When the bootstrap answers [True] with a
    session open, [run] makes the backlog pass, then registers one
    handler on every session, in the order of [self.clients], each on the
    resolved channel, prints its two lines and waits.  An interrupt of
    the wait is swallowed, with the stopping line; any other exception is
    raised again after the [finally] block. *)
Theorem run_serves (E : env) (V : list string) (w : world) :
  let init := initialize_result E in
  let M := {| clients := init_clients init; reactions := V;
              channel_id := init_channel_id init |} in
  init_return init = inl true ->
  init_clients init <> [] ->
  exists w1 backlog,
    exec E (process_old_messages M) w = (Normal tt, w1, backlog)
    /\ exec E (run V) w =
       finish E (clients M)
         (match wait_result E with
          | KeyboardInterrupt => Normal tt
          | e => Raised e
          end)
         (after_registering (clients M) w1)
         (backlog
            ++ map (fun c => EvOnMessage c (channel_id M)) (clients M)
            ++ [EvPrint LogRunning; EvPrint LogPressCtrlC]
            ++ match wait_result E with
               | KeyboardInterrupt => [EvPrint LogStopping]
               | _ => []
               end).
Proof.
  intros init M Hret Hcs. rewrite exec_run. cbv zeta. fold init. fold M.
  unfold run_body. rewrite Hret. cbn [clients M].
  destruct (init_clients init) as [|c cs] eqn:Hc; [done|].
  destruct (exec_process_old_messages E M c cs w eq_refl) as (w1 & t & _ & Hp).
  eexists w1, _. split; [exact Hp|].
  rewrite exec_try_except_interrupt.
  unfold serve. rewrite exec_bind, Hp, exec_bind, exec_register_handlers.
  rewrite exec_bind, exec_say, exec_bind, exec_say, exec_bind, exec_call.
  cbn [perform fst snd exec clients]. rewrite !app_nil_r.
  destruct (wait_result E) as [e| |]; rewrite ?exec_say; cbn [channel_id M];
    unfold finish; f_equal;
    repeat (rewrite <- ?app_assoc, <- ?app_comm_cons); reflexivity.
Qed.

Lemma run_serves_witness :
  init_return (initialize_result two_accounts_env) = inl true
  /\ init_clients (initialize_result two_accounts_env) <> []
  /\ exists w1 backlog,
       exec two_accounts_env
         (process_old_messages
            {| clients := ["A"; "B"]; reactions := ["+1"];
               channel_id := Some (-100) |}) fresh_world
       = (Normal tt, w1, backlog)
       /\ exec two_accounts_env (run ["+1"]) fresh_world =
          (Normal tt, after_registering ["A"; "B"] w1,
           (backlog
              ++ [EvOnMessage "A" (Some (-100)); EvOnMessage "B" (Some (-100))]
              ++ [EvPrint LogRunning; EvPrint LogPressCtrlC]
              ++ [EvPrint LogStopping])
             ++ [EvStop "A" None; EvStop "B" None]).
Proof.
  split; [reflexivity|]. split; [discriminate|].
  exact (run_serves two_accounts_env ["+1"] fresh_world eq_refl
           ltac:(discriminate)).
Defined.

(** ** What a dispatch aims at *)

Lemma uses_bind_returns (P : forall A : Type, op A -> bool) {R S : Type}
    (Q : R -> Prop) (p : prog R) (f : R -> prog S) :
  uses P p -> returns Q p -> (forall r, Q r -> uses P (f r)) ->
  uses P (bind p f).
Proof.
  intros Hp Hq Hf. induction p as [r|e|A o k IH]; simpl; [by apply Hf|done|].
  destruct Hp as [Ho Hk]. split; [done|]. intros a. apply IH; [apply Hk|apply Hq].
Qed.

Lemma returns_bind {R S : Type} (Q' : R -> Prop) (Q : S -> Prop)
    (p : prog R) (f : R -> prog S) :
  returns Q' p -> (forall r, Q' r -> returns Q (f r)) -> returns Q (bind p f).
Proof.
  intros Hp Hf. induction p as [r|e|A o k IH]; simpl; [by apply Hf|done|].
  intros a. apply IH, Hp.
Qed.

Lemma elem_of_removelast {A : Type} (l : list A) (x : A) :
  x ∈ removelast l -> x ∈ l.
Proof.
  induction l as [|y l IH]; [done|]. cbn.
  destruct l as [|z l]; [by intros ?%elem_of_nil|].
  intros [Heq|Hin]%elem_of_cons; [subst; by left|]. right. by apply IH.
Qed.

(** Whatever is drawn, a sample holds entries of the population. *)
Lemma returns_sample_pool {A : Type} (pool : list A) (k : nat) :
  returns (fun sel => forall x, x ∈ sel -> x ∈ pool) (sample_pool pool k).
Proof.
  revert pool. induction k as [|k IH]; intros pool; cbn [sample_pool].
  { by intros x ?%elem_of_nil. }
  intros j. cbn.
  destruct (pool !! j) as [x|] eqn:Hx; [|by intros ? ?%elem_of_nil].
  destruct (last pool) as [y|] eqn:Hy; [|by intros ? ?%elem_of_nil].
  eapply returns_bind; [apply IH|]. intros rest Hrest z.
  intros [->|Hin]%elem_of_cons.
  - by eapply list_elem_of_lookup_2.
  - apply Hrest, elem_of_removelast in Hin.
    apply list_elem_of_lookup in Hin as [i Hi].
    destruct (decide (i = j)) as [->|Hne].
    + rewrite list_lookup_insert_eq in Hi.
      * injection Hi as <-. rewrite last_lookup in Hy.
        by eapply list_elem_of_lookup_2.
      * by eapply lookup_lt_Some.
    + rewrite list_lookup_insert_ne in Hi by done.
      by eapply list_elem_of_lookup_2.
Qed.

Lemma uses_aimed_sample_pool (M : manager) (m : Z) {A : Type} (pool : list A)
    (k : nat) :
  uses (@aimed M m) (sample_pool pool k).
Proof.
  revert pool. induction k as [|k IH]; intros pool; simpl; [done|].
  split; [done|]. intros j. simpl.
  destruct (pool !! j); [|done]. destruct (last pool); [|done].
  apply uses_bind; [apply IH|]. by intros rest.
Qed.

Lemma uses_aimed_attempt (M : manager) (c : client) (m : Z) :
  c ∈ clients M -> uses (@aimed M m) (attempt M c m).
Proof.
  intros Hc. unfold attempt.
  apply uses_bind_returns
    with (Q := fun sel => forall x, x ∈ sel -> x ∈ reactions M).
  - unfold select_reactions, randint, sample.
    apply uses_bind; [apply uses_bind; [by apply uses_call|done]|].
    intros k. destruct (_ <? _)%nat; [done|].
    apply uses_aimed_sample_pool.
  - unfold select_reactions, sample.
    apply returns_bind with (Q' := fun _ => True).
    + unfold randint. by apply returns_bind with (Q' := fun _ => True).
    + intros k _. destruct (_ <? _)%nat; [done|]. apply returns_sample_pool.
  - intros sel Hsel. unfold send_selected.
    induction sel as [|emoji sel IH]; [done|]. cbn [for_each].
    apply uses_bind.
    + apply uses_bind; [|intros; by apply uses_call].
      unfold send_reaction. apply uses_bind; [|by intros [err|]].
      apply uses_call. cbn. apply bool_decide_eq_true_2. split_and!; try done.
      apply Hsel. by left.
    + intros _. apply IH. intros x Hx. apply Hsel. by right.
Qed.

Lemma uses_aimed_retry_loop (M : manager) (c : client) (m : Z)
    (fuel retries : nat) :
  c ∈ clients M -> uses (@aimed M m) (retry_loop M c m fuel retries).
Proof.
  intros Hc. revert retries. induction fuel as [|fuel IH]; intros retries;
    cbn [retry_loop]; [done|].
  destruct (retries <? max_retries)%nat; [|done].
  apply uses_bind.
  - apply uses_try_except.
    + apply uses_bind; [by apply uses_aimed_attempt|done].
    + intros e. apply uses_bind; [|done]. unfold on_failure.
      apply uses_bind; [|done].
      destruct (_ <? _)%nat; [|by apply uses_call].
      apply uses_bind; [by apply uses_call|]. intros _. by apply uses_call.
  - intros [retries'|]; [apply IH|done].
Qed.

Lemma uses_aimed_react_to_message (M : manager) (m : Z) :
  uses (@aimed M m) (react_to_message M m).
Proof.
  unfold react_to_message. apply uses_bind.
  { apply uses_call. cbn. by apply bool_decide_eq_true_2. }
  intros [|]; [done|]. apply uses_bind.
  { apply uses_call. cbn. by apply bool_decide_eq_true_2. }
  intros _. unfold react_all.
  assert (forall cs, (forall c, c ∈ cs -> c ∈ clients M) ->
                     uses (@aimed M m) (for_each cs (react_with M m))) as Hcs.
  { induction cs as [|c cs IH]; intros Hin; [done|]. cbn [for_each].
    apply uses_bind.
    - unfold react_with. apply uses_bind; [|intros; by apply uses_call].
      apply uses_aimed_retry_loop, Hin. by left.
    - intros _. apply IH. intros c' Hc'. apply Hin. by right. }
  by apply Hcs.
Qed.

Lemma aimed_on_target (E : env) (M : manager) (m : Z) {A : Type} (o : op A)
    (w : world) :
  aimed M m o = true -> Forall (on_target M m) (perform E o w).2.
Proof.
  destruct o; cbn; try done; intros H;
    repeat (apply Forall_cons; split); try apply Forall_nil; try done;
    by apply bool_decide_eq_true_1 in H.
Qed.

(** X15. What a dispatch aims at.  Whatever the random generator and
    the network do, a dispatch of message [m] tells the set about [m]
    only, and every reaction it submits goes from a session of
    [self.clients] to [self.channel_id], for [m], with a symbol of the
    configured reactions; it fetches no history, registers no handler and
    stops no session. *)
Theorem dispatch_on_target (E : env) (M : manager) (m : Z) (w : world) :
  Forall (on_target M m) (trace_of (exec E (react_to_message M m) w)).
Proof.
  apply (uses_exec (@aimed M m)).
  - intros A o w0. apply aimed_on_target.
  - apply uses_aimed_react_to_message.
Qed.

(** ** What [run] touches *)

Lemma aimed_within (M : manager) (m : Z) {A : Type} (o : op A) :
  aimed M m o = true -> within M o = true.
Proof.
  destruct o; cbn; try done. intros H%bool_decide_eq_true_1.
  apply bool_decide_eq_true_2. naive_solver.
Qed.

Lemma within_in_bounds (E : env) (M : manager) {A : Type} (o : op A) (w : world) :
  within M o = true -> Forall (in_bounds M) (perform E o w).2.
Proof.
  destruct o; cbn; try done; intros H;
    repeat (apply Forall_cons; split); try apply Forall_nil; try done;
    by apply bool_decide_eq_true_1 in H.
Qed.

Lemma uses_within_history_loop (M : manager) (c : client) (remaining i : nat) :
  uses (@within M) (history_loop M c remaining i).
Proof.
  revert i. induction remaining as [|n IH]; intros i;
    cbn [history_loop]; [done|].
  apply uses_bind; [by apply uses_call|].
  intros [id| |e]; [|done|done].
  apply uses_bind.
  { eapply uses_mono; [|apply uses_aimed_react_to_message].
    intros A o. apply aimed_within. }
  intros _. apply uses_bind; [by apply uses_call|]. intros _. apply IH.
Qed.

Lemma uses_within_run_body (M : manager) (init : init_outcome) :
  uses (@within M) (run_body M init).
Proof.
  unfold run_body. apply uses_try_except_interrupt; [|by apply uses_call].
  destruct (init_return init) as [[|]|e]; [|done|done].
  destruct (clients M) as [|c cs] eqn:Hcs; [by apply uses_call|].
  unfold serve. apply uses_bind.
  { unfold process_old_messages.
    apply uses_bind; [by apply uses_call|]. intros _.
    apply uses_bind; [|intros; by apply uses_call].
    apply uses_try_except; [|intros; by apply uses_call].
    rewrite Hcs. apply uses_bind; [|intros; apply uses_within_history_loop].
    apply uses_call. cbn. apply bool_decide_eq_true_2. by rewrite Hcs. }
  intros _. apply uses_bind.
  { unfold register_handlers.
    assert (forall cs', (forall c', c' ∈ cs' -> c' ∈ clients M) ->
              uses (@within M)
                (for_each cs' (fun c' => call (OnMessage c' (channel_id M)))))
      as Hreg.
    { induction cs' as [|c' cs' IH]; intros Hin; [done|]. cbn [for_each].
      apply uses_bind.
      - apply uses_call. cbn. apply bool_decide_eq_true_2. split; [|done].
        apply Hin. by left.
      - intros _. apply IH. intros c'' Hc''. apply Hin. by right. }
    by apply Hreg. }
  intros _. apply uses_bind; [by apply uses_call|]. intros _.
  apply uses_bind; [by apply uses_call|]. intros _.
  apply uses_bind; [by apply uses_call|]. done.
Qed.

Lemma released_subseteq (E : env) (cs : list client) (c : client) :
  c ∈ released E cs -> c ∈ cs.
Proof.
  induction cs as [|c0 cs IH]; [done|]. cbn.
  intros [->|Hin]%elem_of_cons; [by left|]. right.
  destruct (stop_result E c0); [by apply elem_of_nil in Hin|by apply IH].
Qed.

(** X16. What [run] touches.  Once [initialize_clients] is over, every
    reaction [run] submits goes from a session of [self.clients] to
    [self.channel_id] with a symbol of the configured reactions; the
    history is asked of the first session, for that channel, with a limit
    of 100; handlers are registered on sessions of [self.clients], for
    that channel; and only sessions of [self.clients] are stopped. *)
Theorem run_in_bounds (E : env) (V : list string) (w : world) :
  let init := initialize_result E in
  let M := {| clients := init_clients init; reactions := V;
              channel_id := init_channel_id init |} in
  Forall (in_bounds M) (trace_of (exec E (run V) w)).
Proof.
  intros init M. rewrite exec_run. cbv zeta. fold init. fold M.
  pose proof (uses_exec (@within M) (in_bounds M) E (run_body M init) w
                (fun A o w0 => within_in_bounds E M o w0)
                (uses_within_run_body M init)) as Hbody.
  destruct (exec E (run_body M init) w) as [[r w1] t].
  unfold finish, trace_of in *. cbn [snd] in *.
  apply Forall_app. split; [done|].
  apply Forall_forall. intros ev Hev. unfold stop_events in Hev.
  apply list_elem_of_fmap in Hev as (c & -> & Hc). cbn.
  by apply released_subseteq in Hc.
Qed.

(** ** From the bootstrap to [run] *)

(** X17. A channel that cannot be resolved.  When the bootstrap answers
    [False], one session is open, the one whose lookup failed;
    [self.channel_id] is [None]; and [run] does nothing but stop that
    session: no backlog, no handler, no reaction.  It raises only if the
    stop does. *)
Theorem failed_resolution_ends_run (B : bootstrap) (E : env) (V : list string)
    (w : world) (init : init_outcome) :
  init_outcome_of B = Some init ->
  init_return init = inl false ->
  exists c,
    init_clients init = [c] /\ init_channel_id init = None
    /\ exec (with_init init E) (run V) w =
       (match stop_result E c with
        | None => Normal tt
        | Some e => Raised e
        end, w, [EvStop c (stop_result E c)]).
Proof.
  unfold init_outcome_of. pose proof (initialize_clients_end B) as Hend.
  destruct (initialize_clients B) as [[r s] T].
  destruct r as [[[|]|]|e]; intros [= <-] Hret; try done.
  destruct Hend as (c & Hc & _ & Hn & _). exists c. cbn [init_clients init_channel_id].
  split_and!; try done.
  rewrite exec_run. cbn. rewrite Hc. unfold finish. cbn.
  by destruct (stop_result E c).
Qed.

Lemma failed_resolution_ends_run_witness :
  let init := {| init_clients := ["sessions/alice"]; init_channel_id := None;
                 init_return := inl false |} in
  init_outcome_of unresolved_bootstrap = Some init
  /\ init_return init = inl false
  /\ exists c,
       init_clients init = [c] /\ init_channel_id init = None
       /\ exec (with_init init (quiet_env 0)) (run ["+1"]) fresh_world =
          (match stop_result (quiet_env 0) c with
           | None => Normal tt
           | Some e => Raised e
           end, fresh_world, [EvStop c (stop_result (quiet_env 0) c)]).
Proof.
  intros init.
  assert (init_outcome_of unresolved_bootstrap = Some init) as Hinit
    by (vm_compute; reflexivity).
  split; [exact Hinit|]. split; [reflexivity|].
  exact (failed_resolution_ends_run unresolved_bootstrap (quiet_env 0) ["+1"]
           fresh_world init Hinit eq_refl).
Defined.

(** X18. The channel [run] serves.  When the bootstrap answers [True]
    with a session open, [run] starts its backlog pass by asking the
    first session for the history of [self.channel_id].  That id is the
    one the first session resolved, with one exception: when a
    [KeyboardInterrupt] cut the lookup short, the pass asks for the
    history of [None]. *)
Theorem service_channel (B : bootstrap) (E : env) (V : list string)
    (w : world) (init : init_outcome) :
  init_outcome_of B = Some init ->
  init_return init = inl true ->
  init_clients init <> [] ->
  exists c rest t,
    init_clients init = c :: rest
    /\ trace_of (exec (with_init init E) (run V) w) =
       EvPrint LogProcessingOld
         :: EvGetChatHistory c (init_channel_id init) 100 :: t
    /\ ((exists z, init_channel_id init = Some z
                   /\ channels (initialize_clients B).2 = [(c, Some z)])
        \/ (init_channel_id init = None /\ rest = []
            /\ exists h, BGetChat c h (Some KeyboardInterrupt)
                           ∈ (initialize_clients B).2)).
Proof.
  unfold init_outcome_of. pose proof (initialize_clients_end B) as Hend.
  destruct (initialize_clients B) as [[r s] T].
  destruct r as [[[|]|]|e]; intros [= <-] Hret Hcs; try done.
  cbn [init_clients init_channel_id snd] in *.
  destruct (bs_clients s) as [|c rest] eqn:Hc; [done|].
  exists c, rest.
  set (init := {| init_clients := c :: rest; init_channel_id := bs_channel_id s;
                  init_return := inl true |}).
  set (M := {| clients := c :: rest; reactions := V;
               channel_id := bs_channel_id s |}).
  assert (exists t,
            trace_of (exec (with_init init E) (run V) w) =
            EvPrint LogProcessingOld
              :: EvGetChatHistory c (bs_channel_id s) 100 :: t) as [t Ht].
  { destruct (exec_process_old_messages (with_init init E) M c rest w eq_refl)
      as (w1 & t & _ & Hp).
    cbn [app channel_id M] in Hp.
    remember (t ++ _) as backlog eqn:Hb in Hp. clear Hb.
    rewrite exec_run.
    cbn [initialize_result with_init init_clients init_channel_id init].
    fold M. fold init. unfold run_body. cbn [init_return init clients M].
    rewrite exec_try_except_interrupt. unfold serve. rewrite exec_bind, Hp.
    destruct (exec (with_init init E) _ w1) as [[r2 w2] t2].
    unfold trace_of, finish.
    destruct r2 as [[]|[e| |]]; cbn [fst snd app];
      try (destruct (exec (with_init init E) (say LogStopping) w2)
             as [[r3 w3] t3]);
      cbn [fst snd app]; by eexists. }
  exists t. split; [done|]. split; [exact Ht|].
  destruct Hend as [[_ Hch]|(_ & c' & h & Hc' & _ & Hn & _ & Hin)].
  - destruct (bs_channel_id s) as [z|].
    + destruct Hch as (c0 & rest0 & Hc0 & Hch). left. exists z.
      split; [done|]. rewrite Hc in Hc0. by injection Hc0 as <- <-.
    + destruct Hch as [Hnil _]. by rewrite Hc in Hnil.
  - right. rewrite Hc in Hc'. injection Hc' as <- <-. split_and!; try done.
    by exists h.
Qed.

Lemma service_channel_witness :
  let B := quiet_bootstrap ["n"] in
  let init := {| init_clients := ["sessions/alice"];
                 init_channel_id := Some (-1001234);
                 init_return := inl true |} in
  init_outcome_of B = Some init
  /\ init_return init = inl true
  /\ init_clients init <> []
  /\ exists c rest t,
       init_clients init = c :: rest
       /\ trace_of (exec (with_init init (quiet_env 0)) (run ["+1"]) fresh_world) =
          EvPrint LogProcessingOld
            :: EvGetChatHistory c (init_channel_id init) 100 :: t
       /\ ((exists z, init_channel_id init = Some z
                      /\ channels (initialize_clients B).2 = [(c, Some z)])
           \/ (init_channel_id init = None /\ rest = []
               /\ exists h, BGetChat c h (Some KeyboardInterrupt)
                              ∈ (initialize_clients B).2)).
Proof.
  intros B init.
  assert (init_outcome_of B = Some init) as Hinit by (vm_compute; reflexivity).
  split; [exact Hinit|]. split; [reflexivity|]. split; [discriminate|].
  exact (service_channel B (quiet_env 0) ["+1"] fresh_world init Hinit eq_refl
           ltac:(discriminate)).
Defined.

(** ** How much a dispatch submits *)

Lemma at_most_mono (n n' : nat) {R : Type} (Q Q' : R -> Prop) (p : prog R) :
  (n <= n')%nat -> (forall r, Q r -> Q' r) -> at_most n Q p -> at_most n' Q' p.
Proof.
  intros Hle HQ. revert n n' Hle.
  induction p as [r|e|A o k IH]; intros n n' Hle; cbn; [apply HQ|done|].
  destruct o; try (intros Hk a Ha; by eapply IH; [|apply Hk]).
  destruct n as [|n]; [done|]. destruct n' as [|n']; [lia|].
  intros Hk a. eapply IH; [|apply Hk]. lia.
Qed.

Lemma at_most_bind (n m : nat) {R S : Type} (Q : R -> Prop) (Q' : S -> Prop)
    (p : prog R) (f : R -> prog S) :
  at_most n Q p -> (forall r, Q r -> at_most m Q' (f r)) ->
  at_most (n + m) Q' (bind p f).
Proof.
  revert n. induction p as [r|e|A o k IH]; intros n Hp Hf; cbn.
  - eapply at_most_mono; [| |by apply Hf]; [lia|done].
  - done.
  - cbn in Hp. destruct o; try (intros a Ha; by apply IH; [apply Hp|]).
    destruct n as [|n]; [done|]. intros a. by apply IH.
Qed.

Lemma at_most_try_except (n m : nat) {R : Type} (Q : R -> Prop) (p : prog R)
    (h : error -> prog R) :
  at_most n Q p -> (forall e, at_most m Q (h e)) ->
  at_most (n + m) Q (try_except p h).
Proof.
  revert n. induction p as [r|e|A o k IH]; intros n Hp Hh; cbn.
  - done.
  - destruct e; [|done|done]. eapply at_most_mono; [| |apply Hh]; [lia|done].
  - cbn in Hp. destruct o; try (intros a Ha; by apply IH; [apply Hp|]).
    destruct n as [|n]; [done|]. intros a. by apply IH.
Qed.

Lemma perform_can_answer (E : env) {A : Type} (o : op A) (w : world) :
  can_answer o (perform E o w).1.1.
Proof.
  destruct o; cbn; try done. destruct n as [|n]; [by left|right].
  apply Nat.mod_upper_bound. lia.
Qed.

Lemma at_most_exec (n : nat) (E : env) {R : Type} (Q : R -> Prop) (p : prog R)
    (w : world) :
  at_most n Q p -> (submissions (trace_of (exec E p w)) <= n)%nat.
Proof.
  unfold submissions, trace_of.
  revert n w. induction p as [r|e|A o k IH]; intros n w Hp; cbn [exec];
    [cbn; lia|cbn; lia|].
  pose proof (perform_can_answer E o w) as Ha.
  assert (length (sent_emojis (perform E o w).2)
          = match o with SendReaction _ _ _ _ => 1%nat | _ => 0%nat end) as Hlen
    by (by destruct o).
  destruct (perform E o w) as [[a w1] t1]. cbn [fst snd] in *.
  cbn in Hp. destruct o;
    try (specialize (IH a n w1 (Hp a Ha));
         destruct (exec E (k a) w1) as [[r2 w2] t2]; cbn [snd] in *;
         rewrite sent_emojis_app, length_app, Hlen; lia).
  destruct n as [|n]; [done|]. specialize (IH a n w1 (Hp a)).
  destruct (exec E (k a) w1) as [[r2 w2] t2]. cbn [snd] in *.
  rewrite sent_emojis_app, length_app, Hlen. lia.
Qed.

Lemma at_most_sample_pool {A : Type} (pool : list A) (k : nat) :
  at_most 0 (fun sel => (length sel <= k)%nat) (sample_pool pool k).
Proof.
  revert pool. induction k as [|k IH]; intros pool; cbn [sample_pool];
    [cbn; lia|].
  unfold call. cbn [bind at_most]. intros j _.
  destruct (pool !! j) as [x|]; [|cbn; lia].
  destruct (last pool) as [y|]; [|cbn; lia].
  apply (at_most_bind 0 0 (fun sel => (length sel <= k)%nat)); [apply IH|].
  intros rest Hrest. cbn. lia.
Qed.

Lemma at_most_send_selected (M : manager) (c : client) (m : Z)
    (sel : list string) :
  at_most (length sel) (fun _ => True) (send_selected M c m sel).
Proof.
  induction sel as [|emoji sel IH]; [done|].
  rewrite send_selected_cons. cbn. intros [err|]; cbn; [done|].
  intros _ _. exact IH.
Qed.

Lemma at_most_attempt (M : manager) (c : client) (m : Z) :
  at_most 2 (fun _ => True) (attempt M c m).
Proof.
  unfold attempt.
  apply (at_most_bind 0 2 (fun sel => (length sel <= 2)%nat)).
  - unfold select_reactions, randint, sample, call. cbn [bind at_most].
    intros j [Hj|Hj]; [done|]. destruct (_ <? _)%nat; [done|].
    eapply at_most_mono; [| |apply at_most_sample_pool]; [done|].
    intros sel Hsel. cbn beta in Hsel. lia.
  - intros sel Hsel. eapply at_most_mono; [exact Hsel| |].
    + done.
    + apply at_most_send_selected.
Qed.

Lemma at_most_retry_loop (M : manager) (c : client) (m : Z) (fuel retries : nat) :
  at_most (2 * fuel) (fun _ => True) (retry_loop M c m fuel retries).
Proof.
  revert retries. induction fuel as [|fuel IH]; intros retries;
    cbn [retry_loop]; [done|].
  destruct (retries <? max_retries)%nat; [|done].
  replace (2 * S fuel)%nat with (2 + 0 + 2 * fuel)%nat by lia.
  apply (at_most_bind _ _ (fun _ => True)).
  - apply at_most_try_except.
    + replace 2%nat with (2 + 0)%nat by lia.
      apply (at_most_bind _ _ (fun _ => True)); [apply at_most_attempt|done].
    + intros e. unfold on_failure, say, sleep, call.
      destruct (_ <? _)%nat; cbn; done.
  - intros [retries'|] _; [apply IH|done].
Qed.

Lemma at_most_react_all (M : manager) (m : Z) (cs : list client) :
  at_most (6 * length cs) (fun _ => True) (for_each cs (react_with M m)).
Proof.
  induction cs as [|c cs IH]; [done|]. cbn [for_each length].
  replace (6 * S (length cs))%nat with (6 + 6 * length cs)%nat by lia.
  apply (at_most_bind _ _ (fun _ => True)); [|intros; apply IH].
  unfold react_with. replace 6%nat with (2 * max_retries + 0)%nat by done.
  apply (at_most_bind _ _ (fun _ => True)); [apply at_most_retry_loop|].
  intros _ _. by cbn.
Qed.

(** X19. How much a dispatch submits.  Whatever fails and whatever is
    drawn, a dispatch submits at most six reactions for each session: at
    most two in a try, and at most three tries. *)
Theorem dispatch_submission_bound (E : env) (M : manager) (m : Z) (w : world) :
  (submissions (trace_of (exec E (react_to_message M m) w))
   <= 6 * length (clients M))%nat.
Proof.
  apply (at_most_exec _ E (fun _ => True)).
  unfold react_to_message, call. cbn [bind at_most]. intros [|] _; [done|].
  intros _ _. apply at_most_react_all.
Qed.
